(** * NomadRail itinerary engine: a shallow embedding and its properties

    The engine lives in the React component [App] (the file that imports
    [./types], [./constants] and [./components/Timeline]): the helpers
    [syncSegments], [timeToMinutes], [minutesToTime], [calculateDuration],
    the history actions [recordAction], [undo], [redo], the trip management
    functions and the trip updaters handed to [updateActiveTrip].

    Modelling conventions.
    - A JavaScript [number] is an exact rational or [NaN]; every divisor
      in the source is a non-zero literal.  Infinities are outside the
      model.  Arithmetic is exact, except in the arrival cascade of
      [handleSave], which floors a product of doubles: there every
      operation rounds to the nearest double ([round64]).
    - A [string] is a Stdlib string; [===] on strings is [String.eqb].
    - React state is passed explicitly: the history actions and the trip
      management functions are functions on [AppState]; an updater given to
      [updateActiveTrip] is a function [Trip -> Trip].
    - Host built-ins ([Number], [parseInt], [parseFloat], [padStart],
      [localeCompare], [Array.prototype.sort], [Set]) are modelled next to
      their first use, each with the fragment it covers. *)

From Stdlib Require Import List String Ascii Bool Arith ZArith QArith Qround Qabs Qpower Lia Lqa.
From Stdlib Require Import DecimalString DecimalZ Sorted Permutation.
Import ListNotations.

Local Open Scope string_scope.
Local Open Scope Z_scope.
Local Open Scope list_scope.

(* ================================================================== *)
(** ** JavaScript numbers *)

Inductive number : Type :=
| Num (q : Q)
| NaN.

Definition nlift2 (f : Q -> Q -> Q) (a b : number) : number :=
  match a, b with
  | Num x, Num y => Num (f x y)
  | _, _ => NaN
  end.

Definition nadd : number -> number -> number := nlift2 Qplus.
Definition nsub : number -> number -> number := nlift2 Qminus.
Definition nmul : number -> number -> number := nlift2 Qmult.

(** [a / b]; a zero divisor (an infinity or NaN in JavaScript) never occurs
    in the source and is sent to [NaN]. *)
Definition ndiv (a b : number) : number :=
  match a, b with
  | Num x, Num y => if Qeq_bool y 0 then NaN else Num (x / y)
  | _, _ => NaN
  end.

(** Truncation towards zero. *)
Definition Qtrunc (q : Q) : Z :=
  if Qle_bool 0 q then Qfloor q else Qceiling q.

(** [a % b]: the remainder takes the sign of the dividend. *)
Definition nrem (a b : number) : number :=
  match a, b with
  | Num x, Num y =>
      if Qeq_bool y 0 then NaN else Num (x - y * inject_Z (Qtrunc (x / y)))
  | _, _ => NaN
  end.

Definition Math_floor (a : number) : number :=
  match a with
  | Num x => Num (inject_Z (Qfloor x))
  | NaN => NaN
  end.

(** [Math.round]: nearest integer, ties towards plus infinity. *)
Definition Math_round (a : number) : number :=
  match a with
  | Num x => Num (inject_Z (Qfloor (x + (1 # 2))))
  | NaN => NaN
  end.

Definition Math_max (a b : number) : number :=
  match a, b with
  | Num x, Num y => Num (if Qle_bool x y then y else x)
  | _, _ => NaN
  end.

(** The doubles of the host.  [round64 q] is the binary64 value nearest to
    [q], ties going to the even mantissa: with [binade q] the exponent [e]
    for which [2^52 <= |q| / 2^e < 2^53], the 53-bit mantissa is
    [q / 2^e] rounded to an integer.  Overflow and subnormal values (above
    [2^1024], below [2^-1022]) are left out: minutes and day numbers are
    far from both. *)
Definition rne (x : Q) : Z :=
  let f := Qfloor x in
  match Qcompare (x - inject_Z f) (1 # 2) with
  | Lt => f
  | Gt => f + 1
  | Eq => if Z.even f then f else f + 1
  end.

Definition binade (q : Q) : Z :=
  let a := Qabs q in
  if Qle_bool 1 a then Z.log2 (Qfloor a) - 52
  else - Z.log2_up (Qceiling (/ a)) - 52.

Definition round64 (q : Q) : Q :=
  if Qeq_bool q 0 then 0%Q
  else Qred (inject_Z (rne (q / Qpower 2 (binade q))) * Qpower 2 (binade q)).

(** A number as the double it is stored in. *)
Definition fl (a : number) : number :=
  match a with
  | Num q => Num (round64 q)
  | NaN => NaN
  end.

(** [a + b], [a - b], [a * b], [a / b] on doubles: the exact result of the
    operation on the two doubles, rounded. *)
Definition fadd (a b : number) : number := fl (nadd (fl a) (fl b)).
Definition fsub (a b : number) : number := fl (nsub (fl a) (fl b)).
Definition fmul (a b : number) : number := fl (nmul (fl a) (fl b)).
Definition fdiv (a b : number) : number := fl (ndiv (fl a) (fl b)).

(** [a < b], [a >= b], [a === b], [a !== b]: any comparison with [NaN]
    is false, except [!==]. *)
Definition nlt (a b : number) : bool :=
  match a, b with
  | Num x, Num y => negb (Qle_bool y x)
  | _, _ => false
  end.

Definition nge (a b : number) : bool :=
  match a, b with
  | Num x, Num y => Qle_bool y x
  | _, _ => false
  end.

Definition nstricteq (a b : number) : bool :=
  match a, b with
  | Num x, Num y => Qeq_bool x y
  | _, _ => false
  end.

(** Truthiness of a number: [0] and [NaN] are falsy. *)
Definition ntruthy (a : number) : bool :=
  match a with
  | Num x => negb (Qeq_bool x 0)
  | NaN => false
  end.

(** [a || d] on numbers. *)
Definition nor (a d : number) : number := if ntruthy a then a else d.

(** [a || d] on strings: the empty string is falsy. *)
Definition sor (a d : string) : string :=
  match a with
  | EmptyString => d
  | _ => a
  end.

(** Numeric equality of model numbers (the rationals are not normalised). *)
Definition numEq (a b : number) : Prop :=
  match a, b with
  | Num x, Num y => Qeq x y
  | NaN, NaN => True
  | _, _ => False
  end.

Definition nz (z : Z) : number := Num (inject_Z z).

(** A value read from a form input: the number copied from the edited
    object, or the string typed by the user ([e.target.value]). *)
Inductive jsval : Type :=
| JNum (n : number)
| JStr (s : string).

(* ================================================================== *)
(** ** Numeric literals in strings: [Number], [parseInt], [parseFloat]

    The model covers signed decimal literals with fraction and exponent and
    the [0x], [0o], [0b] prefixes, on byte strings with the ASCII white
    space characters.  The literal [Infinity] is outside the model. *)

Definition isWhite (c : ascii) : bool :=
  let n := nat_of_ascii c in
  (Nat.eqb n 32 || (Nat.leb 9 n && Nat.leb n 13))%bool.

Definition digitOf (c : ascii) : option Z :=
  let n := Z.of_nat (nat_of_ascii c) in
  if (48 <=? n) && (n <=? 57) then Some (n - 48)
  else if (97 <=? n) && (n <=? 122) then Some (n - 87)
  else if (65 <=? n) && (n <=? 90) then Some (n - 55)
  else None.

Definition isDigitR (radix : Z) (c : ascii) : bool :=
  match digitOf c with
  | Some d => d <? radix
  | None => false
  end.

Definition isDigit : ascii -> bool := isDigitR 10.

Fixpoint dropWhile {A} (p : A -> bool) (l : list A) : list A :=
  match l with
  | x :: r => if p x then dropWhile p r else l
  | [] => []
  end.

Fixpoint takeWhile {A} (p : A -> bool) (l : list A) : list A :=
  match l with
  | x :: r => if p x then x :: takeWhile p r else []
  | [] => []
  end.

Definition trimStart (l : list ascii) : list ascii := dropWhile isWhite l.

Definition trim (l : list ascii) : list ascii :=
  rev (dropWhile isWhite (rev (dropWhile isWhite l))).

Definition digitsToZ (radix : Z) (ds : list ascii) : Z :=
  fold_left (fun acc c => radix * acc +
                          match digitOf c with Some d => d | None => 0 end) ds 0.

Definition isNil {A} (l : list A) : bool :=
  match l with [] => true | _ => false end.

(** An optional sign: the sign as [1] or [-1], and the rest. *)
Definition scanSign (l : list ascii) : Z * list ascii :=
  match l with
  | "+"%char :: r => (1, r)
  | "-"%char :: r => (-1, r)
  | _ => (1, l)
  end.

(** Exponent part [e[+-]digits]; [None] when it is absent or malformed. *)
Definition scanExponent (l : list ascii) : option (Z * list ascii) :=
  match l with
  | c :: r =>
      if (Ascii.eqb c "e" || Ascii.eqb c "E")%bool then
        let (sg, r1) := scanSign r in
        let ds := takeWhile isDigit r1 in
        if isNil ds then None
        else Some (sg * digitsToZ 10 ds, dropWhile isDigit r1)
      else None
  | [] => None
  end.

(** Longest prefix that is an unsigned decimal literal: its value and the
    remaining characters. *)
Definition scanDecimal (l : list ascii) : option (Q * list ascii) :=
  let ip := takeWhile isDigit l in
  let r1 := dropWhile isDigit l in
  let '(fp, r2) :=
    match r1 with
    | "."%char :: r => (takeWhile isDigit r, dropWhile isDigit r)
    | _ => ([], r1)
    end in
  if (isNil ip && isNil fp)%bool then None
  else
    let mant := (inject_Z (digitsToZ 10 ip) +
                 inject_Z (digitsToZ 10 fp) /
                 Qpower (inject_Z 10) (Z.of_nat (List.length fp)))%Q in
    match scanExponent r2 with
    | Some (e, r3) => Some ((mant * Qpower (inject_Z 10) e)%Q, r3)
    | None => Some (mant, r2)
    end.

Definition scanSignedDecimal (l : list ascii) : option (Q * list ascii) :=
  let (sg, r) := scanSign l in
  match scanDecimal r with
  | Some (q, r') => Some ((inject_Z sg * q)%Q, r')
  | None => None
  end.

(** Radix of a [0x]/[0o]/[0b] prefix, with the characters after it. *)
Definition scanRadixPrefix (l : list ascii) : option (Z * list ascii) :=
  match l with
  | "0"%char :: c :: r =>
      if (Ascii.eqb c "x" || Ascii.eqb c "X")%bool then Some (16, r)
      else if (Ascii.eqb c "o" || Ascii.eqb c "O")%bool then Some (8, r)
      else if (Ascii.eqb c "b" || Ascii.eqb c "B")%bool then Some (2, r)
      else None
  | _ => None
  end.

(** [Number(s)] on a string: the whole trimmed string must be a literal;
    the empty string is [0]. *)
Definition Number (s : string) : number :=
  let l := trim (list_ascii_of_string s) in
  if isNil l then Num 0
  else
    match scanRadixPrefix l with
    | Some (radix, r) =>
        if (negb (isNil r) && forallb (isDigitR radix) r)%bool
        then nz (digitsToZ radix r) else NaN
    | None =>
        match scanSignedDecimal l with
        | Some (q, []) => Num q
        | _ => NaN
        end
    end.

(** [parseFloat(v)]: the longest decimal-literal prefix after leading white
    space.  A number argument goes through [ToString] and comes back as
    itself. *)
Definition parseFloat (v : jsval) : number :=
  match v with
  | JNum n => n
  | JStr s =>
      match scanSignedDecimal (trimStart (list_ascii_of_string s)) with
      | Some (q, _) => Num q
      | None => NaN
      end
  end.

(** [parseInt(v)] without radix: sign, optional [0x] prefix, longest digit
    prefix.  For a number argument, [ToString] prints plain decimal notation
    (magnitudes from 1e-6 up to 1e21), so the result is the truncation. *)
Definition parseInt (v : jsval) : number :=
  match v with
  | JNum (Num q) => nz (Qtrunc q)
  | JNum NaN => NaN
  | JStr s =>
      let (sg, r) := scanSign (trimStart (list_ascii_of_string s)) in
      let (radix, r') :=
        match r with
        | "0"%char :: c :: t =>
            if (Ascii.eqb c "x" || Ascii.eqb c "X")%bool then (16, t) else (10, r)
        | _ => (10, r)
        end in
      let ds := takeWhile (isDigitR radix) r' in
      if isNil ds then NaN else nz (sg * digitsToZ radix ds)
  end.

(* ================================================================== *)
(** ** Time utilities *)

(** [s.split(':')]. *)
Fixpoint splitOn (sep : ascii) (l : list ascii) : list (list ascii) :=
  match l with
  | [] => [[]]
  | c :: r =>
      if Ascii.eqb c sep then [] :: splitOn sep r
      else
        match splitOn sep r with
        | w :: ws => (c :: w) :: ws
        | [] => [[c]]
        end
  end.

Definition split (sep : ascii) (s : string) : list string :=
  map string_of_list_ascii (splitOn sep (list_ascii_of_string s)).

(** [const [h, m] = timeStr.split(':').map(Number); return h * 60 + m;]
    a missing [m] is [undefined], which makes the sum [NaN]. *)
Definition timeToMinutes (timeStr : string) : number :=
  if String.eqb timeStr "" then Num 0
  else
    match map Number (split ":" timeStr) with
    | h :: m :: _ => nadd (nmul h (Num 60)) m
    | _ => NaN
    end.

(** [z.toString()] for an integer. *)
Definition toString (z : Z) : string := NilZero.string_of_int (Z.to_int z).

(** [s.padStart(n, '0')]. *)
Definition padStart (n : nat) (c : ascii) (s : string) : string :=
  (string_of_list_ascii (repeat c (n - String.length s)) ++ s)%string.

(** [minutesToTime]: [mins] is the result of [Math.floor], an integer, so
    [Math.floor(mins / 60)] is the floor quotient [Z.div] and [mins % 60] is
    the truncating remainder [Z.rem]. *)
Definition minutesToTime (totalMinutes : number) : string :=
  match Math_floor (nrem totalMinutes (Num (24 * 60))) with
  | Num mins =>
      let mins := Qfloor mins in
      let h := mins / 60 in
      let m := Z.rem mins 60 in
      (padStart 2 "0" (toString h) ++ ":" ++ padStart 2 "0" (toString m))%string
  | NaN => "NaN:NaN"
  end.

Definition calculateDuration (start end_ : string) : number :=
  if (String.eqb start "" || String.eqb end_ "")%bool then Num 0
  else
    let startMins := timeToMinutes start in
    let endMins := timeToMinutes end_ in
    let endMins := if nlt endMins startMins then nadd endMins (Num 1440)
                   else endMins in
    ndiv (Math_round (nmul (ndiv (nsub endMins startMins) (Num 60)) (Num 10)))
         (Num 10).

(* ================================================================== *)
(** ** Data model ([types.ts]) *)

Inductive TransportMode : Type := TRAIN | BUS | AUTO | FERRY | WALK | TAXI.

Inductive Category : Type :=
| STATION | TEMPLE | NATURE | MARKET | STAY
| TRANSIT | FOOD | SIGHTSEEING | SHOPPING | CULTURE.

Record Checkpoint : Type := mkCheckpoint {
  cp_id : string;
  cp_name : string;
  cp_lat : number;
  cp_lng : number;
  cp_type : Category;
  cp_timeSpentHours : number;
  cp_startTime : string;
  cp_endTime : string;
  cp_day : number;
  cp_cost : number;
  cp_notes : string;
  cp_city : string
}.

(** [cost] is declared [number]; it is a [jsval] here because the cascade
    branch of [handleSave] stores the form value as it is. *)
Record RouteSegment : Type := mkRouteSegment {
  seg_fromId : string;
  seg_toId : string;
  seg_mode : TransportMode;
  seg_distanceKm : number;
  seg_durationHours : number;
  seg_cost : jsval;
  seg_safetyNote : string
}.

Record Trip : Type := mkTrip {
  trip_id : string;
  trip_name : string;
  checkpoints : list Checkpoint;
  segments : list RouteSegment;
  totalBudget : number;
  startDate : option string
}.

(** [INITIAL_TRIP] ([constants]). *)
Definition INITIAL_TRIP : Trip :=
  {| trip_id := "trip-1"; trip_name := "Nomad Expedition";
     checkpoints := []; segments := []; totalBudget := Num 0;
     startDate := None |}.

Definition withCheckpoints (t : Trip) (cps : list Checkpoint)
  (segs : list RouteSegment) : Trip :=
  {| trip_id := trip_id t; trip_name := trip_name t;
     checkpoints := cps; segments := segs;
     totalBudget := totalBudget t; startDate := startDate t |}.

Definition withSegments (t : Trip) (segs : list RouteSegment) : Trip :=
  withCheckpoints t (checkpoints t) segs.

Definition withName (t : Trip) (n : string) : Trip :=
  {| trip_id := trip_id t; trip_name := n;
     checkpoints := checkpoints t; segments := segments t;
     totalBudget := totalBudget t; startDate := startDate t |}.

Definition withStartDate (t : Trip) (d : string) : Trip :=
  {| trip_id := trip_id t; trip_name := trip_name t;
     checkpoints := checkpoints t; segments := segments t;
     totalBudget := totalBudget t; startDate := Some d |}.

(* ================================================================== *)
(** ** Array helpers *)

(** [arr.findIndex(p)], [-1] when no element matches. *)
Fixpoint findIndexFrom {A} (p : A -> bool) (l : list A) (i : Z) : Z :=
  match l with
  | [] => -1
  | x :: r => if p x then i else findIndexFrom p r (i + 1)
  end.

Definition findIndex {A} (p : A -> bool) (l : list A) : Z :=
  findIndexFrom p l 0.

(** [arr.map((x, idx) => f(x, idx))]. *)
Fixpoint mapiFrom {A B} (f : A -> Z -> B) (l : list A) (i : Z) : list B :=
  match l with
  | [] => []
  | x :: r => f x i :: mapiFrom f r (i + 1)
  end.

Definition mapi {A B} (f : A -> Z -> B) (l : list A) : list B :=
  mapiFrom f l 0.

Fixpoint setNth {A} (i : nat) (v : A) (l : list A) : list A :=
  match l, i with
  | [], _ => []
  | _ :: r, O => v :: r
  | x :: r, S i' => x :: setNth i' v r
  end.

(** [[a[i], a[j]] = [a[j], a[i]]] for two indices inside the array. *)
Definition swapAt {A} (i j : nat) (l : list A) : list A :=
  match nth_error l i, nth_error l j with
  | Some x, Some y => setNth j x (setNth i y l)
  | _, _ => l
  end.

(** Arrays that may hold [undefined] ([None]).  Reading outside the array
    gives [undefined]; writing at a negative index sets a property and
    leaves the elements alone; writing past the end extends the array. *)
Definition aget {A} (l : list (option A)) (i : Z) : option A :=
  if i <? 0 then None
  else match nth_error l (Z.to_nat i) with
       | Some v => v
       | None => None
       end.

Definition aset {A} (l : list (option A)) (i : Z) (v : option A)
  : list (option A) :=
  if i <? 0 then l
  else if i <? Z.of_nat (List.length l) then setNth (Z.to_nat i) v l
  else l ++ repeat None (Z.to_nat i - List.length l) ++ [v].

Definition aswap {A} (l : list (option A)) (i j : Z) : list (option A) :=
  let x := aget l j in
  let y := aget l i in
  aset (aset l i x) j y.

(** [Array.from(new Set(xs))]: the distinct strings in order of first
    appearance. *)
Definition setAdd (acc : list string) (x : string) : list string :=
  if existsb (String.eqb x) acc then acc else acc ++ [x].

Definition dedup (xs : list string) : list string :=
  fold_left setAdd xs [].

(** [arr.slice(-n)]: the last [n] elements. *)
Definition lastN {A} (n : nat) (l : list A) : list A :=
  skipn (List.length l - n) l.

(** [arr.sort(cmp)] with a compare function: the sort is stable, and for a
    consistent compare function its result is determined; it is modelled as
    a stable insertion.  [x] goes after [y] only when [cmp x y > 0]; a [NaN]
    result counts as [0]. *)
Definition positive (v : number) : bool := nlt (Num 0) v.

Fixpoint insertBy {A} (cmp : A -> A -> number) (x : A) (l : list A)
  : list A :=
  match l with
  | [] => [x]
  | y :: r => if positive (cmp x y) then y :: insertBy cmp x r
              else x :: y :: r
  end.

Fixpoint sortBy {A} (cmp : A -> A -> number) (l : list A) : list A :=
  match l with
  | [] => []
  | x :: r => insertBy cmp x (sortBy cmp r)
  end.

(** Modelled from the spec: [String.prototype.localeCompare] is a host
    built-in with locale collation; the spec has start times "compared
    lexicographically".  Collation and the lexicographic order agree on
    the empty string and on the zero-padded two-digit "HH:MM" strings of
    the time fields ([clockString] below); they differ on other strings
    (collation puts ":" and "-" before the digits), so what is stated
    about the order of start times is stated for clock strings. *)
Definition localeCompare (a b : string) : number :=
  match String.compare a b with
  | Lt => nz (-1)
  | Eq => nz 0
  | Gt => nz 1
  end.

(* ================================================================== *)
(** ** Segment synchronisation *)

(** [L.latLng(lat1, lng1).distanceTo(L.latLng(lat2, lng2))]: Leaflet's
    great-circle distance in metres, a library function outside the
    repository. *)
Class Geodesy : Type := {
  distanceTo : number -> number -> number -> number -> number
}.

(** A stand-in for running examples: metres along the meridian and the
    equator, added. *)
Definition gridDistance : Geodesy :=
  {| distanceTo := fun lat1 lng1 lat2 lng2 =>
       match nsub lat1 lat2, nsub lng1 lng2 with
       | Num a, Num b => Num ((111320 # 1) * (Qabs a + Qabs b))
       | _, _ => NaN
       end |}.

Section Engine.

Context {geo : Geodesy}.

Definition connects (from to : Checkpoint) (s : RouteSegment) : bool :=
  (String.eqb (seg_fromId s) (cp_id from) &&
   String.eqb (seg_toId s) (cp_id to))%bool.

Definition synthSegment (from to : Checkpoint) : RouteSegment :=
  let dist := ndiv (distanceTo (cp_lat from) (cp_lng from)
                               (cp_lat to) (cp_lng to)) (Num 1000) in
  {| seg_fromId := cp_id from;
     seg_toId := cp_id to;
     seg_mode := if String.eqb (cp_city from) (cp_city to) then AUTO else TRAIN;
     seg_distanceKm := Math_round dist;
     seg_durationHours :=
       Math_max (Num (1 # 2))
                (ndiv (Math_round (nmul (ndiv dist (Num 30)) (Num 10)))
                      (Num 10));
     seg_cost := JNum (Num 0);
     seg_safetyNote := "" |}.

Fixpoint syncSegments (checkpoints : list Checkpoint)
  (existingSegments : list RouteSegment) : list RouteSegment :=
  match checkpoints with
  | from :: rest =>
      match rest with
      | to :: _ =>
          match find (connects from to) existingSegments with
          | Some existing => existing
          | None => synthSegment from to
          end :: syncSegments rest existingSegments
      | [] => []
      end
  | [] => []
  end.

(* ------------------------------------------------------------------ *)
(** ** Trip updaters *)

(** The compare function of both sorts:
    [if (a.day !== b.day) return a.day - b.day;
     return (a.startTime || "").localeCompare(b.startTime || "");] *)
Definition byDayThenStart (a b : Checkpoint) : number :=
  if negb (nstricteq (cp_day a) (cp_day b)) then nsub (cp_day a) (cp_day b)
  else localeCompare (sor (cp_startTime a) "") (sor (cp_startTime b) "").

Definition inCity (cName : string) (cp : Checkpoint) : bool :=
  String.eqb (cp_city cp) cName.

(** [cityOrder.flatMap(c => cps.filter(cp => cp.city === c).sort(...))]
    with [cityOrder = Array.from(new Set(cps.map(c => c.city)))]. *)
Definition regroup (cps : list Checkpoint) : list Checkpoint :=
  let cityOrder := dedup (map cp_city cps) in
  flat_map (fun cName => sortBy byDayThenStart (filter (inCity cName) cps))
           cityOrder.

(** The checkpoint built by [addCheckpoint]; [id] is the result of
    [generateId()], [trip] the active trip of the closure. *)
Definition newCheckpoint (id : string) (lat lng : number) (name city : string)
  (targetCity : option string) (trip : Trip) : Checkpoint :=
  let lastDay := match last (map Some (checkpoints trip)) None with
                 | Some lastCpInTrip => cp_day lastCpInTrip
                 | None => Num 1
                 end in
  {| cp_id := id; cp_name := name; cp_lat := lat; cp_lng := lng;
     cp_type := SIGHTSEEING; cp_timeSpentHours := Num 2;
     cp_startTime := "09:00"; cp_endTime := "11:00"; cp_day := lastDay;
     cp_cost := Num 0; cp_notes := "";
     cp_city := sor (match targetCity with Some c => c | None => "" end)
                    city |}.

(** The updater of [addCheckpoint]. *)
Definition addCheckpointUpdater (newCp : Checkpoint) (prev : Trip) : Trip :=
  let newCheckpoints := checkpoints prev ++ [newCp] in
  let reordered := regroup newCheckpoints in
  withCheckpoints prev reordered (syncSegments reordered (segments prev)).

Definition hasId (id : string) (c : Checkpoint) : bool :=
  String.eqb (cp_id c) id.

(** [idx === -1 || newIdx < 0 || newIdx >= prev.checkpoints.length] *)
Definition moveCheckpointGuard (id : string) (delta : Z) (prev : Trip) : bool :=
  let idx := findIndex (hasId id) (checkpoints prev) in
  let newIdx := idx + delta in
  ((idx =? -1) || (newIdx <? 0) ||
   (newIdx >=? Z.of_nat (List.length (checkpoints prev))))%bool.

(** The updater of [moveCheckpoint]. *)
Definition moveCheckpointUpdater (id : string) (delta : Z) (prev : Trip)
  : Trip :=
  let idx := findIndex (hasId id) (checkpoints prev) in
  let newIdx := idx + delta in
  if moveCheckpointGuard id delta prev
  then prev
  else
    let newCps := swapAt (Z.to_nat idx) (Z.to_nat newIdx) (checkpoints prev) in
    withCheckpoints prev newCps (syncSegments newCps (segments prev)).

(** [c => prev.checkpoints.filter(cp => cp.city === c)] on an entry of the
    city array, which is [undefined] after a swap with a missing index. *)
Definition cityCheckpoints (cps : list Checkpoint) (c : option string)
  : list Checkpoint :=
  match c with
  | Some cName => filter (inCity cName) cps
  | None => []
  end.

(** [targetIdx < 0 || targetIdx >= cities.length] *)
Definition moveDestinationGuard (cityName : string) (delta : Z) (prev : Trip)
  : bool :=
  let cities := dedup (map cp_city (checkpoints prev)) in
  let cityIdx := findIndex (String.eqb cityName) cities in
  let targetIdx := cityIdx + delta in
  ((targetIdx <? 0) || (targetIdx >=? Z.of_nat (List.length cities)))%bool.

(** The updater of [moveDestination]; [cities.indexOf(cityName)] is [-1]
    for a city that is not in the trip. *)
Definition moveDestinationUpdater (cityName : string) (delta : Z)
  (prev : Trip) : Trip :=
  let cities := dedup (map cp_city (checkpoints prev)) in
  let cityIdx := findIndex (String.eqb cityName) cities in
  let targetIdx := cityIdx + delta in
  if moveDestinationGuard cityName delta prev
  then prev
  else
    let newCityOrder := aswap (map Some cities) cityIdx targetIdx in
    let reorderedCps := flat_map (cityCheckpoints (checkpoints prev))
                                 newCityOrder in
    withCheckpoints prev reorderedCps
                    (syncSegments reorderedCps (segments prev)).

(** The updater of [handleDeleteCheckpoint]. *)
Definition deleteCheckpointUpdater (id : string) (prev : Trip) : Trip :=
  let newCheckpoints := filter (fun c => negb (hasId id c)) (checkpoints prev) in
  withCheckpoints prev newCheckpoints
                  (syncSegments newCheckpoints (segments prev)).

(** The updater of [handleDeleteDestination]. *)
Definition deleteDestinationUpdater (cityName : string) (prev : Trip) : Trip :=
  let newCheckpoints :=
    filter (fun c => negb (inCity cityName c)) (checkpoints prev) in
  withCheckpoints prev newCheckpoints
                  (syncSegments newCheckpoints (segments prev)).

(* ------------------------------------------------------------------ *)
(** ** The editor forms and [handleSave] *)

(** [localForm] of the place editor: a copy of the checkpoint whose [day],
    [cost] and [timeSpentHours] may have been replaced by input strings. *)
Record PinForm : Type := mkPinForm {
  pf_id : string;
  pf_name : string;
  pf_lat : number;
  pf_lng : number;
  pf_type : Category;
  pf_timeSpentHours : jsval;
  pf_startTime : string;
  pf_endTime : string;
  pf_day : jsval;
  pf_cost : jsval;
  pf_notes : string;
  pf_city : string
}.

(** [localForm] of the transit editor. *)
Record SegForm : Type := mkSegForm {
  sf_fromId : string;
  sf_toId : string;
  sf_mode : TransportMode;
  sf_distanceKm : number;
  sf_durationHours : jsval;
  sf_cost : jsval;
  sf_safetyNote : string
}.

(** [activeEditor] together with [localForm]; the two are always set
    together by [openPinEditor] and [openSegmentEditor]. *)
Inductive Editor : Type :=
| PIN (id : string) (localForm : PinForm)
| SEGMENT (from to : string) (localForm : SegForm).

(** [{ ...cp }] and [{ ...seg }]. *)
Definition pinFormOf (cp : Checkpoint) : PinForm :=
      {| pf_id := cp_id cp; pf_name := cp_name cp; pf_lat := cp_lat cp;
         pf_lng := cp_lng cp; pf_type := cp_type cp;
         pf_timeSpentHours := JNum (cp_timeSpentHours cp);
         pf_startTime := cp_startTime cp; pf_endTime := cp_endTime cp;
         pf_day := JNum (cp_day cp); pf_cost := JNum (cp_cost cp);
         pf_notes := cp_notes cp; pf_city := cp_city cp |}.

Definition segFormOf (seg : RouteSegment) : SegForm :=
      {| sf_fromId := seg_fromId seg; sf_toId := seg_toId seg;
         sf_mode := seg_mode seg; sf_distanceKm := seg_distanceKm seg;
         sf_durationHours := JNum (seg_durationHours seg);
         sf_cost := seg_cost seg; sf_safetyNote := seg_safetyNote seg |}.

Definition openPinEditor (cp : Checkpoint) : Editor :=
  PIN (cp_id cp) (pinFormOf cp).

Definition openSegmentEditor (seg : RouteSegment) : Editor :=
  SEGMENT (seg_fromId seg) (seg_toId seg) (segFormOf seg).

(** The [onChange] and [onClick] handlers of the two editors. *)
Inductive FormEdit : Type :=
| SetDay (v : string)
| SetName (v : string)
| SetCost (v : string)
| SetTimeSpentHours (v : string)
| SetMode (m : TransportMode)
| SetDurationHours (v : string).

Definition editPin (f : PinForm) (e : FormEdit) : PinForm :=
  let mk n ts d c :=
    {| pf_id := pf_id f; pf_name := n; pf_lat := pf_lat f;
       pf_lng := pf_lng f; pf_type := pf_type f; pf_timeSpentHours := ts;
       pf_startTime := pf_startTime f; pf_endTime := pf_endTime f;
       pf_day := d; pf_cost := c; pf_notes := pf_notes f;
       pf_city := pf_city f |} in
  match e with
  | SetDay v => mk (pf_name f) (pf_timeSpentHours f) (JStr v) (pf_cost f)
  | SetName v => mk v (pf_timeSpentHours f) (pf_day f) (pf_cost f)
  | SetCost v => mk (pf_name f) (pf_timeSpentHours f) (pf_day f) (JStr v)
  | SetTimeSpentHours v => mk (pf_name f) (JStr v) (pf_day f) (pf_cost f)
  | SetMode _ | SetDurationHours _ => f
  end.

Definition editSeg (f : SegForm) (e : FormEdit) : SegForm :=
  let mk m d c :=
    {| sf_fromId := sf_fromId f; sf_toId := sf_toId f; sf_mode := m;
       sf_distanceKm := sf_distanceKm f; sf_durationHours := d;
       sf_cost := c; sf_safetyNote := sf_safetyNote f |} in
  match e with
  | SetMode m => mk m (sf_durationHours f) (sf_cost f)
  | SetCost v => mk (sf_mode f) (sf_durationHours f) (JStr v)
  | SetDurationHours v => mk (sf_mode f) (JStr v) (sf_cost f)
  | SetDay _ | SetName _ | SetTimeSpentHours _ => f
  end.

(** [setLocalForm({ ...localForm, field: value })] in the open editor. *)
Definition editForm (ed : Editor) (e : FormEdit) : Editor :=
  match ed with
  | PIN id f => PIN id (editPin f e)
  | SEGMENT from to f => SEGMENT from to (editSeg f e)
  end.

(** [{ ...localForm, day: parseInt(localForm.day) || 1,
       cost: parseInt(localForm.cost) || 0,
       timeSpentHours: parseFloat(localForm.timeSpentHours) || 0 }] *)
Definition sanitizedForm (localForm : PinForm) : Checkpoint :=
  {| cp_id := pf_id localForm; cp_name := pf_name localForm;
     cp_lat := pf_lat localForm; cp_lng := pf_lng localForm;
     cp_type := pf_type localForm;
     cp_timeSpentHours := nor (parseFloat (pf_timeSpentHours localForm)) (Num 0);
     cp_startTime := pf_startTime localForm;
     cp_endTime := pf_endTime localForm;
     cp_day := nor (parseInt (pf_day localForm)) (Num 1);
     cp_cost := nor (parseInt (pf_cost localForm)) (Num 0);
     cp_notes := pf_notes localForm; cp_city := pf_city localForm |}.

(** [{ ...localForm, durationHours }]: the cost stays the form value. *)
Definition segmentOfForm (localForm : SegForm) (durationHours : number)
  : RouteSegment :=
  {| seg_fromId := sf_fromId localForm; seg_toId := sf_toId localForm;
     seg_mode := sf_mode localForm; seg_distanceKm := sf_distanceKm localForm;
     seg_durationHours := durationHours; seg_cost := sf_cost localForm;
     seg_safetyNote := sf_safetyNote localForm |}.

(** [{ ...localForm, cost: parseInt(localForm.cost) || 0,
       durationHours: parseFloat(localForm.durationHours) || 0 }] *)
Definition sanitizedSegment (localForm : SegForm) : RouteSegment :=
  {| seg_fromId := sf_fromId localForm; seg_toId := sf_toId localForm;
     seg_mode := sf_mode localForm; seg_distanceKm := sf_distanceKm localForm;
     seg_durationHours := nor (parseFloat (sf_durationHours localForm)) (Num 0);
     seg_cost := JNum (nor (parseInt (sf_cost localForm)) (Num 0));
     seg_safetyNote := sf_safetyNote localForm |}.

Definition isSegment (from to : string) (s : RouteSegment) : bool :=
  (String.eqb (seg_fromId s) from && String.eqb (seg_toId s) to)%bool.

Definition setDay (cp : Checkpoint) (d : number) : Checkpoint :=
  {| cp_id := cp_id cp; cp_name := cp_name cp; cp_lat := cp_lat cp;
     cp_lng := cp_lng cp; cp_type := cp_type cp;
     cp_timeSpentHours := cp_timeSpentHours cp;
     cp_startTime := cp_startTime cp; cp_endTime := cp_endTime cp;
     cp_day := d; cp_cost := cp_cost cp; cp_notes := cp_notes cp;
     cp_city := cp_city cp |}.

Definition setArrival (cp : Checkpoint) (d : number) (startTime endTime : string)
  : Checkpoint :=
  {| cp_id := cp_id cp; cp_name := cp_name cp; cp_lat := cp_lat cp;
     cp_lng := cp_lng cp; cp_type := cp_type cp;
     cp_timeSpentHours := cp_timeSpentHours cp;
     cp_startTime := startTime; cp_endTime := endTime;
     cp_day := d; cp_cost := cp_cost cp; cp_notes := cp_notes cp;
     cp_city := cp_city cp |}.

(** The updater of [handleSave], by editor type.  The arrival cascade
    floors its minute totals, so its sums and products are those of
    doubles. *)
Definition handleSaveUpdater (activeEditor : Editor) (prev : Trip) : Trip :=
  match activeEditor with
  | PIN id localForm =>
      let newCps := map (fun c => if hasId id c then sanitizedForm localForm
                                  else c) (checkpoints prev) in
      let finalCps := regroup newCps in
      withCheckpoints prev finalCps (syncSegments finalCps (segments prev))
  | SEGMENT from to localForm =>
      let durationHours := nor (parseFloat (sf_durationHours localForm)) (Num 0) in
      let fromIdx := findIndex (hasId from) (checkpoints prev) in
      let toIdx := findIndex (hasId to) (checkpoints prev) in
      match nth_error (checkpoints prev) (Z.to_nat fromIdx),
            nth_error (checkpoints prev) (Z.to_nat toIdx),
            (negb (fromIdx =? -1) && negb (toIdx =? -1))%bool with
      | Some fromCp, Some toCp, true =>
          let startMins :=
            timeToMinutes (sor (sor (cp_endTime fromCp) (cp_startTime fromCp))
                               "09:00") in
          let totalMins := fadd startMins (fmul durationHours (Num 60)) in
          let arrivalTime := minutesToTime totalMins in
          let newArrivalDay :=
            fadd (cp_day fromCp) (Math_floor (fdiv totalMins (Num 1440))) in
          let dayShift := fsub newArrivalDay (cp_day toCp) in
          let shiftedCps :=
            mapi (fun cp idx =>
                    if idx =? toIdx then
                      setArrival cp newArrivalDay arrivalTime
                        (minutesToTime
                           (fadd totalMins
                                 (fmul (cp_timeSpentHours cp) (Num 60))))
                    else if idx >? toIdx then
                      setDay cp (fadd (cp_day cp) dayShift)
                    else cp)
                 (checkpoints prev) in
          withCheckpoints prev shiftedCps
            (map (fun s => if isSegment from to s
                           then segmentOfForm localForm durationHours else s)
                 (segments prev))
      | _, _, _ =>
          withSegments prev
            (map (fun s => if isSegment from to s
                           then sanitizedSegment localForm else s)
                 (segments prev))
      end
  end.

(* ------------------------------------------------------------------ *)
(** ** The engine operations on one trip *)

(** The call surface of the engine.  [updateCheckpointFields] and
    [updateSegmentFields] are an editor opened on an object, a sequence of
    field edits, and [handleSave]. *)
Inductive EngineOp : Type :=
| insertCheckpoint (id : string) (lat lng : number) (name city : string)
    (targetCity : option string)
| moveCheckpoint (id : string) (delta : Z)
| moveDestination (cityName : string) (delta : Z)
| deleteCheckpoint (id : string)
| deleteDestination (cityName : string)
| updateCheckpointFields (cp : Checkpoint) (fields : list FormEdit)
| updateSegmentFields (seg : RouteSegment) (fields : list FormEdit).

Definition applyOp (op : EngineOp) (prev : Trip) : Trip :=
  match op with
  | insertCheckpoint id lat lng name city targetCity =>
      addCheckpointUpdater (newCheckpoint id lat lng name city targetCity prev)
                           prev
  | moveCheckpoint id delta => moveCheckpointUpdater id delta prev
  | moveDestination cityName delta => moveDestinationUpdater cityName delta prev
  | deleteCheckpoint id => deleteCheckpointUpdater id prev
  | deleteDestination cityName => deleteDestinationUpdater cityName prev
  | updateCheckpointFields cp fields =>
      handleSaveUpdater (fold_left editForm fields (openPinEditor cp)) prev
  | updateSegmentFields seg fields =>
      handleSaveUpdater (fold_left editForm fields (openSegmentEditor seg)) prev
  end.

(* ------------------------------------------------------------------ *)
(** ** Application state: trip list and history *)

Record AppState : Type := mkAppState {
  trips : list Trip;
  activeTripId : string;
  past : list (list Trip);
  future : list (list Trip)
}.

(** [trips.find(t => t.id === activeTripId) || trips[0]] *)
Definition activeTrip (s : AppState) : option Trip :=
  match find (fun t => String.eqb (trip_id t) (activeTripId s)) (trips s) with
  | Some t => Some t
  | None => hd_error (trips s)
  end.

Definition recordAction (currentTrips : list Trip) (s : AppState) : AppState :=
  {| trips := trips s; activeTripId := activeTripId s;
     past := lastN 24 (past s) ++ [currentTrips];
     future := [] |}.

Definition undo (s : AppState) : AppState :=
  match last (map Some (past s)) None with
  | None => s
  | Some previous =>
      {| trips := previous; activeTripId := activeTripId s;
         past := firstn (List.length (past s) - 1) (past s);
         future := trips s :: future s |}
  end.

Definition redo (s : AppState) : AppState :=
  match future s with
  | [] => s
  | next :: rest =>
      {| trips := next; activeTripId := activeTripId s;
         past := past s ++ [trips s];
         future := rest |}
  end.

Definition setTrips (ts : list Trip) (s : AppState) : AppState :=
  {| trips := ts; activeTripId := activeTripId s;
     past := past s; future := future s |}.

Definition setActiveTripId (id : string) (s : AppState) : AppState :=
  {| trips := trips s; activeTripId := id;
     past := past s; future := future s |}.

(** [newId] is the result of [generateId()]. *)
Definition createNewTrip (newId : string) (s : AppState) : AppState :=
  let newTrip :=
    {| trip_id := newId;
       trip_name := ("Adventure #" ++
                     toString (Z.of_nat (List.length (trips s)) + 1))%string;
       checkpoints := checkpoints INITIAL_TRIP;
       segments := segments INITIAL_TRIP;
       totalBudget := totalBudget INITIAL_TRIP;
       startDate := startDate INITIAL_TRIP |} in
  setActiveTripId newId
    (setTrips (trips s ++ [newTrip]) (recordAction (trips s) s)).

(** When every trip carried [id], [newTrips[0].id] throws after the state
    updates were queued: the active id then stays. *)
Definition deleteTrip (id : string) (s : AppState) : AppState :=
  if (List.length (trips s) =? 1)%nat then s
  else
    let newTrips := filter (fun t => negb (String.eqb (trip_id t) id))
                           (trips s) in
    let s1 := setTrips newTrips (recordAction (trips s) s) in
    if String.eqb (activeTripId s) id then
      match newTrips with
      | t0 :: _ => setActiveTripId (trip_id t0) s1
      | [] => s1
      end
    else s1.

Definition renameActiveTrip (newName : string) (s : AppState) : AppState :=
  setTrips (map (fun t => if String.eqb (trip_id t) (activeTripId s)
                          then withName t newName else t) (trips s))
           (recordAction (trips s) s).

Definition updateActiveTrip (updater : Trip -> Trip) (s : AppState)
  : AppState :=
  setTrips (map (fun t => if String.eqb (trip_id t) (activeTripId s)
                          then updater t else t) (trips s))
           (recordAction (trips s) s).

(** [addCheckpoint] reads the active trip of its closure; without any trip
    the read throws before anything is recorded. *)
Definition addCheckpoint (id : string) (lat lng : number) (name city : string)
  (targetCity : option string) (s : AppState) : AppState :=
  match activeTrip s with
  | Some trip =>
      updateActiveTrip
        (addCheckpointUpdater
           (newCheckpoint id lat lng name city targetCity trip)) s
  | None => s
  end.

(** [if (!activeEditor || !localForm) return;] *)
Definition handleSave (activeEditor : option Editor) (s : AppState)
  : AppState :=
  match activeEditor with
  | None => s
  | Some ed => updateActiveTrip (handleSaveUpdater ed) s
  end.

(** The user intents that change the trip list. *)
Inductive Action : Type :=
| CreateNewTrip (newId : string)
| DeleteTrip (id : string)
| RenameActiveTrip (newName : string)
| AddCheckpoint (id : string) (lat lng : number) (name city : string)
    (targetCity : option string)
| MoveCheckpoint (id : string) (delta : Z)
| MoveDestination (cityName : string) (delta : Z)
| HandleSave (activeEditor : option Editor)
| HandleDeleteCheckpoint (id : string)
| HandleDeleteDestination (cityName : string)
| UpdateTripStartDate (date : string).

Definition perform (a : Action) (s : AppState) : AppState :=
  match a with
  | CreateNewTrip newId => createNewTrip newId s
  | DeleteTrip id => deleteTrip id s
  | RenameActiveTrip newName => renameActiveTrip newName s
  | AddCheckpoint id lat lng name city targetCity =>
      addCheckpoint id lat lng name city targetCity s
  | MoveCheckpoint id delta =>
      updateActiveTrip (moveCheckpointUpdater id delta) s
  | MoveDestination cityName delta =>
      updateActiveTrip (moveDestinationUpdater cityName delta) s
  | HandleSave activeEditor => handleSave activeEditor s
  | HandleDeleteCheckpoint id =>
      updateActiveTrip (deleteCheckpointUpdater id) s
  | HandleDeleteDestination cityName =>
      updateActiveTrip (deleteDestinationUpdater cityName) s
  | UpdateTripStartDate date =>
      updateActiveTrip (fun prev => withStartDate prev date) s
  end.

(** The guards that return before [recordAction]: deleting the only trip,
    saving without an open editor, adding a checkpoint without any trip. *)
Definition rejected (a : Action) (s : AppState) : bool :=
  match a with
  | DeleteTrip _ => (List.length (trips s) =? 1)%nat
  | HandleSave None => true
  | AddCheckpoint _ _ _ _ _ _ =>
      match activeTrip s with None => true | Some _ => false end
  | _ => false
  end.

(* ------------------------------------------------------------------ *)
(** ** Derived views and the activity shortcut of [App] *)



(** [Array.from(new Set(trip?.checkpoints.map(c => c.city) || []))] *)
Definition uniqueCities (trip : option Trip) : list string :=
  match trip with
  | Some t => dedup (map cp_city (checkpoints t))
  | None => dedup []
  end.

(** [pendingAdd]: the place waiting to be assigned to a hub. *)
Record PendingAdd : Type := mkPendingAdd {
  pa_lat : number;
  pa_lng : number;
  pa_name : string;
  pa_city : string
}.

Record Recommendation : Type := mkRecommendation {
  rec_name : string;
  rec_distance : number
}.

(** [recommendedCities]: every city with the distance in km from the
    pending place to the first checkpoint of the city, nearest first.
    [inCity[0]] exists for a name taken from [uniqueCities]; the empty case
    of the match is never reached. *)
Definition recommendedCities (pendingAdd : option PendingAdd)
  (trip : option Trip) : list Recommendation :=
  match pendingAdd with
  | None => []
  | Some pa =>
      sortBy (fun a b => nsub (rec_distance a) (rec_distance b))
        (map (fun cName =>
                let inCity :=
                  filter (inCity cName)
                         (match trip with Some t => checkpoints t | None => [] end) in
                let dist :=
                  match inCity with
                  | c0 :: _ =>
                      ndiv (distanceTo (pa_lat pa) (pa_lng pa)
                                       (cp_lat c0) (cp_lng c0)) (Num 1000)
                  | [] => NaN
                  end in
                {| rec_name := cName; rec_distance := dist |})
             (uniqueCities trip))
  end.


End Engine.

(* ================================================================== *)
(** ** The timeline component ([components/Timeline]) *)

(** [transitToNext] of a checkpoint in the timeline:
    [globalIdx = trip.checkpoints.findIndex(c => c.id === cp.id)],
    [nextCp = trip.checkpoints[globalIdx + 1]] and, when there is one, the
    first segment from [cp] to [nextCp]. *)
Definition transitToNext (trip : Trip) (cp : Checkpoint) : option RouteSegment :=
  let globalIdx := findIndex (hasId (cp_id cp)) (checkpoints trip) in
  match nth_error (checkpoints trip) (Z.to_nat (globalIdx + 1)) with
  | Some nextCp =>
      find (fun s => (String.eqb (seg_fromId s) (cp_id cp) &&
                      String.eqb (seg_toId s) (cp_id nextCp))%bool)
           (segments trip)
  | None => None
  end.



Section TimelineGroups.

(** The keys for which an empty object literal already answers with a
    truthy value ([constructor], [toString], ...): they belong to the host,
    not to the repository. *)
Variable inherited : string -> bool.

(** [cityGroups[k]] among the properties set so far. *)
Fixpoint ownGroup (k : string) (groups : list (string * list Checkpoint))
  : option (list Checkpoint) :=
  match groups with
  | [] => None
  | (k', g) :: r => if String.eqb k' k then Some g else ownGroup k r
  end.

(** [cityGroups[k].push(cp)] on an own group. *)
Fixpoint pushGroup (k : string) (cp : Checkpoint)
  (groups : list (string * list Checkpoint))
  : list (string * list Checkpoint) :=
  match groups with
  | [] => []
  | (k', g) :: r =>
      if String.eqb k' k then (k', g ++ [cp]) :: r
      else (k', g) :: pushGroup k cp r
  end.

(** One round of the [forEach]:
    [if (!cityGroups[cp.city]) { cities.push(cp.city); cityGroups[cp.city] = []; }
     cityGroups[cp.city].push(cp);]
    For an inherited key the test finds a truthy value that has no [push]:
    the call throws ([None]). *)
Definition groupStep
  (st : option (list string * list (string * list Checkpoint)))
  (cp : Checkpoint) : option (list string * list (string * list Checkpoint)) :=
  match st with
  | None => None
  | Some (cities, cityGroups) =>
      match ownGroup (cp_city cp) cityGroups with
      | Some _ => Some (cities, pushGroup (cp_city cp) cp cityGroups)
      | None =>
          if inherited (cp_city cp) then None
          else Some (cities ++ [cp_city cp],
                     pushGroup (cp_city cp) cp
                               (cityGroups ++ [(cp_city cp, [])]))
      end
  end.

Definition timelineGroups (cps : list Checkpoint)
  : option (list string * list (string * list Checkpoint)) :=
  fold_left groupStep cps (Some ([], [])).

End TimelineGroups.

(* ================================================================== *)
(** ** Properties of the trip invariants, stated on the model *)

(** The segment invariant: one segment per adjacent pair of checkpoints,
    in sequence order. *)
Definition segmentInvariant (t : Trip) : Prop :=
  Z.of_nat (List.length (segments t)) =
    Z.max 0 (Z.of_nat (List.length (checkpoints t)) - 1) /\
  forall i a b s,
    nth_error (checkpoints t) i = Some a ->
    nth_error (checkpoints t) (S i) = Some b ->
    nth_error (segments t) i = Some s ->
    seg_fromId s = cp_id a /\ seg_toId s = cp_id b.

(** The operations that rebuild the segment list on every path. *)
Definition regenerates (op : EngineOp) : bool :=
  match op with
  | insertCheckpoint _ _ _ _ _ _ | deleteCheckpoint _ | deleteDestination _
  | updateCheckpointFields _ _ => true
  | moveCheckpoint _ _ | moveDestination _ _ | updateSegmentFields _ _ => false
  end.

(** The trips the engine can hold: the empty [INITIAL_TRIP]; a trip that
    differs from one of them in id, name, budget or start date only
    ([createNewTrip], [renameActiveTrip], the start date picker and the
    first trip of a session touch neither checkpoints nor segments); and
    what an engine operation makes of such a trip. *)
Inductive reachableTrip {geo : Geodesy} : Trip -> Prop :=
| reach_initial : reachableTrip INITIAL_TRIP
| reach_relabel (t t' : Trip) :
    reachableTrip t ->
    checkpoints t' = checkpoints t -> segments t' = segments t ->
    reachableTrip t'
| reach_op (op : EngineOp) (t : Trip) :
    reachableTrip t -> reachableTrip (applyOp op t).

(* ------------------------------------------------------------------ *)
(** *** Segment synchronisation *)

(** What [syncSegments] puts at the position of the pair [(a, b)]. *)
Definition keptOrSynth {geo : Geodesy} (a b : Checkpoint) (segs : list RouteSegment)
  : RouteSegment :=
  match find (connects a b) segs with
  | Some existing => existing
  | None => synthSegment a b
  end.

(** The paths on which an operation rebuilds the segment list with
    [syncSegments]: every structural operation outside its no-op guard. *)
Definition rebuilds (op : EngineOp) (t : Trip) : bool :=
  match op with
  | moveCheckpoint id delta => negb (moveCheckpointGuard id delta t)
  | moveDestination cityName delta => negb (moveDestinationGuard cityName delta t)
  | updateSegmentFields _ _ => false
  | insertCheckpoint _ _ _ _ _ _ | deleteCheckpoint _ | deleteDestination _
  | updateCheckpointFields _ _ => true
  end.

(* ------------------------------------------------------------------ *)
(** *** City grouping and day order *)

(** [a] is not after [b] by (day, then start time in lexicographic order). *)
Definition dayStartLe (a b : Checkpoint) : Prop :=
  match cp_day a, cp_day b with
  | Num x, Num y =>
      (x < y)%Q \/
      (x == y /\ String.leb (cp_startTime a) (cp_startTime b) = true)
  | _, _ => False
  end.

(** Checkpoints of one city occupy a contiguous index range: a position
    between two checkpoints of a city holds a checkpoint of that city. *)
Definition cityContiguous (cps : list Checkpoint) : Prop :=
  forall i j k a c b,
    (i <= j)%nat -> (j <= k)%nat ->
    nth_error cps i = Some a -> nth_error cps j = Some c ->
    nth_error cps k = Some b ->
    cp_city a = cp_city b -> cp_city c = cp_city a.

(** Within a city, a checkpoint at a smaller index is never after one at a
    larger index. *)
Definition groupSorted (cps : list Checkpoint) : Prop :=
  forall i j a b,
    (i < j)%nat ->
    nth_error cps i = Some a -> nth_error cps j = Some b ->
    cp_city a = cp_city b -> dayStartLe a b.

(** The same two properties on a list cut at the two checkpoints. *)
Definition contiguousApart (cps : list Checkpoint) : Prop :=
  forall l1 a l2 b l3,
    cps = l1 ++ a :: l2 ++ b :: l3 ->
    cp_city a = cp_city b ->
    forall c, In c l2 -> cp_city c = cp_city a.

Definition sortedApart (cps : list Checkpoint) : Prop :=
  forall l1 a l2 b l3,
    cps = l1 ++ a :: l2 ++ b :: l3 ->
    cp_city a = cp_city b ->
    dayStartLe a b.

(** A day number that is not [NaN]. *)
Definition finiteDay (c : Checkpoint) : Prop := exists x, cp_day c = Num x.

Definition daysFinite (cps : list Checkpoint) : Prop := Forall finiteDay cps.

(** The city names in order of first appearance, by recursion. *)
Fixpoint uniq (l : list string) : list string :=
  match l with
  | [] => []
  | x :: r => x :: filter (fun y => negb (String.eqb y x)) (uniq r)
  end.

(** [y] is not among the strings seen so far. *)
Definition notIn (acc : list string) (y : string) : bool :=
  negb (existsb (String.eqb y) acc).

(** The block of one city in [regroup]. *)
Definition cityBlock (cps : list Checkpoint) (cName : string)
  : list Checkpoint :=
  sortBy byDayThenStart (filter (inCity cName) cps).

(** The operations that regroup the checkpoints, and those that only
    remove some. *)
Definition resorts (op : EngineOp) : bool :=
  match op with
  | insertCheckpoint _ _ _ _ _ _ | updateCheckpointFields _ _ => true
  | _ => false
  end.

Definition removes (op : EngineOp) : bool :=
  match op with
  | deleteCheckpoint _ | deleteDestination _ => true
  | _ => false
  end.

(** The checkpoints an operation hands to the regrouping step: the old
    ones with the new checkpoint appended, or with the edited one replaced
    by the sanitized form. *)
Definition stagedCheckpoints (op : EngineOp) (t : Trip) : list Checkpoint :=
  match op with
  | insertCheckpoint id lat lng name city targetCity =>
      checkpoints t ++ [newCheckpoint id lat lng name city targetCity t]
  | updateCheckpointFields cp fields =>
      match fold_left editForm fields (openPinEditor cp) with
      | PIN id localForm =>
          map (fun c => if hasId id c then sanitizedForm localForm else c)
              (checkpoints t)
      | SEGMENT _ _ _ => checkpoints t
      end
  | _ => checkpoints t
  end.

(* ------------------------------------------------------------------ *)
(** *** Time, cascade and history *)

(** [numEq] as a boolean, and the two tables checked by computation. *)
Definition numEqb (a b : number) : bool :=
  match a, b with
  | Num x, Num y => Qeq_bool x y
  | NaN, NaN => true
  | _, _ => false
  end.

(** The two-digit rendering of [minutesToTime], and the clock string of a
    minute of the day. *)
Definition twoDigits (z : Z) : string := padStart 2 "0" (toString z).

Definition clockOf (z : Z) : string :=
  (twoDigits (z / 60) ++ ":" ++ twoDigits (Z.rem z 60))%string.

(** The start times on which the order of [localeCompare] is known: the
    empty string and the clock strings "00:00" to "23:59". *)
Definition clockString (s : string) : Prop :=
  s = "" \/ exists z, 0 <= z < 1440 /\ s = clockOf z.

Definition clockStarts (cps : list Checkpoint) : Prop :=
  Forall (fun c => clockString (cp_startTime c)) cps.

(** The duration as the specification words it: [(end - start) / 60]
    rounded to one decimal, with 1440 minutes added to [end] first when
    [end < start]. *)
Definition durationSpec (start end_ : string) : number :=
  let startMins := timeToMinutes start in
  let endMins := timeToMinutes end_ in
  let endMins := if nlt endMins startMins then nadd endMins (Num 1440)
                 else endMins in
  ndiv (Math_round (nmul (ndiv (nsub endMins startMins) (Num 60)) (Num 10)))
       (Num 10).

Definition hhmmParses (h m : nat) : bool :=
  numEqb (timeToMinutes (twoDigits (Z.of_nat h) ++ ":" ++
                         twoDigits (Z.of_nat m))%string)
         (nz (Z.of_nat h * 60 + Z.of_nat m)).

Definition clockParses (z : nat) : bool :=
  numEqb (timeToMinutes (clockOf (Z.of_nat z))) (nz (Z.of_nat z)).

(** The minute of departure: [fromCp.endTime || fromCp.startTime || "09:00"]
    parsed. *)
Definition departure (fromCp : Checkpoint) : number :=
  timeToMinutes (sor (sor (cp_endTime fromCp) (cp_startTime fromCp)) "09:00").

(** The duration that [handleSave] reads from the transit form after the
    edits. *)
Definition savedDuration (seg : RouteSegment) (fields : list FormEdit)
  : number :=
  match fold_left editForm fields (openSegmentEditor seg) with
  | SEGMENT _ _ localForm => nor (parseFloat (sf_durationHours localForm)) (Num 0)
  | PIN _ _ => Num 0
  end.

(** Undo and redo stacks together never hold more than 25 snapshots. *)
Definition historyBounded (s : AppState) : Prop :=
  (List.length (past s) + List.length (future s) <= 25)%nat.

(* ------------------------------------------------------------------ *)
(** *** Runs of user intents *)

(** A user intent: an action, [undo] or [redo]. *)
Inductive Event : Type :=
| Do (a : Action)
| Undo
| Redo.

Definition step {geo : Geodesy} (e : Event) (s : AppState) : AppState :=
  match e with
  | Do a => perform a s
  | Undo => undo s
  | Redo => redo s
  end.

Definition run {geo : Geodesy} (es : list Event) (s : AppState) : AppState :=
  fold_left (fun st e => step e st) es s.

(** An editor whose form still carries the ids it was opened on, as
    [openPinEditor] and [openSegmentEditor] leave it. *)
Definition editorConsistent (ed : Editor) : Prop :=
  match ed with
  | PIN id f => pf_id f = id
  | SEGMENT from to f => sf_fromId f = from /\ sf_toId f = to
  end.

Definition eventConsistent (e : Event) : Prop :=
  match e with
  | Do (HandleSave (Some ed)) => editorConsistent ed
  | _ => True
  end.

(** Every trip the state holds: the current list and both stacks. *)
Definition allTrips (s : AppState) : list Trip :=
  trips s ++ List.concat (past s) ++ List.concat (future s).

(** The actions that leave [activeTripId] as it is: all but
    [createNewTrip], which selects the new trip, and [deleteTrip] of the
    active trip, which selects the first trip that is left. *)
Definition keepsActiveTrip (a : Action) (s : AppState) : bool :=
  match a with
  | CreateNewTrip _ => false
  | DeleteTrip id => negb (String.eqb (activeTripId s) id)
  | _ => true
  end.

(** The actions that go through [updateActiveTrip]. *)
Definition editsActiveTrip (a : Action) : bool :=
  match a with
  | CreateNewTrip _ | DeleteTrip _ | RenameActiveTrip _ => false
  | _ => true
  end.

(** The updater an action hands to [updateActiveTrip], when it gets that
    far. *)
Definition updaterOf {geo : Geodesy} (a : Action) (s : AppState)
  : option (Trip -> Trip) :=
  match a with
  | AddCheckpoint id lat lng name city targetCity =>
      match activeTrip s with
      | Some trip =>
          Some (addCheckpointUpdater
                  (newCheckpoint id lat lng name city targetCity trip))
      | None => None
      end
  | MoveCheckpoint id delta => Some (moveCheckpointUpdater id delta)
  | MoveDestination cityName delta => Some (moveDestinationUpdater cityName delta)
  | HandleSave (Some ed) => Some (handleSaveUpdater ed)
  | HandleDeleteCheckpoint id => Some (deleteCheckpointUpdater id)
  | HandleDeleteDestination cityName => Some (deleteDestinationUpdater cityName)
  | UpdateTripStartDate date => Some (fun prev => withStartDate prev date)
  | CreateNewTrip _ | DeleteTrip _ | RenameActiveTrip _ | HandleSave None => None
  end.

(** No two checkpoints of the trip share an id. *)
Definition distinctIds (t : Trip) : Prop :=
  NoDup (map cp_id (checkpoints t)).

(** The cities in order of first appearance, each with its checkpoints in
    trip order. *)
Definition groupsOf (cps : list Checkpoint)
  : list string * list (string * list Checkpoint) :=
  (dedup (map cp_city cps),
   map (fun k => (k, filter (inCity k) cps)) (dedup (map cp_city cps))).

(** A recommendation that is not farther away than another one. *)
Definition nearerOrEqual (a b : Recommendation) : Prop :=
  match rec_distance a, rec_distance b with
  | Num x, Num y => (x <= y)%Q
  | _, _ => False
  end.





(** A state that recorded a step in which no trip changed. *)
Definition recordedUnchanged (s' s : AppState) : Prop :=
  trips s' = trips s /\
  past s' = lastN 24 (past s) ++ [trips s] /\
  future s' = [].

(** Two checkpoints that differ at most in day, start time and end time. *)
Definition sameButSchedule (a b : Checkpoint) : Prop :=
  cp_id a = cp_id b /\ cp_name a = cp_name b /\ cp_lat a = cp_lat b /\
  cp_lng a = cp_lng b /\ cp_type a = cp_type b /\
  cp_timeSpentHours a = cp_timeSpentHours b /\ cp_cost a = cp_cost b /\
  cp_notes a = cp_notes b /\ cp_city a = cp_city b.



(** The clock string of an hour and a minute. *)
Definition clock (h m : Z) : string :=
  (twoDigits h ++ ":" ++ twoDigits m)%string.

(* ------------------------------------------------------------------ *)
(** *** Sample itineraries *)

(** A checkpoint with the defaults of [addCheckpoint] on day 1. *)
Definition stop (id name : string) (lat lng : Q) (city : string) : Checkpoint :=
  {| cp_id := id; cp_name := name; cp_lat := Num lat; cp_lng := Num lng;
     cp_type := SIGHTSEEING; cp_timeSpentHours := Num 2;
     cp_startTime := "09:00"; cp_endTime := "11:00"; cp_day := Num 1;
     cp_cost := Num 0; cp_notes := ""; cp_city := city |}.

Definition agraFort : Checkpoint :=
  {| cp_id := "a"; cp_name := "Agra Fort"; cp_lat := Num (271795 # 10000);
     cp_lng := Num (780211 # 10000); cp_type := CULTURE;
     cp_timeSpentHours := Num 2; cp_startTime := "16:00";
     cp_endTime := "18:00"; cp_day := Num 1; cp_cost := Num 50;
     cp_notes := ""; cp_city := "Agra" |}.

Definition tajMahal : Checkpoint :=
  {| cp_id := "b"; cp_name := "Taj Mahal"; cp_lat := Num (271751 # 10000);
     cp_lng := Num (780421 # 10000); cp_type := SIGHTSEEING;
     cp_timeSpentHours := Num 2; cp_startTime := "19:00";
     cp_endTime := "21:00"; cp_day := Num 1; cp_cost := Num 1100;
     cp_notes := ""; cp_city := "Agra" |}.

Definition amberFort : Checkpoint :=
  {| cp_id := "c"; cp_name := "Amber Fort"; cp_lat := Num (269855 # 10000);
     cp_lng := Num (758513 # 10000); cp_type := CULTURE;
     cp_timeSpentHours := Num 3; cp_startTime := "09:00";
     cp_endTime := "12:00"; cp_day := Num 2; cp_cost := Num 500;
     cp_notes := ""; cp_city := "Jaipur" |}.

Definition rickshawLeg : RouteSegment :=
  {| seg_fromId := "a"; seg_toId := "b"; seg_mode := AUTO;
     seg_distanceKm := Num 2; seg_durationHours := Num (1 # 2);
     seg_cost := JNum (Num 40); seg_safetyNote := "" |}.

Definition trainLeg : RouteSegment :=
  {| seg_fromId := "b"; seg_toId := "c"; seg_mode := TRAIN;
     seg_distanceKm := Num 240; seg_durationHours := Num (9 # 2);
     seg_cost := JNum (Num 350); seg_safetyNote := "Keep the tickets at hand" |}.

(** Two cities, three checkpoints, both segments edited by the user. *)
Definition goldenTriangle : Trip :=
  {| trip_id := "trip-1"; trip_name := "Nomad Expedition";
     checkpoints := [agraFort; tajMahal; amberFort];
     segments := [rickshawLeg; trainLeg];
     totalBudget := Num 0; startDate := None |}.


(** Four insertions and one manual move: Agra, Delhi, Agra, Jaipur. *)
Definition scatteredTrip : Trip :=
  fold_left (fun t op => @applyOp gridDistance op t)
    [ insertCheckpoint "a1" (Num 27) (Num 78) "Agra Fort" "Agra" None;
      insertCheckpoint "a2" (Num 27) (Num 78) "Taj Mahal" "Agra" None;
      insertCheckpoint "d1" (Num 28) (Num 77) "Red Fort" "Delhi" None;
      insertCheckpoint "j1" (Num 26) (Num 75) "Amber Fort" "Jaipur" None;
      moveCheckpoint "a2" 1 ]
    INITIAL_TRIP.

(** An evening that ends at midnight, and the night train out of it. *)
Definition nightBazaar : Checkpoint :=
  {| cp_id := "n"; cp_name := "Night Bazaar"; cp_lat := Num (269239 # 10000);
     cp_lng := Num (758267 # 10000); cp_type := SIGHTSEEING;
     cp_timeSpentHours := Num 2; cp_startTime := "22:00";
     cp_endTime := "00:00"; cp_day := Num 1; cp_cost := Num 0;
     cp_notes := ""; cp_city := "Jaipur" |}.

Definition lakePalace : Checkpoint :=
  {| cp_id := "l"; cp_name := "Lake Palace"; cp_lat := Num (245754 # 10000);
     cp_lng := Num (736800 # 10000); cp_type := SIGHTSEEING;
     cp_timeSpentHours := Num 2; cp_startTime := "09:00";
     cp_endTime := "11:00"; cp_day := Num 1; cp_cost := Num 0;
     cp_notes := ""; cp_city := "Udaipur" |}.

Definition nightLeg : RouteSegment :=
  {| seg_fromId := "n"; seg_toId := "l"; seg_mode := TRAIN;
     seg_distanceKm := Num 123; seg_durationHours := Num 4;
     seg_cost := JNum (Num 0); seg_safetyNote := "" |}.

Definition nightTrip : Trip :=
  {| trip_id := "trip-1"; trip_name := "Nomad Expedition";
     checkpoints := [nightBazaar; lakePalace];
     segments := [nightLeg];
     totalBudget := Num 0; startDate := None |}.

(** One trip, empty history. *)
Definition freshSession : AppState :=
  {| trips := [goldenTriangle]; activeTripId := "trip-1";
     past := []; future := [] |}.

(** The session the application starts with when the database holds no
    trip: a copy of [INITIAL_TRIP] under a fresh id. *)
Definition firstTrip : Trip :=
  {| trip_id := "trip-1"; trip_name := "My First Trip";
     checkpoints := checkpoints INITIAL_TRIP;
     segments := segments INITIAL_TRIP;
     totalBudget := totalBudget INITIAL_TRIP;
     startDate := startDate INITIAL_TRIP |}.

Definition firstSession : AppState :=
  {| trips := [firstTrip]; activeTripId := "trip-1";
     past := []; future := [] |}.

(** A second, empty trip, and a session that holds both. *)
Definition weekendTrip : Trip :=
  {| trip_id := "trip-2"; trip_name := "Adventure #2";
     checkpoints := []; segments := []; totalBudget := Num 0;
     startDate := None |}.

Definition twoTrips : AppState :=
  {| trips := [goldenTriangle; weekendTrip]; activeTripId := "trip-1";
     past := []; future := [] |}.

(** A place picked on the map, waiting for its hub. *)
Definition mehtabBagh : PendingAdd :=
  {| pa_lat := Num (271800 # 10000); pa_lng := Num (780420 # 10000);
     pa_name := "Mehtab Bagh"; pa_city := "Agra" |}.

(* ================================================================== *)
(** ** Rounding *)

Section Rounding.

Lemma Qfloor_unique (x : Q) (z : Z) :
  (inject_Z z <= x)%Q -> (x < inject_Z (z + 1))%Q -> Qfloor x = z.
Proof.
  intros H1 H2.
  pose proof (Qfloor_le x) as F1. pose proof (Qlt_floor x) as F2.
  assert (A : (inject_Z z < inject_Z (Qfloor x + 1))%Q) by lra.
  assert (B : (inject_Z (Qfloor x) < inject_Z (z + 1))%Q) by lra.
  rewrite <- Zlt_Qlt in A, B. lia.
Qed.

Lemma Math_round_nearest x :
  exists z, Math_round (Num x) = nz z /\
            (x - (1 # 2) < inject_Z z)%Q /\ (inject_Z z <= x + (1 # 2))%Q.
Proof.
  exists (Qfloor (x + (1 # 2))). split; [reflexivity|]. split.
  - pose proof (Qlt_floor (x + (1 # 2))) as H.
    rewrite inject_Z_plus in H. change (inject_Z 1) with 1%Q in H. lra.
  - apply Qfloor_le.
Qed.

(** Tenths of [x / 30]: rounding [x] to an integer first changes nothing. *)
Lemma tenths_of_rounded (x : Q) :
  Qfloor (x / 30 * 10 + (1 # 2)) =
  Qfloor (inject_Z (Qfloor (x + (1 # 2))) / 30 * 10 + (1 # 2)).
Proof.
  set (n := Qfloor (x + (1 # 2))).
  pose proof (Qfloor_le (x + (1 # 2))) as F1.
  pose proof (Qlt_floor (x + (1 # 2))) as F2.
  fold n in F1, F2.
  set (q := (n + 1) / 3).
  assert (D1 : 3 * q <= n + 1) by (apply Z.mul_div_le; lia).
  assert (D2 : n + 2 <= 3 * q + 3)
    by (pose proof (Z.mul_succ_div_gt (n + 1) 3 ltac:(lia)) as H;
        fold q in H; lia).
  rewrite Zle_Qle in D1, D2.
  rewrite inject_Z_plus, inject_Z_mult in D1.
  rewrite !inject_Z_plus, inject_Z_mult in D2.
  rewrite inject_Z_plus in F2.
  change (inject_Z 3) with 3%Q in *. change (inject_Z 2) with 2%Q in *.
  change (inject_Z 1) with 1%Q in *.
  assert (L : Qfloor (x / 30 * 10 + (1 # 2)) = q).
  { apply Qfloor_unique; rewrite ?inject_Z_plus;
      change (inject_Z 1) with 1%Q;
      unfold Qdiv; change (/ 30)%Q with (1 # 30)%Q; lra. }
  assert (R : Qfloor (inject_Z n / 30 * 10 + (1 # 2)) = q).
  { apply Qfloor_unique; rewrite ?inject_Z_plus;
      change (inject_Z 1) with 1%Q;
      unfold Qdiv; change (/ 30)%Q with (1 # 30)%Q; lra. }
  now rewrite L, R.
Qed.

Lemma duration_of_rounded (dist : number) :
  Math_round (nmul (ndiv dist (Num 30)) (Num 10)) =
  Math_round (nmul (ndiv (Math_round dist) (Num 30)) (Num 10)).
Proof.
  destruct dist as [x|]; [|reflexivity].
  change (Math_round (nmul (ndiv (Num x) (Num 30)) (Num 10)))
    with (Num (inject_Z (Qfloor (x / 30 * 10 + (1 # 2))))).
  now rewrite tenths_of_rounded.
Qed.

End Rounding.

Section SegmentSync.

Context {geo : Geodesy}.

Lemma syncSegments_length cps segs :
  List.length (syncSegments cps segs) = pred (List.length cps).
Proof.
  induction cps as [|a r IH]; [reflexivity|].
  destruct r as [|b r']; [reflexivity|].
  change (syncSegments (a :: b :: r') segs)
    with (keptOrSynth a b segs :: syncSegments (b :: r') segs).
  simpl List.length in *. now rewrite IH.
Qed.

Lemma syncSegments_nth cps segs : forall i a b,
  nth_error cps i = Some a ->
  nth_error cps (S i) = Some b ->
  nth_error (syncSegments cps segs) i = Some (keptOrSynth a b segs).
Proof.
  induction cps as [|x r IH]; intros i a b Ha Hb.
  - destruct i; discriminate.
  - destruct r as [|y r'].
    + destruct i; simpl in Hb; [discriminate|destruct i; discriminate].
    + change (syncSegments (x :: y :: r') segs)
        with (keptOrSynth x y segs :: syncSegments (y :: r') segs).
      destruct i as [|i].
      * simpl in Ha, Hb. now inversion Ha; inversion Hb.
      * simpl. apply IH; assumption.
Qed.

Lemma find_connects a b segs e :
  find (connects a b) segs = Some e ->
  In e segs /\ seg_fromId e = cp_id a /\ seg_toId e = cp_id b.
Proof.
  intros H. apply find_some in H. destruct H as [Hin Hc].
  unfold connects in Hc. apply andb_true_iff in Hc.
  destruct Hc as [H1 H2].
  apply String.eqb_eq in H1. apply String.eqb_eq in H2. auto.
Qed.

Lemma keptOrSynth_ends a b segs :
  seg_fromId (keptOrSynth a b segs) = cp_id a /\
  seg_toId (keptOrSynth a b segs) = cp_id b.
Proof.
  unfold keptOrSynth. destruct (find (connects a b) segs) eqn:E.
  - apply find_connects in E. tauto.
  - split; reflexivity.
Qed.

Lemma syncSegments_invariant t cps segs :
  segmentInvariant (withCheckpoints t cps (syncSegments cps segs)).
Proof.
  split; simpl.
  - rewrite syncSegments_length. lia.
  - intros i a b s Ha Hb Hs.
    rewrite (syncSegments_nth _ _ _ _ _ Ha Hb) in Hs.
    inversion Hs; subst. apply keptOrSynth_ends.
Qed.

(** Field edits never touch the identity of the edited object. *)
Lemma editForm_segment fields : forall from to f,
  exists f', fold_left editForm fields (SEGMENT from to f) = SEGMENT from to f' /\
             sf_fromId f' = sf_fromId f /\ sf_toId f' = sf_toId f.
Proof.
  induction fields as [|e r IH]; intros from to f; simpl.
  - exists f. auto.
  - destruct (IH from to (editSeg f e)) as [f' [H1 [H2 H3]]].
    exists f'. split; [exact H1|].
    rewrite H2, H3. destruct e; auto.
Qed.

Lemma editForm_pin fields : forall id f,
  exists f', fold_left editForm fields (PIN id f) = PIN id f' /\
             pf_id f' = pf_id f /\ pf_city f' = pf_city f /\
             pf_startTime f' = pf_startTime f.
Proof.
  induction fields as [|e r IH]; intros id f; simpl.
  - exists f. auto.
  - destruct (IH id (editPin f e)) as [f' [H1 [H2 [H3 H4]]]].
    exists f'. split; [exact H1|].
    rewrite H2, H3, H4. destruct e; auto.
Qed.

Lemma nth_error_mapiFrom {A B} (f : A -> Z -> B) (l : list A) : forall k i,
  nth_error (mapiFrom f l k) i =
  option_map (fun x => f x (k + Z.of_nat i)) (nth_error l i).
Proof.
  induction l as [|x r IH]; intros k i.
  - destruct i; reflexivity.
  - destruct i as [|i]; simpl.
    + now rewrite Z.add_0_r.
    + rewrite IH. destruct (nth_error r i); simpl; [|reflexivity].
      do 2 f_equal. lia.
Qed.

Lemma mapiFrom_length {A B} (f : A -> Z -> B) (l : list A) : forall k,
  List.length (mapiFrom f l k) = List.length l.
Proof.
  induction l as [|x r IH]; intros k; simpl; [reflexivity|now rewrite IH].
Qed.

(** The segment branches of [handleSave] keep the ids of every checkpoint
    and the endpoints of every segment. *)
Lemma handleSave_segment_invariant from to f t :
  sf_fromId f = from -> sf_toId f = to ->
  segmentInvariant t ->
  segmentInvariant (handleSaveUpdater (SEGMENT from to f) t).
Proof.
  intros Hf Ht [Hlen Hnth].
  assert (Hseg : forall (g : RouteSegment) i a b s,
            seg_fromId g = from -> seg_toId g = to ->
            nth_error (checkpoints t) i = Some a ->
            nth_error (checkpoints t) (S i) = Some b ->
            nth_error (map (fun s => if isSegment from to s then g else s)
                           (segments t)) i = Some s ->
            seg_fromId s = cp_id a /\ seg_toId s = cp_id b).
  { intros g i a b s Hg1 Hg2 Ha Hb Hs.
    rewrite nth_error_map in Hs.
    destruct (nth_error (segments t) i) as [s0|] eqn:E; [|discriminate].
    simpl in Hs. inversion Hs; subst s; clear Hs.
    destruct (Hnth _ _ _ _ Ha Hb E) as [H1 H2].
    destruct (isSegment from to s0) eqn:Eis; [|auto].
    unfold isSegment in Eis. apply andb_true_iff in Eis.
    destruct Eis as [E1 E2].
    apply String.eqb_eq in E1. apply String.eqb_eq in E2.
    rewrite Hg1, Hg2. split; congruence. }
  unfold handleSaveUpdater.
  destruct (nth_error (checkpoints t)
              (Z.to_nat (findIndex (hasId from) (checkpoints t))))
    as [fromCp|]; [destruct (nth_error (checkpoints t)
              (Z.to_nat (findIndex (hasId to) (checkpoints t))))
    as [toCp|]; [destruct (negb (findIndex (hasId from) (checkpoints t) =? -1) &&
                          negb (findIndex (hasId to) (checkpoints t) =? -1))%bool|]|].
  2-4: (split; cbn [checkpoints segments withCheckpoints withSegments];
        [now rewrite length_map|];
        intros i a b s Ha Hb Hs;
        apply (Hseg (sanitizedSegment f) i a b s); auto).
  split; cbn [checkpoints segments withCheckpoints withSegments].
  - unfold mapi. now rewrite length_map, mapiFrom_length.
  - intros i a b s Ha Hb Hs.
    unfold mapi in Ha, Hb. rewrite nth_error_mapiFrom in Ha, Hb.
    destruct (nth_error (checkpoints t) i) as [a0|] eqn:Ea; [|discriminate].
    destruct (nth_error (checkpoints t) (S i)) as [b0|] eqn:Eb; [|discriminate].
    simpl in Ha, Hb.
    assert (Ha' : cp_id a = cp_id a0).
    { inversion Ha. repeat match goal with
                             |- context [if ?c then _ else _] => destruct c
                           end; reflexivity. }
    assert (Hb' : cp_id b = cp_id b0).
    { inversion Hb. repeat match goal with
                             |- context [if ?c then _ else _] => destruct c
                           end; reflexivity. }
    rewrite Ha', Hb'.
    eapply (Hseg (segmentOfForm f _) i a0 b0 s); eauto.
Qed.

Lemma applyOp_regenerates op t :
  regenerates op = true -> segmentInvariant (applyOp op t).
Proof.
  destruct op; simpl; try discriminate; intros _;
    try apply syncSegments_invariant.
  destruct (editForm_pin fields (cp_id cp) (pinFormOf cp)) as [f' [H _]].
  unfold openPinEditor. rewrite H. simpl.
  apply syncSegments_invariant.
Qed.

(** An engine operation keeps the segment invariant of a trip that has
    it.  The operations that rebuild the segments on every path
    ([insertCheckpoint], [deleteCheckpoint], [deleteDestination],
    [updateCheckpointFields]) establish it from any trip. *)
Lemma applyOp_keeps_invariant (op : EngineOp) (t : Trip) :
  segmentInvariant t \/ regenerates op = true ->
  segmentInvariant (applyOp op t).
Proof.
  intros [Hinv|Hreg]; [|now apply applyOp_regenerates].
  destruct op; try (apply applyOp_regenerates; reflexivity); simpl.
  - unfold moveCheckpointUpdater.
    destruct (moveCheckpointGuard id delta t);
      [exact Hinv|apply syncSegments_invariant].
  - unfold moveDestinationUpdater.
    destruct (moveDestinationGuard cityName delta t);
      [exact Hinv|apply syncSegments_invariant].
  - destruct (editForm_segment fields (seg_fromId seg) (seg_toId seg)
                (segFormOf seg)) as [f' [H [H1 H2]]].
    simpl in H1, H2. unfold openSegmentEditor. rewrite H.
    apply handleSave_segment_invariant; assumption.
Qed.

(** Every trip the engine can hold has the segment invariant. *)
Lemma reachableTrip_invariant (t : Trip) :
  reachableTrip t -> segmentInvariant t.
Proof.
  induction 1 as [|t t' _ IH Hc Hs|op t _ IH].
  - split; [reflexivity|]. intros i a b s Ha. destruct i; discriminate.
  - unfold segmentInvariant in *. rewrite Hc, Hs. exact IH.
  - apply applyOp_keeps_invariant. now left.
Qed.

(** C1.  For every trip the engine can hold and every engine operation
    ([insertCheckpoint], [moveCheckpoint], [moveDestination],
    [deleteCheckpoint], [deleteDestination], [updateCheckpointFields],
    [updateSegmentFields]), the resulting trip has exactly
    [max(0, len(checkpoints) - 1)] segments, and segment [i] has
    [fromId = checkpoints[i].id] and [toId = checkpoints[i+1].id]. *)
Theorem segment_invariant_after_op (op : EngineOp) (t : Trip) :
  reachableTrip t -> segmentInvariant (applyOp op t).
Proof.
  intros H. apply applyOp_keeps_invariant. left.
  now apply reachableTrip_invariant.
Qed.

Lemma rebuilds_sync op t :
  rebuilds op t = true ->
  segments (applyOp op t) =
  syncSegments (checkpoints (applyOp op t)) (segments t).
Proof.
  destruct op; simpl; try discriminate; try reflexivity.
  - unfold moveCheckpointUpdater.
    destruct (moveCheckpointGuard id delta t); [discriminate|reflexivity].
  - unfold moveDestinationUpdater.
    destruct (moveDestinationGuard cityName delta t); [discriminate|reflexivity].
  - intros _.
    destruct (editForm_pin fields (cp_id cp) (pinFormOf cp)) as [f' [H _]].
    unfold openPinEditor. rewrite H. reflexivity.
Qed.

Lemma find_connects_some a b segs s :
  In s segs -> seg_fromId s = cp_id a -> seg_toId s = cp_id b ->
  exists kept, find (connects a b) segs = Some kept.
Proof.
  intros Hin H1 H2.
  destruct (find (connects a b) segs) as [k|] eqn:E; [now exists k|].
  apply (find_none _ _ E) in Hin. unfold connects in Hin.
  rewrite H1, H2, !String.eqb_refl in Hin. discriminate.
Qed.

(** C2.  When an operation rebuilds the segments and a segment with the
    endpoint ids of [a] and [b] existed before, then for [a], [b] adjacent
    in the result the segment at their position is a segment of the old
    list with those endpoints, kept as it was (mode, distance, duration,
    cost and safety note included): the first such segment, hence the
    pre-existing one whenever the old list has one segment for the pair. *)
Theorem existing_segment_kept (op : EngineOp) (t : Trip)
  (i : nat) (a b : Checkpoint) (s : RouteSegment) :
  rebuilds op t = true ->
  nth_error (checkpoints (applyOp op t)) i = Some a ->
  nth_error (checkpoints (applyOp op t)) (S i) = Some b ->
  In s (segments t) -> seg_fromId s = cp_id a -> seg_toId s = cp_id b ->
  exists kept,
    nth_error (segments (applyOp op t)) i = Some kept /\
    find (connects a b) (segments t) = Some kept /\
    In kept (segments t) /\
    seg_fromId kept = cp_id a /\ seg_toId kept = cp_id b /\
    ((forall r, In r (segments t) ->
                seg_fromId r = cp_id a -> seg_toId r = cp_id b -> r = s) ->
     kept = s).
Proof.
  intros Hre Ha Hb Hin H1 H2.
  destruct (find_connects_some a b _ s Hin H1 H2) as [kept Hk].
  exists kept.
  rewrite (rebuilds_sync _ _ Hre), (syncSegments_nth _ _ _ _ _ Ha Hb).
  unfold keptOrSynth. rewrite Hk.
  destruct (find_connects _ _ _ _ Hk) as [Hkin [Hk1 Hk2]].
  repeat split; auto.
Qed.

Lemma find_connects_none a b segs :
  (forall s, In s segs -> ~ (seg_fromId s = cp_id a /\ seg_toId s = cp_id b)) ->
  find (connects a b) segs = None.
Proof.
  intros H. destruct (find (connects a b) segs) as [k|] eqn:E; [|reflexivity].
  apply find_connects in E. destruct E as [Hin Hk]. now apply H in Hin.
Qed.



End SegmentSync.

(* ================================================================== *)
(** ** City grouping and day order *)

Section Sorting.

Variable A : Type.
Variable cmp : A -> A -> number.
Variable R : A -> A -> Prop.
Variable P : A -> Prop.

Hypothesis R_trans : forall x y z, R x y -> R y z -> R x z.
Hypothesis R_after : forall x y, positive (cmp x y) = true -> R y x.
Hypothesis R_before :
  forall x y, P x -> P y -> positive (cmp x y) = false -> R x y.

Lemma insertBy_perm x l : Permutation (insertBy cmp x l) (x :: l).
Proof.
  induction l as [|y r IH]; simpl; [reflexivity|].
  destruct (positive (cmp x y)); [|reflexivity].
  rewrite IH. apply perm_swap.
Qed.

Lemma sortBy_perm l : Permutation (sortBy cmp l) l.
Proof.
  induction l as [|x r IH]; simpl; [reflexivity|].
  rewrite insertBy_perm. now constructor.
Qed.

Lemma insertBy_sorted x l :
  P x -> Forall P l -> StronglySorted R l ->
  StronglySorted R (insertBy cmp x l).
Proof.
  intros Px. induction l as [|y r IH]; intros HP Hs; simpl.
  - repeat constructor.
  - inversion HP as [|? ? Py HPr]; subst.
    inversion Hs as [|? ? Hsr Hy]; subst.
    destruct (positive (cmp x y)) eqn:E.
    + constructor; [now apply IH|].
      eapply Permutation_Forall; [symmetry; apply insertBy_perm|].
      constructor; [now apply R_after|exact Hy].
    + constructor; [exact Hs|].
      assert (Rxy : R x y) by now apply R_before.
      constructor; [exact Rxy|].
      eapply Forall_impl; [|exact Hy]. intros z Hz. now apply R_trans with y.
Qed.

Lemma sortBy_sorted l : Forall P l -> StronglySorted R (sortBy cmp l).
Proof.
  induction l as [|x r IH]; intros HP; simpl; [constructor|].
  inversion HP; subst.
  apply insertBy_sorted; auto.
  eapply Permutation_Forall; [symmetry; apply sortBy_perm|assumption].
Qed.

Lemma StronglySorted_apart l1 a l2 b l3 :
  StronglySorted R (l1 ++ a :: l2 ++ b :: l3) -> R a b.
Proof.
  induction l1 as [|x r IH]; simpl; intros H.
  - inversion H as [|? ? _ Hall]; subst.
    rewrite Forall_forall in Hall. apply Hall.
    apply in_or_app. right. now left.
  - inversion H; subst. now apply IH.
Qed.

End Sorting.

Section Grouping.

Lemma string_leb_trans a : forall b c,
  String.leb a b = true -> String.leb b c = true -> String.leb a c = true.
Proof.
  unfold String.leb.
  induction a as [|x a IH]; intros [|y b] [|z c]; simpl; try congruence.
  unfold Ascii.compare.
  destruct (N.compare_spec (N_of_ascii x) (N_of_ascii y));
    destruct (N.compare_spec (N_of_ascii y) (N_of_ascii z));
    destruct (N.compare_spec (N_of_ascii x) (N_of_ascii z));
    try congruence; try lia; auto.
  apply IH.
Qed.

Lemma sor_empty s : sor s "" = s.
Proof. now destruct s. Qed.

Lemma dayStartLe_trans x y z : dayStartLe x y -> dayStartLe y z -> dayStartLe x z.
Proof.
  unfold dayStartLe.
  destruct (cp_day x) as [dx|]; [|contradiction].
  destruct (cp_day y) as [dy|]; [|contradiction].
  destruct (cp_day z) as [dz|]; [|contradiction].
  intros [H1|[H1 L1]] [H2|[H2 L2]].
  - left. lra.
  - left. lra.
  - left. lra.
  - right. split; [lra|]. eapply string_leb_trans; eauto.
Qed.

Lemma positive_Num q : positive (Num q) = true <-> (0 < q)%Q.
Proof.
  unfold positive, nlt. rewrite negb_true_iff.
  destruct (Qle_bool q 0) eqn:E.
  - apply Qle_bool_iff in E. split; [discriminate|lra].
  - split; [intros _|reflexivity].
    apply Qnot_le_lt. intro H. apply Qle_bool_iff in H. congruence.
Qed.

Lemma byDayThenStart_after x y :
  positive (byDayThenStart x y) = true -> dayStartLe y x.
Proof.
  unfold byDayThenStart, dayStartLe.
  destruct (cp_day x) as [dx|], (cp_day y) as [dy|]; simpl; try discriminate.
  destruct (Qeq_bool dx dy) eqn:E; simpl.
  - apply Qeq_bool_iff in E. rewrite !sor_empty. intros H. right.
    split; [lra|]. unfold localeCompare in H. unfold String.leb.
    rewrite String.compare_antisym.
    destruct (String.compare (cp_startTime x) (cp_startTime y));
      simpl; try reflexivity; discriminate.
  - intros H. apply positive_Num in H. left. lra.
Qed.

Lemma byDayThenStart_before x y :
  finiteDay x -> finiteDay y ->
  positive (byDayThenStart x y) = false -> dayStartLe x y.
Proof.
  intros [dx Hx] [dy Hy]. unfold byDayThenStart, dayStartLe.
  rewrite Hx, Hy. simpl.
  destruct (Qeq_bool dx dy) eqn:E; simpl.
  - apply Qeq_bool_iff in E. rewrite !sor_empty. intros H. right.
    split; [exact E|]. unfold localeCompare in H. unfold String.leb.
    destruct (String.compare (cp_startTime x) (cp_startTime y));
      try reflexivity; discriminate.
  - intros H. left.
    assert (Hn : ~ (0 < dx - dy)%Q).
    { intro Hp. apply positive_Num in Hp. congruence. }
    apply Qeq_bool_neq in E. 
    destruct (Qlt_le_dec dx dy) as [|Hle]; [assumption|].
    exfalso. destruct (Qle_lt_or_eq _ _ Hle) as [Hlt|Heq].
    + apply Hn. lra.
    + apply E. lra.
Qed.

(** A sorted group is ordered by [dayStartLe] at any two positions. *)
Lemma sortBy_dayStart l l1 a l2 b l3 :
  daysFinite l ->
  sortBy byDayThenStart l = l1 ++ a :: l2 ++ b :: l3 ->
  dayStartLe a b.
Proof.
  intros Hfin E.
  apply (StronglySorted_apart _ dayStartLe l1 a l2 b l3).
  rewrite <- E.
  apply (sortBy_sorted _ byDayThenStart dayStartLe finiteDay).
  - exact dayStartLe_trans.
  - exact byDayThenStart_after.
  - exact byDayThenStart_before.
  - exact Hfin.
Qed.

Lemma filter_filter_absorb {A} (p q : A -> bool) l :
  (forall y, p y = true -> q y = true) ->
  filter p (filter q l) = filter p l.
Proof.
  intros H. induction l as [|x r IH]; simpl; [reflexivity|].
  destruct (q x) eqn:Eq; simpl.
  - destruct (p x); now rewrite IH.
  - destruct (p x) eqn:Ep; [apply H in Ep; congruence|exact IH].
Qed.

Lemma filter_filter_and {A} (p q : A -> bool) l :
  filter p (filter q l) = filter (fun y => (p y && q y)%bool) l.
Proof.
  induction l as [|x r IH]; simpl; [reflexivity|].
  destruct (q x); simpl.
  - rewrite andb_true_r. destruct (p x); now rewrite IH.
  - rewrite andb_false_r. exact IH.
Qed.

Lemma fold_setAdd l : forall acc,
  fold_left setAdd l acc = acc ++ filter (notIn acc) (uniq l).
Proof.
  induction l as [|x r IH]; intros acc; simpl.
  - now rewrite app_nil_r.
  - rewrite IH. unfold setAdd.
    destruct (existsb (String.eqb x) acc) eqn:E.
    + unfold notIn at 2. rewrite E. simpl. f_equal.
      symmetry. apply filter_filter_absorb.
      intros y Hy. apply negb_true_iff. apply String.eqb_neq. intros ->.
      unfold notIn in Hy. rewrite E in Hy. discriminate.
    + unfold notIn at 2. rewrite E. simpl.
      rewrite <- app_assoc. simpl. do 2 f_equal.
      rewrite filter_filter_and. apply filter_ext. intros y.
      unfold notIn. rewrite existsb_app. simpl.
      rewrite orb_false_r, negb_orb. reflexivity.
Qed.

Lemma filter_true_id' {A} (p : A -> bool) l :
  (forall y, In y l -> p y = true) -> filter p l = l.
Proof.
  induction l as [|x r IH]; simpl; intros H; [reflexivity|].
  rewrite (H x) by now left. f_equal. apply IH. intros y Hy. apply H. now right.
Qed.

Lemma dedup_uniq l : dedup l = uniq l.
Proof.
  unfold dedup. rewrite fold_setAdd. simpl.
  now apply filter_true_id'.
Qed.

Lemma In_uniq l : forall y, In y (uniq l) <-> In y l.
Proof.
  induction l as [|x r IH]; intros y; simpl; [tauto|].
  rewrite filter_In, IH, negb_true_iff, String.eqb_neq.
  destruct (string_dec x y) as [->|Hn]; [tauto|].
  split; [tauto|]. intros [H|H]; [contradiction|]. right. split; congruence.
Qed.

Lemma NoDup_uniq l : NoDup (uniq l).
Proof.
  induction l as [|x r IH]; simpl; constructor.
  - rewrite filter_In, String.eqb_refl. simpl. intros [_ H]. discriminate.
  - now apply NoDup_filter.
Qed.

Lemma uniq_block k : forall l m,
  l <> [] -> Forall (eq k) l ->
  uniq (l ++ m) = k :: filter (fun y => negb (String.eqb y k)) (uniq m).
Proof.
  induction l as [|x r IH]; intros m Hne Hall; [congruence|].
  inversion Hall; subst. simpl. f_equal.
  destruct r as [|x' r'].
  - reflexivity.
  - rewrite IH; [|discriminate|assumption].
    simpl. rewrite String.eqb_refl. simpl.
    apply filter_filter_absorb. auto.
Qed.

(** Lists made of blocks, one per key. *)
Section Blocks.

Variable B : Type.
Variable key : B -> string.
Variable f : string -> list B.

Hypothesis f_key : forall k x, In x (f k) -> key x = k.

Lemma flat_map_keys ks x : In x (flat_map f ks) -> In (key x) ks.
Proof.
  rewrite in_flat_map. intros [k [Hk Hx]]. apply f_key in Hx. now subst.
Qed.

Lemma flat_map_block ks : forall l1 a l2 b l3,
  NoDup ks ->
  flat_map f ks = l1 ++ a :: l2 ++ b :: l3 ->
  key a = key b ->
  exists m1 m3, f (key a) = m1 ++ a :: l2 ++ b :: m3.
Proof.
  induction ks as [|k ks' IH]; intros l1 a l2 b l3 Hnd E Hab; simpl in E.
  - destruct l1; discriminate.
  - inversion Hnd as [|? ? Hk Hnd']; subst.
    apply app_eq_app in E. destruct E as [l [[E1 E2]|[E1 E2]]].
    + destruct l as [|a' l'].
      * simpl in E2. apply (IH [] a l2 b l3 Hnd'); auto.
      * simpl in E2. injection E2 as <- E2.
        assert (Ka : key a = k).
        { apply f_key. rewrite E1. apply in_or_app. right. now left. }
        assert (Hb : ~ In b (flat_map f ks')).
        { intros Hin. apply flat_map_keys in Hin.
          rewrite <- Hab, Ka in Hin. contradiction. }
        apply app_eq_app in E2. destruct E2 as [m [[E3 E4]|[E3 E4]]].
        -- exfalso. apply Hb. rewrite E4. apply in_or_app. right. now left.
        -- destruct m as [|b' m'].
           ++ simpl in E4. exfalso. apply Hb. rewrite <- E4. now left.
           ++ simpl in E4. injection E4 as <- E4. exists l1, m'.
              rewrite Ka, E1, E3. reflexivity.
    + eapply IH; eauto.
Qed.

(** The keys of the blocks, in order of first appearance, are the keys. *)
Lemma uniq_flat_map ks :
  NoDup ks -> (forall k, In k ks -> f k <> []) ->
  uniq (map key (flat_map f ks)) = ks.
Proof.
  induction ks as [|k ks' IH]; intros Hnd Hne; [reflexivity|].
  inversion Hnd as [|? ? Hk Hnd']; subst.
  simpl. rewrite map_app, (uniq_block k).
  - rewrite IH; auto.
    + f_equal. apply filter_true_id'. intros y Hy.
      apply negb_true_iff, String.eqb_neq. intros ->. contradiction.
    + intros k' Hk'. apply Hne. now right.
  - assert (H := Hne k (or_introl eq_refl)).
    destruct (f k); [congruence|discriminate].
  - rewrite Forall_forall. intros y Hy. apply in_map_iff in Hy.
    destruct Hy as [x [<- Hx]]. symmetry. now apply f_key.
Qed.

End Blocks.

Lemma sortBy_In {A} (cmp : A -> A -> number) l x :
  In x (sortBy cmp l) <-> In x l.
Proof.
  split; apply Permutation_in;
    [apply sortBy_perm|symmetry; apply sortBy_perm].
Qed.

Lemma cityBlock_city cps k x : In x (cityBlock cps k) -> cp_city x = k.
Proof.
  unfold cityBlock. rewrite sortBy_In, filter_In. intros [_ H].
  now apply String.eqb_eq in H.
Qed.

Lemma regroup_blocks cps :
  regroup cps = flat_map (cityBlock cps) (uniq (map cp_city cps)).
Proof. unfold regroup. now rewrite dedup_uniq. Qed.

Lemma regroup_contiguous cps : contiguousApart (regroup cps).
Proof.
  intros l1 a l2 b l3 E Hab c Hc. rewrite regroup_blocks in E.
  destruct (flat_map_block _ cp_city (cityBlock cps) (cityBlock_city cps)
              _ l1 a l2 b l3 (NoDup_uniq _) E Hab) as [m1 [m3 Hm]].
  apply (cityBlock_city cps). rewrite Hm.
  apply in_or_app. right. right. apply in_or_app. now left.
Qed.

Lemma regroup_sorted cps : daysFinite cps -> sortedApart (regroup cps).
Proof.
  intros Hfin l1 a l2 b l3 E Hab. rewrite regroup_blocks in E.
  destruct (flat_map_block _ cp_city (cityBlock cps) (cityBlock_city cps)
              _ l1 a l2 b l3 (NoDup_uniq _) E Hab) as [m1 [m3 Hm]].
  apply (sortBy_dayStart _ m1 a l2 b m3) in Hm; [exact Hm|].
  unfold daysFinite in *. rewrite Forall_forall in *.
  intros x Hx. apply filter_In in Hx. now apply Hfin.
Qed.

Lemma regroup_city_order cps :
  dedup (map cp_city (regroup cps)) = dedup (map cp_city cps).
Proof.
  rewrite regroup_blocks, !dedup_uniq.
  apply (uniq_flat_map _ cp_city (cityBlock cps) (cityBlock_city cps)).
  - apply NoDup_uniq.
  - intros k Hk. apply In_uniq, in_map_iff in Hk. destruct Hk as [x [Hx Hin]].
    assert (H : In x (cityBlock cps k)).
    { unfold cityBlock. rewrite sortBy_In, filter_In. split; [exact Hin|].
      unfold inCity. now apply String.eqb_eq. }
    intros E. rewrite E in H. contradiction.
Qed.

Lemma filter_complement_perm {A} (p : A -> bool) l :
  Permutation (filter p l ++ filter (fun x => negb (p x)) l) l.
Proof.
  induction l as [|x r IH]; simpl; [reflexivity|].
  destruct (p x); simpl.
  - now constructor.
  - rewrite <- Permutation_middle. now constructor.
Qed.

Lemma flat_map_agree {A B} (f g : A -> list B) l :
  (forall x, In x l -> f x = g x) -> flat_map f l = flat_map g l.
Proof.
  induction l as [|x r IH]; simpl; intros H; [reflexivity|].
  rewrite (H x) by now left. f_equal. apply IH. intros y Hy. apply H. now right.
Qed.

Lemma blocks_perm ks : forall l,
  NoDup ks -> (forall x, In x l -> In (cp_city x) ks) ->
  Permutation (flat_map (cityBlock l) ks) l.
Proof.
  induction ks as [|k ks' IH]; intros l Hnd Hin.
  - destruct l as [|x r]; [reflexivity|]. destruct (Hin x (or_introl eq_refl)).
  - inversion Hnd as [|? ? Hk Hnd']; subst. simpl.
    set (rest := filter (fun x => negb (inCity k x)) l).
    assert (E : flat_map (cityBlock l) ks' = flat_map (cityBlock rest) ks').
    { apply flat_map_agree. intros k' Hk'. unfold cityBlock, rest. f_equal.
      rewrite filter_filter_absorb; [reflexivity|].
      intros y Hy. unfold inCity in *. apply String.eqb_eq in Hy.
      apply negb_true_iff, String.eqb_neq. intros E. rewrite Hy in E.
      subst. contradiction. }
    rewrite E, IH; auto.
    + unfold cityBlock. rewrite sortBy_perm. apply filter_complement_perm.
    + intros x Hx. unfold rest in Hx. apply filter_In in Hx.
      destruct Hx as [Hx Hn]. destruct (Hin x Hx) as [Hkx|H]; [|exact H].
      unfold inCity in Hn. rewrite <- Hkx, String.eqb_refl in Hn. discriminate.
Qed.

Lemma regroup_perm cps : Permutation cps (regroup cps).
Proof.
  symmetry. rewrite regroup_blocks. apply blocks_perm.
  - apply NoDup_uniq.
  - intros x Hx. apply In_uniq. now apply in_map.
Qed.

(** Removing checkpoints keeps both properties. *)
Lemma filter_split {A} (p : A -> bool) l : forall m1 a m2,
  filter p l = m1 ++ a :: m2 ->
  exists l1 l2, l = l1 ++ a :: l2 /\ filter p l1 = m1 /\ filter p l2 = m2.
Proof.
  induction l as [|x r IH]; simpl; intros m1 a m2 E.
  - destruct m1; discriminate.
  - destruct (p x) eqn:Ep.
    + destruct m1 as [|y m1']; simpl in E; injection E as <- E.
      * exists [], r. auto.
      * destruct (IH _ _ _ E) as [l1 [l2 [H1 [H2 H3]]]].
        exists (x :: l1), l2. simpl. rewrite Ep. subst. auto.
    + destruct (IH _ _ _ E) as [l1 [l2 [H1 [H2 H3]]]].
      exists (x :: l1), l2. simpl. rewrite Ep. subst. auto.
Qed.

Lemma filter_split2 {A} (p : A -> bool) l m1 a m2 b m3 :
  filter p l = m1 ++ a :: m2 ++ b :: m3 ->
  exists l1 l2 l3, l = l1 ++ a :: l2 ++ b :: l3 /\ filter p l2 = m2.
Proof.
  intros E. destruct (filter_split p l _ _ _ E) as [l1 [r [H1 [_ H3]]]].
  destruct (filter_split p r _ _ _ H3) as [l2 [l3 [H4 [H5 _]]]].
  exists l1, l2, l3. subst. auto.
Qed.

Lemma filter_contiguous p cps :
  contiguousApart cps -> contiguousApart (filter p cps).
Proof.
  intros H m1 a m2 b m3 E Hab c Hc.
  destruct (filter_split2 p cps _ _ _ _ _ E) as [l1 [l2 [l3 [E' F]]]].
  apply (H _ _ _ _ _ E' Hab). rewrite <- F in Hc. now apply filter_In in Hc.
Qed.

Lemma filter_sorted p cps : sortedApart cps -> sortedApart (filter p cps).
Proof.
  intros H m1 a m2 b m3 E Hab.
  destruct (filter_split2 p cps _ _ _ _ _ E) as [l1 [l2 [l3 [E' F]]]].
  exact (H _ _ _ _ _ E' Hab).
Qed.

Lemma last_map_Some {A} (l : list A) c :
  last (map Some l) None = Some c -> In c l.
Proof.
  induction l as [|x r IH]; simpl; [discriminate|].
  destruct r as [|y r'].
  - simpl. intros E. injection E as <-. now left.
  - intros E. right. apply IH. exact E.
Qed.

Lemma nor_finite a q : exists x, nor a (Num q) = Num x.
Proof.
  unfold nor. destruct a as [x|]; simpl; [|now exists q].
  destruct (negb (Qeq_bool x 0)); eauto.
Qed.

(** Cutting a list at two indices. *)
Lemma nth_error_cut {A} (l : list A) i j a b :
  (i < j)%nat -> nth_error l i = Some a -> nth_error l j = Some b ->
  exists l1 l2 l3, l = l1 ++ a :: l2 ++ b :: l3 /\
                   List.length l1 = i /\ List.length l2 = (j - i - 1)%nat.
Proof.
  intros Hij Ha Hb.
  destruct (nth_error_split l i Ha) as [l1 [r [E Hl1]]]. subst l.
  rewrite nth_error_app2 in Hb by lia.
  replace (j - List.length l1)%nat with (S (j - i - 1)) in Hb by lia.
  simpl in Hb.
  destruct (nth_error_split r _ Hb) as [l2 [l3 [E Hl2]]]. subst r.
  exists l1, l2, l3. auto.
Qed.

Lemma nth_error_of_cut {A} (l1 : list A) a l2 b l3 :
  nth_error (l1 ++ a :: l2 ++ b :: l3) (List.length l1) = Some a /\
  nth_error (l1 ++ a :: l2 ++ b :: l3) (List.length l1 + 1 + List.length l2)
    = Some b /\
  forall c, In c l2 ->
    exists n, (n < List.length l2)%nat /\
      nth_error (l1 ++ a :: l2 ++ b :: l3) (List.length l1 + 1 + n) = Some c.
Proof.
  split; [|split].
  - rewrite nth_error_app2 by lia. now rewrite Nat.sub_diag.
  - rewrite nth_error_app2 by lia.
    replace (List.length l1 + 1 + List.length l2 - List.length l1)%nat
      with (S (List.length l2)) by lia.
    simpl. rewrite nth_error_app2 by lia. now rewrite Nat.sub_diag.
  - intros c Hc. apply In_nth_error in Hc. destruct Hc as [n Hn].
    assert (Hlt : (n < List.length l2)%nat)
      by (apply nth_error_Some; congruence).
    exists n. split; [exact Hlt|].
    rewrite nth_error_app2 by lia.
    replace (List.length l1 + 1 + n - List.length l1)%nat with (S n) by lia.
    simpl. now rewrite nth_error_app1.
Qed.

Lemma cityContiguous_apart cps : cityContiguous cps <-> contiguousApart cps.
Proof.
  split.
  - intros H l1 a l2 b l3 E Hab c Hc. subst cps.
    destruct (nth_error_of_cut l1 a l2 b l3) as [Ha [Hb Hmid]].
    destruct (Hmid c Hc) as [n [Hn Hcn]].
    apply (H _ _ _ a c b) with (4 := Hcn) (3 := Ha) (5 := Hb); auto; lia.
  - intros H i j k a c b Hij Hjk Ha Hc Hb Hab.
    destruct (Nat.eq_dec i j) as [->|Hne1]; [congruence|].
    destruct (Nat.eq_dec j k) as [->|Hne2]; [congruence|].
    destruct (nth_error_cut cps i k a b ltac:(lia) Ha Hb)
      as [l1 [l2 [l3 [E [Hl1 Hl2]]]]].
    apply (H _ _ _ _ _ E Hab). subst cps.
    rewrite nth_error_app2 in Hc by lia.
    replace (j - List.length l1)%nat with (S (j - i - 1)) in Hc by lia.
    simpl in Hc. rewrite nth_error_app1 in Hc by lia.
    now apply nth_error_In in Hc.
Qed.

Lemma groupSorted_apart cps : groupSorted cps <-> sortedApart cps.
Proof.
  split.
  - intros H l1 a l2 b l3 E Hab. subst cps.
    destruct (nth_error_of_cut l1 a l2 b l3) as [Ha [Hb _]].
    apply (H _ _ a b) with (2 := Ha) (3 := Hb); auto; lia.
  - intros H i j a b Hij Ha Hb Hab.
    destruct (nth_error_cut cps i j a b Hij Ha Hb) as [l1 [l2 [l3 [E _]]]].
    exact (H _ _ _ _ _ E Hab).
Qed.

End Grouping.

Section CityGroups.

Context {geo : Geodesy}.

Lemma resorts_regroup op t :
  resorts op = true ->
  checkpoints (applyOp op t) = regroup (stagedCheckpoints op t).
Proof.
  destruct op; simpl; try discriminate; intros _; [reflexivity|].
  destruct (editForm_pin fields (cp_id cp) (pinFormOf cp)) as [f' [H _]].
  unfold openPinEditor. rewrite H. reflexivity.
Qed.

Lemma staged_finite op t :
  daysFinite (checkpoints t) -> daysFinite (stagedCheckpoints op t).
Proof.
  intros Hfin. destruct op; simpl; try exact Hfin.
  - apply Forall_app. split; [exact Hfin|]. constructor; [|constructor].
    unfold finiteDay, newCheckpoint. simpl.
    destruct (last (map Some (checkpoints t)) None) as [c|] eqn:E.
    + apply last_map_Some in E. unfold daysFinite in Hfin.
      rewrite Forall_forall in Hfin. now apply Hfin.
    + now exists 1%Q.
  - destruct (fold_left editForm fields (openPinEditor cp)); [|exact Hfin].
    unfold daysFinite in *. rewrite Forall_forall in *.
    intros x Hx. apply in_map_iff in Hx. destruct Hx as [c [<- Hc]].
    destruct (hasId id c); [|now apply Hfin].
    unfold finiteDay. simpl. apply nor_finite.
Qed.

(** C4 (amended).  [insertCheckpoint] and [updateCheckpointFields] regroup
    the staged checkpoints: in the result the checkpoints of a city are
    contiguous, the cities keep their order of first appearance, no
    checkpoint is lost, and (day numbers not being NaN, start times being
    empty or two-digit "HH:MM" clock strings) each city group is
    non-decreasing by (day, start time).  [deleteCheckpoint] and
    [deleteDestination] only remove checkpoints: they keep contiguity and
    the order within groups of a trip that has them.  Nothing is stated
    for [moveCheckpoint] and [moveDestination]. *)
Theorem city_groups_after_op (op : EngineOp) (t : Trip) :
  (resorts op = true ->
     cityContiguous (checkpoints (applyOp op t)) /\
     (daysFinite (checkpoints t) -> clockStarts (stagedCheckpoints op t) ->
      groupSorted (checkpoints (applyOp op t))) /\
     Permutation (stagedCheckpoints op t) (checkpoints (applyOp op t)) /\
     dedup (map cp_city (checkpoints (applyOp op t))) =
       dedup (map cp_city (stagedCheckpoints op t))) /\
  (removes op = true ->
     (cityContiguous (checkpoints t) ->
      cityContiguous (checkpoints (applyOp op t))) /\
     (groupSorted (checkpoints t) ->
      groupSorted (checkpoints (applyOp op t)))).
Proof.
  split.
  - intros Hre. rewrite (resorts_regroup _ _ Hre).
    split; [apply cityContiguous_apart, regroup_contiguous|].
    split; [intros Hfin _; apply groupSorted_apart, regroup_sorted;
            now apply staged_finite|].
    split; [apply regroup_perm|apply regroup_city_order].
  - destruct op; simpl; try discriminate; intros _;
      (split; intros H;
       [apply cityContiguous_apart, filter_contiguous, cityContiguous_apart
       |apply groupSorted_apart, filter_sorted, groupSorted_apart]; exact H).
Qed.

End CityGroups.

(* ================================================================== *)
(** ** Time utilities *)

Section TimeUtilities.

Lemma numEqb_sound a b : numEqb a b = true -> numEq a b.
Proof.
  destruct a, b; simpl; try discriminate; auto. apply Qeq_bool_iff.
Qed.

Lemma hhmm_table :
  forallb (fun h => forallb (hhmmParses h) (seq 0 100)) (seq 0 100) = true.
Proof. vm_compute. reflexivity. Qed.

Lemma clock_table : forallb clockParses (seq 0 1440) = true.
Proof. vm_compute. reflexivity. Qed.

Lemma hhmm_parses h m :
  (h < 100)%nat -> (m < 100)%nat ->
  numEq (timeToMinutes (twoDigits (Z.of_nat h) ++ ":" ++
                        twoDigits (Z.of_nat m))%string)
        (nz (Z.of_nat h * 60 + Z.of_nat m)).
Proof.
  intros Hh Hm. apply numEqb_sound.
  pose proof hhmm_table as T. rewrite forallb_forall in T.
  specialize (T h). rewrite forallb_forall in T.
  apply T; apply in_seq; lia.
Qed.

Lemma clock_parses z :
  0 <= z < 1440 -> numEq (timeToMinutes (clockOf z)) (nz z).
Proof.
  intros Hz. apply numEqb_sound.
  pose proof clock_table as T. rewrite forallb_forall in T.
  specialize (T (Z.to_nat z)). unfold clockParses in T.
  rewrite Z2Nat.id in T by lia. apply T. apply in_seq. lia.
Qed.

Lemma Qfloor_div_1440 (m : Q) :
  (0 <= m)%Q -> Qfloor (m / 1440) = Qfloor m / 1440.
Proof.
  intros Hm. apply Qfloor_unique.
  - pose proof (Qfloor_le m) as F1.
    pose proof (Z.mul_div_le (Qfloor m) 1440 ltac:(lia)) as D.
    rewrite Zle_Qle in D. rewrite inject_Z_mult in D.
    unfold Qdiv. change (/ 1440)%Q with (1 # 1440)%Q.
    change (inject_Z 1440) with (1440 # 1)%Q in D. lra.
  - pose proof (Qlt_floor m) as F2.
    pose proof (Z.mul_succ_div_gt (Qfloor m) 1440 ltac:(lia)) as D.
    assert (D' : Qfloor m + 1 <= 1440 * (Qfloor m / 1440 + 1)) by lia.
    rewrite Zle_Qle in D'.
    rewrite ?inject_Z_mult, ?inject_Z_plus in D'.
    rewrite ?inject_Z_plus in F2. rewrite ?inject_Z_plus.
    unfold Qdiv. change (/ 1440)%Q with (1 # 1440)%Q.
    change (inject_Z 1440) with (1440 # 1)%Q in D'.
    change (inject_Z 1) with 1%Q in *. lra.
Qed.

(** The minute of the day that [minutesToTime] prints. *)
Lemma minutesToTime_nonneg (m : Q) :
  (0 <= m)%Q -> minutesToTime (Num m) = clockOf (Qfloor m mod 1440).
Proof.
  intros Hm. unfold minutesToTime, nrem.
  change (Qeq_bool (24 * 60)%Q 0) with false. cbn iota.
  change (24 * 60)%Q with (1440 # 1)%Q.
  assert (Ht : Qtrunc (m / (1440 # 1)) = Qfloor m / 1440).
  { unfold Qtrunc.
    assert (Hq : (0 <= m / (1440 # 1))%Q).
    { unfold Qdiv. change (/ (1440 # 1))%Q with (1 # 1440)%Q. lra. }
    apply Qle_bool_iff in Hq. rewrite Hq. now apply Qfloor_div_1440. }
  rewrite Ht. cbn [Math_floor]. rewrite Qfloor_Z.
  assert (Hr : Qfloor (m - (1440 # 1) * inject_Z (Qfloor m / 1440))
               = Qfloor m mod 1440).
  { pose proof (Qfloor_le m) as F1. pose proof (Qlt_floor m) as F2.
    pose proof (Z.div_mod (Qfloor m) 1440 ltac:(lia)) as D.
    assert (DQ : (inject_Z (Qfloor m) ==
                  (1440 # 1) * inject_Z (Qfloor m / 1440) +
                  inject_Z (Qfloor m mod 1440))%Q).
    { rewrite D at 1. rewrite inject_Z_plus, inject_Z_mult. reflexivity. }
    rewrite inject_Z_plus in F2. change (inject_Z 1) with 1%Q in F2.
    apply Qfloor_unique.
    - lra.
    - rewrite inject_Z_plus. change (inject_Z 1) with 1%Q. lra. }
  rewrite Hr. reflexivity.
Qed.

Lemma minutesToTime_parses (m : Q) :
  (0 <= m)%Q ->
  numEq (timeToMinutes (minutesToTime (Num m))) (nz (Qfloor m mod 1440)).
Proof.
  intros Hm. rewrite (minutesToTime_nonneg _ Hm).
  apply clock_parses. apply Z.mod_pos_bound. lia.
Qed.

Lemma Qfloor_nonneg (m : Q) : (0 <= m)%Q -> 0 <= Qfloor m.
Proof.
  intros Hm. pose proof (Qlt_floor m) as F.
  assert (H : (inject_Z 0 < inject_Z (Qfloor m + 1))%Q)
    by (change (inject_Z 0) with 0%Q; lra).
  rewrite <- Zlt_Qlt in H. lia.
Qed.

Lemma minutesToTime_wraps (m : Q) (k : Z) :
  (0 <= m)%Q -> 0 <= k ->
  minutesToTime (Num (m + (1440 # 1) * inject_Z k)) = minutesToTime (Num m).
Proof.
  intros Hm Hk.
  assert (HkQ : (0 <= inject_Z k)%Q)
    by (change 0%Q with (inject_Z 0); now rewrite <- Zle_Qle).
  rewrite !minutesToTime_nonneg by lra. f_equal.
  assert (E : Qfloor (m + (1440 # 1) * inject_Z k) = Qfloor m + k * 1440).
  { pose proof (Qfloor_le m) as F1. pose proof (Qlt_floor m) as F2.
    rewrite inject_Z_plus in F2. change (inject_Z 1) with 1%Q in F2.
    apply Qfloor_unique; rewrite ?inject_Z_plus, ?inject_Z_mult;
      change (inject_Z 1440) with (1440 # 1)%Q;
      change (inject_Z 1) with 1%Q; lra. }
  rewrite E. apply Z.mod_add. lia.
Qed.

(** C8 (amended).  A two-digit "HH:MM" string parses to [h * 60 + m] and
    the empty string to [0]; for two non-empty strings [calculateDuration]
    is [(end - start) / 60] rounded to one decimal, after adding 1440 to
    [end] when [end < start], and it is [0] as soon as one of the strings
    is empty; for a non-negative number of minutes, [minutesToTime] prints
    the minute of the day [floor(m) mod 1440], so whole days added to the
    minutes do not show in the string. *)
Theorem time_utilities :
  (forall h m, (h < 100)%nat -> (m < 100)%nat ->
     numEq (timeToMinutes (twoDigits (Z.of_nat h) ++ ":" ++
                           twoDigits (Z.of_nat m))%string)
           (nz (Z.of_nat h * 60 + Z.of_nat m))) /\
  timeToMinutes "" = Num 0 /\
  (forall start end_, start <> "" -> end_ <> "" ->
     calculateDuration start end_ = durationSpec start end_) /\
  (forall start end_, start = "" \/ end_ = "" ->
     calculateDuration start end_ = Num 0) /\
  (forall m, (0 <= m)%Q ->
     numEq (timeToMinutes (minutesToTime (Num m)))
           (nz (Qfloor m mod 1440))) /\
  (forall m k, (0 <= m)%Q -> 0 <= k ->
     minutesToTime (Num (m + (1440 # 1) * inject_Z k)) =
     minutesToTime (Num m)).
Proof.
  split; [exact hhmm_parses|].
  split; [reflexivity|].
  split.
  { intros start end_ Hs He. unfold calculateDuration.
    apply String.eqb_neq in Hs. apply String.eqb_neq in He.
    rewrite Hs, He. reflexivity. }
  split.
  { intros start end_ [ -> | -> ]; unfold calculateDuration; simpl.
    - reflexivity.
    - now rewrite orb_true_r. }
  split; [exact minutesToTime_parses|exact minutesToTime_wraps].
Qed.

End TimeUtilities.

(* ================================================================== *)
(** ** Rounding to doubles *)

Section Binary64.

















(** *** Arithmetic of doubles on binary fractions *)


Lemma numEq_sym a b : numEq a b -> numEq b a.
Proof. destruct a, b; simpl; auto. intros H. now symmetry. Qed.














End Binary64.

(* ================================================================== *)
(** ** The arrival cascade of a segment edit *)

Section Cascade.

Context {geo : Geodesy}.

Lemma minutesToTime_numEq a x :
  numEq a (Num x) -> (0 <= x)%Q ->
  minutesToTime a = clockOf (Qfloor x mod 1440).
Proof.
  destruct a as [y|]; simpl; [|contradiction]. intros E Hx.
  rewrite minutesToTime_nonneg by lra. now rewrite E.
Qed.


(** The cascade branch, once both endpoints are found. *)
Lemma handleSave_cascade from to f t iFrom iTo fromCp toCp :
  findIndex (hasId from) (checkpoints t) = Z.of_nat iFrom ->
  findIndex (hasId to) (checkpoints t) = Z.of_nat iTo ->
  nth_error (checkpoints t) iFrom = Some fromCp ->
  nth_error (checkpoints t) iTo = Some toCp ->
  let durationHours := nor (parseFloat (sf_durationHours f)) (Num 0) in
  let total := fadd (departure fromCp) (fmul durationHours (Num 60)) in
  let newDay := fadd (cp_day fromCp) (Math_floor (fdiv total (Num 1440))) in
  handleSaveUpdater (SEGMENT from to f) t =
  withCheckpoints t
    (mapi (fun cp idx =>
             if idx =? Z.of_nat iTo then
               setArrival cp newDay (minutesToTime total)
                 (minutesToTime
                    (fadd total (fmul (cp_timeSpentHours cp) (Num 60))))
             else if idx >? Z.of_nat iTo then
               setDay cp (fadd (cp_day cp) (fsub newDay (cp_day toCp)))
             else cp)
          (checkpoints t))
    (map (fun s => if isSegment from to s
                   then segmentOfForm f durationHours else s)
         (segments t)).
Proof.
  intros Hf Ht Hfrom Hto. unfold handleSaveUpdater.
  rewrite Hf, Ht, !Nat2Z.id, Hfrom, Hto.
  replace (negb (Z.of_nat iFrom =? -1) && negb (Z.of_nat iTo =? -1))%bool
    with true.
  - reflexivity.
  - symmetry. apply andb_true_iff.
    split; apply negb_true_iff, Z.eqb_neq; lia.
Qed.






End Cascade.

(* ================================================================== *)
(** ** Numeric coercion in the editors *)

Section Coercion.

Context {geo : Geodesy}.

(** The place editor coerces its three numeric fields. *)
Lemma sanitizedForm_defaults (f : PinForm) :
  (parseInt (pf_day f) = NaN -> cp_day (sanitizedForm f) = Num 1) /\
  (parseInt (pf_cost f) = NaN -> cp_cost (sanitizedForm f) = Num 0) /\
  (parseFloat (pf_timeSpentHours f) = NaN ->
   cp_timeSpentHours (sanitizedForm f) = Num 0).
Proof. repeat split; intros H; simpl; rewrite H; reflexivity. Qed.

(** So does the branch of the transit editor for a segment without
    endpoints. *)
Lemma sanitizedSegment_defaults (f : SegForm) :
  (parseInt (sf_cost f) = NaN -> seg_cost (sanitizedSegment f) = JNum (Num 0)) /\
  (parseFloat (sf_durationHours f) = NaN ->
   seg_durationHours (sanitizedSegment f) = Num 0).
Proof. repeat split; intros H; simpl; rewrite H; reflexivity. Qed.

(** The cascade branch coerces the duration and stores the cost of the
    form as it is. *)
Lemma segmentOfForm_cost (f : SegForm) (d : number) :
  seg_cost (segmentOfForm f d) = sf_cost f.
Proof. reflexivity. Qed.

Lemma cascade_segments from to f t iFrom iTo fromCp toCp :
  findIndex (hasId from) (checkpoints t) = Z.of_nat iFrom ->
  findIndex (hasId to) (checkpoints t) = Z.of_nat iTo ->
  nth_error (checkpoints t) iFrom = Some fromCp ->
  nth_error (checkpoints t) iTo = Some toCp ->
  segments (handleSaveUpdater (SEGMENT from to f) t) =
  map (fun s => if isSegment from to s
                then segmentOfForm f (nor (parseFloat (sf_durationHours f)) (Num 0))
                else s) (segments t).
Proof.
  intros Hf Ht Hfrom Hto.
  now rewrite (handleSave_cascade _ _ f t iFrom iTo fromCp toCp Hf Ht Hfrom Hto).
Qed.

End Coercion.

(* ================================================================== *)
(** ** No-op guards *)

Section Guards.

Context {geo : Geodesy}.

Lemma findIndexFrom_range {A} (p : A -> bool) l : forall k,
  findIndexFrom p l k = -1 \/
  (k <= findIndexFrom p l k < k + Z.of_nat (List.length l)).
Proof.
  induction l as [|x r IH]; intros k; simpl; [now left|].
  destruct (p x); [right; lia|].
  destruct (IH (k + 1)) as [H|H]; [now left|right; lia].
Qed.

Lemma moveCheckpoint_unknown id delta t :
  findIndex (hasId id) (checkpoints t) = -1 ->
  applyOp (moveCheckpoint id delta) t = t.
Proof.
  intros H. simpl. unfold moveCheckpointUpdater, moveCheckpointGuard.
  now rewrite H.
Qed.

Lemma moveCheckpoint_out_of_bounds id delta t :
  let newIdx := findIndex (hasId id) (checkpoints t) + delta in
  newIdx < 0 \/ Z.of_nat (List.length (checkpoints t)) <= newIdx ->
  applyOp (moveCheckpoint id delta) t = t.
Proof.
  intros newIdx H. simpl. unfold moveCheckpointUpdater, moveCheckpointGuard.
  fold newIdx. destruct H as [H|H].
  - apply Z.ltb_lt in H. rewrite H, orb_true_r. reflexivity.
  - apply Z.geb_le in H. rewrite H, orb_true_r. reflexivity.
Qed.

Lemma moveCheckpoint_first_up c rest t :
  checkpoints t = c :: rest ->
  applyOp (moveCheckpoint (cp_id c) (-1)) t = t.
Proof.
  intros E. apply moveCheckpoint_out_of_bounds. left.
  rewrite E. unfold findIndex, hasId. simpl. rewrite String.eqb_refl. lia.
Qed.

Lemma moveDestination_out_of_bounds cityName delta t :
  let cities := dedup (map cp_city (checkpoints t)) in
  let targetIdx := findIndex (String.eqb cityName) cities + delta in
  targetIdx < 0 \/ Z.of_nat (List.length cities) <= targetIdx ->
  applyOp (moveDestination cityName delta) t = t.
Proof.
  intros cities targetIdx H. simpl.
  unfold moveDestinationUpdater, moveDestinationGuard.
  fold cities. fold targetIdx. destruct H as [H|H].
  - apply Z.ltb_lt in H. rewrite H. reflexivity.
  - apply Z.geb_le in H. rewrite H, orb_true_r. reflexivity.
Qed.

Lemma findIndexFrom_absent {A} (p : A -> bool) l : forall k,
  (forall x, In x l -> p x = false) -> findIndexFrom p l k = -1.
Proof.
  induction l as [|x r IH]; intros k H; simpl; [reflexivity|].
  rewrite (H x) by now left. apply IH. intros y Hy. apply H. now right.
Qed.

(** What [moveDestination] does with a city that is not in the trip and
    delta [1]: the guard is passed and the first city loses its place in the
    city order, and with it all its checkpoints. *)
Lemma moveDestination_absent_city cityName t first rest :
  ~ In cityName (map cp_city (checkpoints t)) ->
  dedup (map cp_city (checkpoints t)) = first :: rest ->
  checkpoints (applyOp (moveDestination cityName 1) t) =
  flat_map (fun c => filter (inCity c) (checkpoints t)) rest.
Proof.
  intros Habs Hc. simpl.
  unfold moveDestinationUpdater, moveDestinationGuard. rewrite Hc.
  assert (Hi : findIndex (String.eqb cityName) (first :: rest) = -1).
  { apply findIndexFrom_absent. intros x Hx.
    apply String.eqb_neq. intros ->. apply Habs.
    rewrite <- Hc, dedup_uniq in Hx. exact (proj1 (In_uniq _ _) Hx). }
  rewrite Hi.
  replace (-1 + 1 <? 0) with false by reflexivity.
  replace (-1 + 1 >=? Z.of_nat (List.length (first :: rest))) with false
    by (symmetry; rewrite Z.geb_leb; apply Z.leb_gt; simpl List.length; lia).
  cbn [orb checkpoints withCheckpoints].
  unfold aswap, aget, aset. simpl.
  induction rest as [|c r IH]; simpl; [reflexivity|].
  f_equal.
  clear. induction r as [|c' r' IH']; simpl; [reflexivity|now rewrite IH'].
Qed.

Lemma deleteTrip_single id s :
  List.length (trips s) = 1%nat -> deleteTrip id s = s.
Proof. intros H. unfold deleteTrip. now rewrite H. Qed.

End Guards.

(* ================================================================== *)
(** ** History *)

Section History.

Context {geo : Geodesy}.

Lemma lastN_length {A} n (l : list A) : (List.length (lastN n l) <= n)%nat.
Proof. unfold lastN. rewrite length_skipn. lia. Qed.

Lemma lastN_full {A} (l : list A) :
  List.length l = 25%nat -> lastN 24 l = tl l.
Proof.
  intros H. unfold lastN. rewrite H. simpl. now destruct l.
Qed.

Lemma last_map_snoc {A} (l : list A) x :
  last (map Some (l ++ [x])) None = Some x.
Proof. rewrite map_app. simpl. apply last_last. Qed.

Lemma firstn_snoc {A} (l : list A) x :
  firstn (List.length (l ++ [x]) - 1) (l ++ [x]) = l.
Proof.
  rewrite length_app. simpl.
  replace (List.length l + 1 - 1)%nat with (List.length l + 0)%nat by lia.
  rewrite firstn_app_2. simpl. apply app_nil_r.
Qed.

(** Every accepted action goes through [recordAction] first. *)
Lemma perform_records a s :
  rejected a s = false ->
  past (perform a s) = lastN 24 (past s) ++ [trips s] /\
  future (perform a s) = [].
Proof.
  destruct a; simpl; intros Hr; try (repeat split; reflexivity).
  - unfold deleteTrip. rewrite Hr.
    destruct (String.eqb (activeTripId s) id); [|repeat split; reflexivity].
    destruct (filter _ (trips s)); repeat split; reflexivity.
  - unfold addCheckpoint. destruct (activeTrip s); [|discriminate].
    repeat split; reflexivity.
  - destruct activeEditor; [|discriminate]. repeat split; reflexivity.
Qed.

Lemma perform_rejected a s : rejected a s = true -> perform a s = s.
Proof.
  destruct a; simpl; try discriminate.
  - intros H. unfold deleteTrip. now rewrite H.
  - unfold addCheckpoint. now destruct (activeTrip s).
  - now destruct activeEditor.
Qed.

Lemma undo_after_push s1 X T0 :
  past s1 = X ++ [T0] ->
  undo s1 = {| trips := T0; activeTripId := activeTripId s1;
               past := X; future := trips s1 :: future s1 |}.
Proof.
  intros E. unfold undo. rewrite E, last_map_snoc, firstn_snoc. reflexivity.
Qed.

Lemma undo_bounded s : historyBounded s -> historyBounded (undo s).
Proof.
  destruct s as [ts act ps fs]. unfold historyBounded, undo. simpl.
  destruct ps as [|p ps' _] using rev_ind; [auto|].
  rewrite last_map_snoc. simpl. rewrite firstn_snoc, length_app. simpl. lia.
Qed.

Lemma redo_bounded s : historyBounded s -> historyBounded (redo s).
Proof.
  destruct s as [ts act ps fs]. unfold historyBounded, redo. simpl.
  destruct fs as [|n r]; [auto|]. simpl. rewrite length_app. simpl. lia.
Qed.

(** C10.  An action that is not turned away by a guard before any state
    change records the trip list it started from on the undo stack (after
    the last 24 entries) and empties the redo stack; [redo] right after it
    changes nothing. *)
Theorem mutation_records_and_clears_redo (a : Action) (s : AppState) :
  rejected a s = false ->
  past (perform a s) = lastN 24 (past s) ++ [trips s] /\
  future (perform a s) = [] /\
  redo (perform a s) = perform a s.
Proof.
  intros Hr. destruct (perform_records a s Hr) as [Hp Hf].
  repeat split; auto. unfold redo. now rewrite Hf.
Qed.

(** [undo] and [redo] never touch the id of the active trip. *)
Lemma undo_activeTripId s : activeTripId (undo s) = activeTripId s.
Proof. unfold undo. destruct (last (map Some (past s)) None); reflexivity. Qed.

Lemma redo_activeTripId s : activeTripId (redo s) = activeTripId s.
Proof. unfold redo. destruct (future s); reflexivity. Qed.

Lemma perform_keeps_active a s :
  keepsActiveTrip a s = true -> activeTripId (perform a s) = activeTripId s.
Proof.
  destruct a; simpl; try discriminate; try reflexivity.
  - intros H. unfold deleteTrip.
    destruct (List.length (trips s) =? 1)%nat; [reflexivity|].
    apply negb_true_iff in H. rewrite H. reflexivity.
  - intros _. unfold addCheckpoint. now destruct (activeTrip s).
  - intros _. unfold handleSave. now destruct activeEditor.
Qed.

(** C7 (amended).  After an accepted action, [undo] brings back the trip
    list the action started from; the id of the active trip is not part of
    the history and stays what the action made it, so that the active trip
    is the one the action started from unless the action was
    [createNewTrip] or [deleteTrip] of the active trip.  [redo] after that
    [undo] gives the state the action produced.  The undo stack never holds
    more than 25 snapshots after an action, and when it held 25 its oldest
    entry is dropped for the new one; [undo] and [redo] move snapshots
    between the two stacks, so a history with at most 25 snapshots keeps
    that bound. *)
Theorem undo_redo_round_trip (a : Action) (s : AppState) :
  rejected a s = false ->
  trips (undo (perform a s)) = trips s /\
  activeTripId (undo (perform a s)) = activeTripId (perform a s) /\
  (keepsActiveTrip a s = true ->
   activeTripId (undo (perform a s)) = activeTripId s /\
   activeTrip (undo (perform a s)) = activeTrip s) /\
  redo (undo (perform a s)) = perform a s /\
  (List.length (past (perform a s)) <= 25)%nat /\
  (List.length (past s) = 25%nat ->
   past (perform a s) = tl (past s) ++ [trips s]) /\
  (historyBounded s ->
   historyBounded (perform a s) /\ historyBounded (undo s) /\
   historyBounded (redo s)).
Proof.
  intros Hr. destruct (perform_records a s Hr) as [Hp Hf].
  pose proof (undo_after_push (perform a s) _ _ Hp) as Hu.
  split; [now rewrite Hu|].
  split; [apply undo_activeTripId|].
  split.
  { intros Hk.
    assert (Hid : activeTripId (undo (perform a s)) = activeTripId s)
      by (rewrite undo_activeTripId; now apply perform_keeps_active).
    split; [exact Hid|]. unfold activeTrip. rewrite Hid.
    replace (trips (undo (perform a s))) with (trips s)
      by (now rewrite Hu). reflexivity. }
  split.
  { rewrite Hu. unfold redo. cbn [future trips activeTripId past].
    rewrite <- Hp. destruct (perform a s) as [ts act ps fs].
    simpl in Hf. now subst fs. }
  split.
  { rewrite Hp, length_app. simpl.
    pose proof (lastN_length 24 (past s)). lia. }
  split.
  { intros H25. rewrite Hp. now rewrite (lastN_full _ H25). }
  intros Hb. unfold historyBounded in *. split; [|split].
  - rewrite Hp, Hf, length_app. simpl.
    pose proof (lastN_length 24 (past s)). lia.
  - now apply undo_bounded.
  - now apply redo_bounded.
Qed.

End History.

(* ================================================================== *)
(** ** The properties on the sample itineraries *)

Section Samples.

Lemma goldenTriangle_invariant : segmentInvariant goldenTriangle.
Proof.
  split; [reflexivity|].
  intros i a b s Ha Hb Hs.
  destruct i as [|[|i]]; simpl in Ha, Hb, Hs.
  - inversion Ha; inversion Hb; inversion Hs; subst. split; reflexivity.
  - inversion Ha; inversion Hb; inversion Hs; subst. split; reflexivity.
  - destruct i; discriminate.
Qed.

Lemma scatteredTrip_reachable : @reachableTrip gridDistance scatteredTrip.
Proof.
  unfold scatteredTrip. cbn [fold_left].
  repeat apply reach_op. apply reach_initial.
Qed.

Lemma segment_invariant_after_op_witness :
  @reachableTrip gridDistance scatteredTrip /\
  segmentInvariant
    (@applyOp gridDistance (moveCheckpoint "a1" (-1)) scatteredTrip).
Proof.
  split.
  - exact scatteredTrip_reachable.
  - apply (@segment_invariant_after_op gridDistance).
    exact scatteredTrip_reachable.
Defined.

Lemma existing_segment_kept_witness :
  exists kept,
    nth_error (segments (@applyOp gridDistance (deleteCheckpoint "c")
                                  goldenTriangle)) 0 = Some kept /\
    kept = rickshawLeg.
Proof.
  destruct (@existing_segment_kept gridDistance (deleteCheckpoint "c")
              goldenTriangle 0 agraFort tajMahal rickshawLeg)
    as [kept [H1 [_ [_ [_ [_ H6]]]]]];
    try reflexivity.
  - simpl. auto.
  - exists kept. split; [exact H1|]. apply H6.
    intros r [<-|[<-|[]]]; simpl; [reflexivity|discriminate].
Defined.


Lemma goldenTriangle_finite : daysFinite (checkpoints goldenTriangle).
Proof. repeat constructor; eexists; reflexivity. Qed.

Lemma city_groups_after_op_witness :
  let op := insertCheckpoint "d" (Num 27) (Num 78) "Mehtab Bagh" "Agra" None in
  let t := @applyOp gridDistance op goldenTriangle in
  (cityContiguous (checkpoints t) /\ groupSorted (checkpoints t)) /\
  (cityContiguous (checkpoints (@applyOp gridDistance (deleteCheckpoint "b") t)) /\
   groupSorted (checkpoints (@applyOp gridDistance (deleteCheckpoint "b") t))).
Proof.
  intros op t.
  destruct (@city_groups_after_op gridDistance op goldenTriangle) as [H _].
  destruct (H eq_refl) as [Hc [Hs _]].
  assert (Hclock : clockStarts (stagedCheckpoints op goldenTriangle)).
  { unfold clockStarts, op. simpl.
    apply Forall_cons; [right; exists 960; split; [lia|reflexivity]|].
    apply Forall_cons; [right; exists 1140; split; [lia|reflexivity]|].
    apply Forall_cons; [right; exists 540; split; [lia|reflexivity]|].
    apply Forall_cons; [right; exists 540; split; [lia|reflexivity]|].
    apply Forall_nil. }
  specialize (Hs goldenTriangle_finite Hclock).
  split; [split; assumption|].
  destruct (@city_groups_after_op gridDistance (deleteCheckpoint "b") t)
    as [_ H'].
  destruct (H' eq_refl) as [Hc' Hs'].
  split; [apply Hc'; exact Hc|apply Hs'; exact Hs].
Defined.

(** C4, as stated, fails: after a manual move, deleting another checkpoint
    leaves Agra, Delhi, Agra. *)
Lemma delete_leaves_city_scattered :
  ~ cityContiguous
      (checkpoints (@applyOp gridDistance (deleteCheckpoint "j1") scatteredTrip)).
Proof.
  intros H.
  assert (E : checkpoints (@applyOp gridDistance (deleteCheckpoint "j1")
                                    scatteredTrip) =
              [ stop "a1" "Agra Fort" 27 78 "Agra";
                stop "d1" "Red Fort" 28 77 "Delhi";
                stop "a2" "Taj Mahal" 27 78 "Agra" ])
    by (vm_compute; reflexivity).
  rewrite E in H.
  specialize (H 0%nat 1%nat 2%nat _ _ _ (le_S _ _ (le_n _)) (le_S _ _ (le_n _))
                eq_refl eq_refl eq_refl eq_refl).
  discriminate H.
Qed.


(** C6: the code at the failing input.  "Goa" is not a city of the trip and
    the guard lets the move through; the checkpoints of the first city,
    Agra, are gone afterwards. *)
Theorem moveDestination_absent_city_drops_first :
  ~ In "Goa" (map cp_city (checkpoints goldenTriangle)) /\
  moveDestinationGuard "Goa" 1 goldenTriangle = false /\
  checkpoints (@applyOp gridDistance (moveDestination "Goa" 1) goldenTriangle)
    = [amberFort] /\
  @applyOp gridDistance (moveDestination "Goa" 1) goldenTriangle
    <> goldenTriangle.
Proof.
  split; [simpl; intuition discriminate|].
  split; [reflexivity|].
  split; [vm_compute; reflexivity|].
  intros E. apply (f_equal (fun t => List.length (checkpoints t))) in E.
  vm_compute in E. discriminate.
Qed.

(** C5: the code at the failing input.  The transit leaves at 00:00 and
    its duration is set to 4.1 hours, 246 minutes: by the claim [to] starts
    at 04:06.  The code multiplies the doubles 4.1 and 60, gets
    245.99999999999997 and floors it: [to] starts at 04:05, and its end
    time, taken from the sum with the dwell of two hours, which rounds to
    366, is 06:06. *)
Theorem cascade_arrival_one_minute_short :
  let t' := @applyOp gridDistance
              (updateSegmentFields nightLeg [SetDurationHours "4.1"])
              nightTrip in
  numEq (savedDuration nightLeg [SetDurationHours "4.1"]) (Num (41 # 10)) /\
  departure nightBazaar = Num 0 /\
  fmul (Num (41 # 10)) (Num 60) = Num (8655355533852671 # 35184372088832) /\
  (245 < 8655355533852671 # 35184372088832 < 246)%Q /\
  map (fun c => (cp_startTime c, cp_endTime c, cp_day c)) (checkpoints t')
    = [("22:00", "00:00", Num 1); ("04:05", "06:06", Num 1)] /\
  minutesToTime (nadd (departure nightBazaar) (nmul (Num (41 # 10)) (Num 60)))
    = "04:06".
Proof.
  intros t'.
  split; [vm_compute; reflexivity|].
  split; [vm_compute; reflexivity|].
  split; [vm_compute; reflexivity|].
  split; [split; reflexivity|].
  split; vm_compute; reflexivity.
Qed.

(** C9: the code at the failing input.  With both endpoints in the trip,
    saving the transit form with the non-numeric cost "abc" stores the
    string as the cost of the segment, where the other branch stores 0. *)
Theorem cascade_branch_stores_raw_cost :
  parseInt (JStr "abc") = NaN /\
  map seg_cost
      (segments (@applyOp gridDistance
                   (updateSegmentFields rickshawLeg [SetCost "abc"])
                   goldenTriangle))
    = [JStr "abc"; JNum (Num 350)] /\
  seg_cost (sanitizedSegment
              (editSeg (segFormOf rickshawLeg) (SetCost "abc")))
    = JNum (Num 0).
Proof.
  split; [reflexivity|]. split; vm_compute; reflexivity.
Qed.

Lemma mutation_records_and_clears_redo_witness :
  rejected (HandleDeleteCheckpoint "c") freshSession = false /\
  past (@perform gridDistance (HandleDeleteCheckpoint "c") freshSession)
    = [[goldenTriangle]] /\
  future (@perform gridDistance (HandleDeleteCheckpoint "c") freshSession) = [] /\
  redo (@perform gridDistance (HandleDeleteCheckpoint "c") freshSession)
    = @perform gridDistance (HandleDeleteCheckpoint "c") freshSession.
Proof.
  split; [reflexivity|].
  exact (@mutation_records_and_clears_redo gridDistance
           (HandleDeleteCheckpoint "c") freshSession eq_refl).
Defined.

Lemma undo_redo_round_trip_witness :
  rejected (MoveCheckpoint "a" 1) freshSession = false /\
  trips (undo (@perform gridDistance (MoveCheckpoint "a" 1) freshSession))
    = [goldenTriangle] /\
  activeTrip (undo (@perform gridDistance (MoveCheckpoint "a" 1) freshSession))
    = Some goldenTriangle /\
  redo (undo (@perform gridDistance (MoveCheckpoint "a" 1) freshSession))
    = @perform gridDistance (MoveCheckpoint "a" 1) freshSession.
Proof.
  split; [reflexivity|].
  destruct (@undo_redo_round_trip gridDistance (MoveCheckpoint "a" 1)
              freshSession eq_refl) as [H1 [_ [H2 [H3 _]]]].
  destruct (H2 eq_refl) as [_ H4].
  split; [exact H1|]. split; [exact H4|exact H3].
Defined.

(** C7, as stated, fails: in the session the application starts with, a
    second trip is created and, being the active one, deleted again.
    [undo] brings both trips back, but the deletion made the first trip the
    active one and [undo] leaves it so: the trip on screen is not the one
    the deletion started from. *)
Lemma undo_leaves_switched_trip :
  let s := @perform gridDistance (CreateNewTrip "trip-2") firstSession in
  ~ (rejected (DeleteTrip "trip-2") s = false ->
     activeTrip (undo (@perform gridDistance (DeleteTrip "trip-2") s))
       = activeTrip s).
Proof.
  intros s H. pose proof (H eq_refl) as H'.
  assert (H1 : activeTrip s = Some weekendTrip) by reflexivity.
  assert (H2 : activeTrip (undo (@perform gridDistance (DeleteTrip "trip-2") s))
               = Some firstTrip) by reflexivity.
  rewrite H1, H2 in H'. discriminate.
Qed.

Lemma time_utilities_witness :
  numEq (timeToMinutes "09:30") (nz 570) /\
  numEq (timeToMinutes (minutesToTime (Num 1560))) (nz 120) /\
  calculateDuration "22:00" "01:30" = durationSpec "22:00" "01:30".
Proof.
  destruct time_utilities as [H1 [_ [H3 [_ [H5 _]]]]].
  split; [exact (H1 9%nat 30%nat ltac:(lia) ltac:(lia))|].
  split; [exact (H5 1560%Q ltac:(discriminate))|].
  apply H3; discriminate.
Defined.

(** C8, as stated, fails: with an empty start the duration is 0, not the
    ten hours from minute 0 to 10:00. *)
Lemma empty_start_has_no_duration :
  ~ numEq (calculateDuration "" "10:00") (durationSpec "" "10:00").
Proof.
  intros H. vm_compute in H. discriminate.
Qed.

End Samples.

(* ================================================================== *)
(** ** Further properties: clock strings and durations *)

Section ClockStrings.

Lemma clock_clockOf h m :
  0 <= h -> 0 <= m < 60 -> clock h m = clockOf (h * 60 + m).
Proof.
  intros Hh Hm. unfold clock, clockOf.
  replace ((h * 60 + m) / 60) with h
    by (rewrite Z.div_add_l by lia; rewrite Z.div_small by lia; lia).
  replace (Z.rem (h * 60 + m) 60) with m; [reflexivity|].
  rewrite Z.rem_mod_nonneg by lia.
  rewrite Z.add_comm, Z.mod_add by lia. now rewrite Z.mod_small.
Qed.

(** X1.  Parsing a clock string "HH:MM" with [h < 24] and [m < 60] and
    printing the minutes gives the string back. *)
Theorem clock_round_trip (h m : Z) :
  0 <= h < 24 -> 0 <= m < 60 ->
  minutesToTime (timeToMinutes (clock h m)) = clock h m.
Proof.
  intros Hh Hm. rewrite clock_clockOf by lia.
  assert (Hz : 0 <= h * 60 + m < 1440) by lia.
  pose proof (clock_parses _ Hz) as Hp.
  assert (Hq : (0 <= inject_Z (h * 60 + m))%Q).
  { change 0%Q with (inject_Z 0). rewrite <- Zle_Qle. lia. }
  rewrite (minutesToTime_numEq _ _ Hp Hq), Qfloor_Z.
  now rewrite Z.mod_small.
Qed.

Lemma clockOf_not_empty z : String.eqb (clockOf z) "" = false.
Proof.
  apply String.eqb_neq. unfold clockOf.
  destruct (twoDigits (z / 60)); discriminate.
Qed.

(** X2.  Between two clock strings, [calculateDuration] is, in tenths of an
    hour, [((b - a) mod 1440 + 3) / 6] for the minutes [a] and [b] of the
    day: the end counts as the next day when it is before the start, and
    the hours lie between 0 and 24. *)
Theorem duration_between_clocks (a b : Z) :
  0 <= a < 1440 -> 0 <= b < 1440 ->
  let tenths := ((b - a) mod 1440 + 3) / 6 in
  numEq (calculateDuration (clockOf a) (clockOf b))
        (Num (inject_Z tenths / 10)) /\
  0 <= tenths <= 240 /\
  (a = b -> tenths = 0).
Proof.
  intros Ha Hb tenths.
  assert (Hd : 0 <= (b - a) mod 1440 < 1440) by (apply Z.mod_pos_bound; lia).
  split; [|split].
  - unfold calculateDuration. rewrite !clockOf_not_empty. cbn [orb].
    pose proof (clock_parses _ Ha) as Pa. pose proof (clock_parses _ Hb) as Pb.
    destruct (timeToMinutes (clockOf a)) as [x|]; [|contradiction].
    destruct (timeToMinutes (clockOf b)) as [y|]; [|contradiction].
    simpl in Pa, Pb.
    assert (Hfl : forall e : Q, (e == inject_Z ((b - a) mod 1440))%Q ->
              Qfloor (e / 60 * 10 + (1 # 2)) = tenths).
    { intros e He.
      assert (D1 : 6 * tenths <= (b - a) mod 1440 + 3)
        by (apply Z.mul_div_le; lia).
      assert (D2 : (b - a) mod 1440 + 3 < 6 * tenths + 6)
        by (pose proof (Z.mul_succ_div_gt ((b - a) mod 1440 + 3) 6
                          ltac:(lia)) as H; fold tenths in H; lia).
      rewrite Zle_Qle in D1. rewrite Zlt_Qlt in D2.
      rewrite inject_Z_plus, inject_Z_mult in D1.
      rewrite !inject_Z_plus, inject_Z_mult in D2.
      change (inject_Z 6) with 6%Q in *. change (inject_Z 3) with 3%Q in *.
      apply Qfloor_unique; rewrite ?inject_Z_plus;
        change (inject_Z 1) with 1%Q;
        unfold Qdiv; change (/ 60)%Q with (1 # 60)%Q; lra. }
    unfold nlt. destruct (Qle_bool x y) eqn:E; cbn [negb].
    + apply Qle_bool_iff in E.
      assert (Hab : a <= b) by (rewrite Zle_Qle; lra).
      change (numEq (Num (inject_Z (Qfloor ((y - x) / 60 * 10 + (1 # 2))) / 10))
                    (Num (inject_Z tenths / 10))).
      rewrite Hfl; [reflexivity|].
      rewrite Z.mod_small by lia.
      unfold Zminus. rewrite inject_Z_plus, inject_Z_opp. lra.
    + assert (Hab : b < a).
      { rewrite Zlt_Qlt. apply Qnot_le_lt. intro H.
        assert (H' : (x <= y)%Q) by lra.
        apply Qle_bool_iff in H'. congruence. }
      change (numEq (Num (inject_Z (Qfloor ((y + 1440 - x) / 60 * 10 + (1 # 2)))
                          / 10))
                    (Num (inject_Z tenths / 10))).
      rewrite Hfl; [reflexivity|].
      replace ((b - a) mod 1440) with (b - a + 1440).
      * unfold Zminus. rewrite !inject_Z_plus, inject_Z_opp.
        change (inject_Z 1440) with 1440%Q. lra.
      * symmetry. rewrite <- (Z.mod_add _ 1 1440) by lia.
        apply Z.mod_small. lia.
  - unfold tenths. split.
    + apply Z.div_pos; lia.
    + assert ((((b - a) mod 1440 + 3) / 6) < 241)
        by (apply Z.div_lt_upper_bound; lia).
      lia.
  - intros ->. unfold tenths. now rewrite Z.sub_diag.
Qed.

End ClockStrings.

(* ================================================================== *)
(** ** Further properties: the history *)

Section HistoryRuns.

Context {geo : Geodesy}.

(** X3.  [undo] and [redo] are inverse to each other wherever they act:
    [redo] after [undo] gives the state back when there was something to
    undo, [undo] after [redo] when there was something to redo; with an
    empty stack each of them changes nothing. *)
Theorem undo_redo_inverse (s : AppState) :
  (past s <> [] -> redo (undo s) = s) /\
  (future s <> [] -> undo (redo s) = s) /\
  (past s = [] -> undo s = s) /\
  (future s = [] -> redo s = s).
Proof.
  destruct s as [ts act ps fs]. simpl. repeat split.
  - intros Hne. destruct ps as [|p ps' _] using rev_ind; [congruence|].
    unfold undo. cbn [past]. rewrite last_map_snoc. cbn [trips future activeTripId].
    rewrite firstn_snoc. reflexivity.
  - intros Hne. destruct fs as [|n r]; [congruence|].
    unfold redo. cbn [future trips past activeTripId].
    unfold undo. cbn [past]. rewrite last_map_snoc.
    cbn [trips future activeTripId]. now rewrite firstn_snoc.
  - intros ->. reflexivity.
  - intros ->. reflexivity.
Qed.

Lemma perform_bounded a s : historyBounded s -> historyBounded (perform a s).
Proof.
  intros Hb. destruct (rejected a s) eqn:Hr.
  - now rewrite perform_rejected.
  - destruct (perform_records a s Hr) as [Hp Hf]. unfold historyBounded.
    rewrite Hp, Hf, length_app. simpl.
    pose proof (lastN_length 24 (past s)). lia.
Qed.

Lemma step_bounded e s : historyBounded s -> historyBounded (step e s).
Proof.
  destruct e; simpl;
    [apply perform_bounded|apply undo_bounded|apply redo_bounded].
Qed.

(** X4.  Along any sequence of actions, undos and redos, a history that
    holds at most 25 snapshots in its two stacks keeps doing so; neither
    stack ever holds more than 25. *)
Theorem history_bounded_along_run (es : list Event) (s : AppState) :
  historyBounded s ->
  historyBounded (run es s) /\
  (List.length (past (run es s)) <= 25)%nat /\
  (List.length (future (run es s)) <= 25)%nat.
Proof.
  intros Hb.
  assert (H : historyBounded (run es s)).
  { unfold run. revert s Hb. induction es as [|e r IH]; intros s Hb; simpl.
    - exact Hb.
    - apply IH. now apply step_bounded. }
  split; [exact H|]. unfold historyBounded in H. lia.
Qed.

End HistoryRuns.

(* ================================================================== *)
(** ** Further properties: the trip list *)

Section TripList.

Context {geo : Geodesy}.

Lemma perform_updater a s u :
  updaterOf a s = Some u -> perform a s = updateActiveTrip u s.
Proof.
  destruct a; simpl; try discriminate;
    try (intros E; injection E as <-; reflexivity).
  - unfold addCheckpoint. destruct (activeTrip s); [|discriminate].
    intros E. injection E as <-. reflexivity.
  - destruct activeEditor; [|discriminate].
    intros E. injection E as <-. reflexivity.
Qed.

Lemma perform_no_updater a s :
  editsActiveTrip a = true -> updaterOf a s = None -> perform a s = s.
Proof.
  destruct a; simpl; try discriminate.
  - intros _. unfold addCheckpoint. now destruct (activeTrip s).
  - intros _. now destruct activeEditor.
Qed.

Lemma handleSaveUpdater_id ed t : trip_id (handleSaveUpdater ed t) = trip_id t.
Proof.
  destruct ed; simpl; [reflexivity|].
  repeat match goal with
         | |- context [match ?c with _ => _ end] => destruct c
         end; reflexivity.
Qed.

Lemma updater_keeps_id a s u t :
  updaterOf a s = Some u -> trip_id (u t) = trip_id t.
Proof.
  destruct a; simpl; try discriminate.
  - destruct (activeTrip s); [|discriminate].
    intros E. injection E as <-. reflexivity.
  - intros E. injection E as <-. unfold moveCheckpointUpdater.
    now destruct (moveCheckpointGuard id delta t).
  - intros E. injection E as <-. unfold moveDestinationUpdater.
    now destruct (moveDestinationGuard cityName delta t).
  - destruct activeEditor; [|discriminate].
    intros E. injection E as <-. apply handleSaveUpdater_id.
  - intros E. injection E as <-. reflexivity.
  - intros E. injection E as <-. reflexivity.
  - intros E. injection E as <-. reflexivity.
Qed.

(** X5.  An action that goes through [updateActiveTrip] never adds,
    removes or reorders trips, never changes a trip id or the active id,
    and leaves every trip whose id is not the active id exactly as it
    was. *)
Theorem edits_touch_only_active_trip (a : Action) (s : AppState) :
  editsActiveTrip a = true ->
  map trip_id (trips (perform a s)) = map trip_id (trips s) /\
  activeTripId (perform a s) = activeTripId s /\
  forall i t, nth_error (trips s) i = Some t ->
              trip_id t <> activeTripId s ->
              nth_error (trips (perform a s)) i = Some t.
Proof.
  intros Hed. destruct (updaterOf a s) as [u|] eqn:Hu.
  - rewrite (perform_updater _ _ _ Hu). unfold updateActiveTrip. simpl.
    split; [|split; [reflexivity|]].
    + rewrite map_map. apply map_ext. intros t.
      destruct (String.eqb (trip_id t) (activeTripId s)); [|reflexivity].
      apply (updater_keeps_id _ _ _ _ Hu).
    + intros i t Hi Hne. rewrite nth_error_map, Hi. simpl.
      apply String.eqb_neq in Hne. now rewrite Hne.
  - rewrite (perform_no_updater _ _ Hed Hu). auto.
Qed.

Lemma map_if_never {A} (p : A -> bool) (f : A -> A) l :
  (forall x, In x l -> p x = false) ->
  map (fun x => if p x then f x else x) l = l.
Proof.
  induction l as [|x r IH]; simpl; intros H; [reflexivity|].
  rewrite (H x) by now left. f_equal. apply IH. intros y Hy. apply H. now right.
Qed.

Lemma find_never {A} (p : A -> bool) l :
  (forall x, In x l -> p x = false) -> find p l = None.
Proof.
  induction l as [|x r IH]; simpl; intros H; [reflexivity|].
  rewrite (H x) by now left. apply IH. intros y Hy. apply H. now right.
Qed.

Lemma createNewTrip_past newId s :
  past (createNewTrip newId s) = lastN 24 (past s) ++ [trips s].
Proof. reflexivity. Qed.

(** X6.  After [createNewTrip] with an id that no trip has, [undo] brings
    the old trip list back but leaves the active id on the trip that is
    gone: the first trip is shown as the active one, and no action that
    goes through [updateActiveTrip] changes any trip. *)
Theorem undone_creation_blocks_edits (newId : string) (a : Action)
  (s : AppState) :
  (forall t, In t (trips s) -> trip_id t <> newId) ->
  editsActiveTrip a = true ->
  let s' := undo (createNewTrip newId s) in
  trips s' = trips s /\
  activeTripId s' = newId /\
  activeTrip s' = hd_error (trips s) /\
  trips (perform a s') = trips s.
Proof.
  intros Hfresh Hed s'.
  assert (Hs' : s' = {| trips := trips s; activeTripId := newId;
                        past := lastN 24 (past s);
                        future := trips (createNewTrip newId s) ::
                                  future (createNewTrip newId s) |}).
  { unfold s'. now rewrite (undo_after_push _ _ _ (createNewTrip_past newId s)). }
  assert (Hno : forall t, In t (trips s) ->
                          String.eqb (trip_id t) newId = false).
  { intros t Ht. apply String.eqb_neq. now apply Hfresh. }
  split; [now rewrite Hs'|]. split; [now rewrite Hs'|]. split.
  - rewrite Hs'. unfold activeTrip. simpl. now rewrite find_never.
  - destruct (updaterOf a s') as [u|] eqn:Hu.
    + rewrite (perform_updater _ _ _ Hu). unfold updateActiveTrip.
      rewrite Hs'. simpl. now apply map_if_never.
    + rewrite (perform_no_updater _ _ Hed Hu). now rewrite Hs'.
Qed.

(** X7.  Creating a trip with a fresh id and deleting it again gives the
    old trip list back, with the first trip as the active one. *)
Theorem create_then_delete (newId : string) (s : AppState) (t0 : Trip)
  (rest : list Trip) :
  trips s = t0 :: rest ->
  (forall t, In t (trips s) -> trip_id t <> newId) ->
  trips (deleteTrip newId (createNewTrip newId s)) = trips s /\
  activeTripId (deleteTrip newId (createNewTrip newId s)) = trip_id t0 /\
  activeTrip (deleteTrip newId (createNewTrip newId s)) = Some t0.
Proof.
  intros Ht Hfresh.
  assert (Hf : filter (fun t => negb (String.eqb (trip_id t) newId))
                 (trips (createNewTrip newId s)) = trips s).
  { simpl. rewrite filter_app. simpl. rewrite String.eqb_refl. simpl.
    rewrite app_nil_r. apply filter_true_id'. intros t Hin.
    apply negb_true_iff, String.eqb_neq. now apply Hfresh. }
  assert (Hd : deleteTrip newId (createNewTrip newId s) =
               setActiveTripId (trip_id t0)
                 (setTrips (trips s)
                    (recordAction (trips (createNewTrip newId s))
                                  (createNewTrip newId s)))).
  { unfold deleteTrip. rewrite Hf.
    replace (List.length (trips (createNewTrip newId s)) =? 1)%nat with false.
    - simpl. rewrite String.eqb_refl. now rewrite Ht.
    - symmetry. apply Nat.eqb_neq. simpl. rewrite Ht, length_app. simpl. lia. }
  rewrite Hd. split; [reflexivity|]. split; [reflexivity|].
  unfold activeTrip. simpl. rewrite Ht. simpl. now rewrite String.eqb_refl.
Qed.

Lemma filter_two_ids (id : string) (l : list Trip) :
  NoDup (map trip_id l) -> (2 <= List.length l)%nat ->
  filter (fun t => negb (String.eqb (trip_id t) id)) l <> [].
Proof.
  destruct l as [|a [|b r]]; simpl; try lia. intros Hnd _.
  inversion Hnd as [|? ? Hnotin _]; subst.
  destruct (String.eqb (trip_id a) id) eqn:Ea; simpl; [|discriminate].
  destruct (String.eqb (trip_id b) id) eqn:Eb; simpl; [|discriminate].
  apply String.eqb_eq in Ea. apply String.eqb_eq in Eb.
  exfalso. apply Hnotin. left. congruence.
Qed.

(** X8.  With distinct trip ids, [deleteTrip] never leaves the trip list
    empty, and when it removes the active trip the active id moves to the
    first trip that is left. *)
Theorem deleteTrip_keeps_a_trip (id : string) (s : AppState) :
  NoDup (map trip_id (trips s)) -> trips s <> [] ->
  trips (deleteTrip id s) <> [] /\
  (activeTripId s = id -> List.length (trips s) <> 1%nat ->
   exists t0, hd_error (trips (deleteTrip id s)) = Some t0 /\
              activeTripId (deleteTrip id s) = trip_id t0 /\
              trip_id t0 <> id).
Proof.
  intros Hnd Hne. unfold deleteTrip.
  destruct (List.length (trips s) =? 1)%nat eqn:E1.
  - split; [exact Hne|]. intros _ H. apply Nat.eqb_eq in E1. contradiction.
  - apply Nat.eqb_neq in E1.
    assert (H2 : (2 <= List.length (trips s))%nat).
    { destruct (trips s) as [|a [|b r]]; simpl in *; try congruence; lia. }
    pose proof (filter_two_ids id _ Hnd H2) as Hf.
    destruct (filter (fun t => negb (String.eqb (trip_id t) id)) (trips s))
      as [|t0 r0] eqn:Ef; [congruence|].
    assert (Ht0 : trip_id t0 <> id).
    { assert (Hin : In t0 (filter (fun t => negb (String.eqb (trip_id t) id))
                                  (trips s))) by (rewrite Ef; now left).
      apply filter_In in Hin. destruct Hin as [_ Hin].
      now apply negb_true_iff, String.eqb_neq in Hin. }
    split.
    + destruct (String.eqb (activeTripId s) id); simpl; discriminate.
    + intros Hact _. apply String.eqb_eq in Hact. rewrite Hact.
      exists t0. simpl. auto.
Qed.

End TripList.

(* ================================================================== *)
(** ** Further properties: the segment invariant over a whole session *)

Section StateInvariant.

Context {geo : Geodesy}.

Lemma updater_invariant a s u t :
  updaterOf a s = Some u -> eventConsistent (Do a) ->
  segmentInvariant t -> segmentInvariant (u t).
Proof.
  destruct a; simpl; try discriminate.
  - destruct (activeTrip s); [|discriminate].
    intros E _ _. injection E as <-. apply syncSegments_invariant.
  - intros E _ H. injection E as <-. unfold moveCheckpointUpdater.
    destruct (moveCheckpointGuard id delta t);
      [exact H|apply syncSegments_invariant].
  - intros E _ H. injection E as <-. unfold moveDestinationUpdater.
    destruct (moveDestinationGuard cityName delta t);
      [exact H|apply syncSegments_invariant].
  - destruct activeEditor as [ed|]; [|discriminate].
    intros E Hc H. injection E as <-. destruct ed as [id f|from to f].
    + apply syncSegments_invariant.
    + destruct Hc. now apply handleSave_segment_invariant.
  - intros E _ _. injection E as <-. apply syncSegments_invariant.
  - intros E _ _. injection E as <-. apply syncSegments_invariant.
  - intros E _ H. injection E as <-. exact H.
Qed.

Lemma In_lastN {A} n (l : list A) x : In x (lastN n l) -> In x l.
Proof.
  unfold lastN. intros H.
  rewrite <- (firstn_skipn (List.length l - n) l). apply in_or_app. now right.
Qed.

Lemma In_firstn' {A} n (l : list A) x : In x (firstn n l) -> In x l.
Proof.
  intros H. rewrite <- (firstn_skipn n l). apply in_or_app. now left.
Qed.

Section Closure.

Variable P : Trip -> Prop.

Lemma allTrips_Forall s :
  Forall P (allTrips s) <->
  Forall P (trips s) /\ Forall (Forall P) (past s) /\
  Forall (Forall P) (future s).
Proof.
  unfold allTrips. rewrite !Forall_app, !Forall_concat. tauto.
Qed.

Lemma recorded_Forall s s' :
  past s' = lastN 24 (past s) ++ [trips s] -> future s' = [] ->
  Forall P (trips s') ->
  Forall P (allTrips s) -> Forall P (allTrips s').
Proof.
  rewrite !allTrips_Forall. intros Hp Hf Ht [H1 [H2 _]].
  rewrite Hp, Hf. split; [exact Ht|]. split; [|constructor].
  apply Forall_app. split; [|now repeat constructor].
  rewrite Forall_forall in *. intros x Hx. apply H2. now apply In_lastN in Hx.
Qed.

Lemma undo_Forall s : Forall P (allTrips s) -> Forall P (allTrips (undo s)).
Proof.
  unfold undo. destruct (last (map Some (past s)) None) as [previous|] eqn:E;
    [|auto].
  apply last_map_Some in E. rewrite !allTrips_Forall. simpl.
  intros [H1 [H2 H3]]. split; [|split].
  - rewrite Forall_forall in H2. now apply H2.
  - rewrite Forall_forall in *. intros x Hx. apply H2.
    now apply In_firstn' in Hx.
  - now constructor.
Qed.

Lemma redo_Forall s : Forall P (allTrips s) -> Forall P (allTrips (redo s)).
Proof.
  unfold redo. destruct (future s) as [|next rest] eqn:E; [auto|].
  rewrite !allTrips_Forall, E. simpl.
  intros [H1 [H2 H3]]. inversion H3; subst. split; [|split]; auto.
  apply Forall_app. split; [exact H2|now repeat constructor].
Qed.

Lemma updateActiveTrip_Forall u s :
  (forall t, P t -> P (u t)) ->
  Forall P (allTrips s) -> Forall P (allTrips (updateActiveTrip u s)).
Proof.
  intros Hu H. apply (recorded_Forall s); try reflexivity; [|exact H].
  apply allTrips_Forall in H. destruct H as [H _]. simpl.
  rewrite Forall_forall in *. intros x Hx. apply in_map_iff in Hx.
  destruct Hx as [t [<- Ht]].
  destruct (String.eqb (trip_id t) (activeTripId s)); auto.
Qed.

End Closure.

Lemma perform_invariant a s :
  eventConsistent (Do a) ->
  Forall segmentInvariant (allTrips s) ->
  Forall segmentInvariant (allTrips (perform a s)).
Proof.
  intros Hc H. destruct (updaterOf a s) as [u|] eqn:Hu.
  - rewrite (perform_updater _ _ _ Hu). apply updateActiveTrip_Forall; auto.
    intros t. now apply (updater_invariant a s).
  - destruct (editsActiveTrip a) eqn:Hed;
      [now rewrite (perform_no_updater _ _ Hed Hu)|].
    pose proof (proj1 (allTrips_Forall _ _) H) as [Ht _].
    destruct a; try discriminate; simpl.
    + apply (recorded_Forall _ s); try reflexivity; [|exact H]. simpl.
      apply Forall_app. split; [exact Ht|]. constructor; [|constructor].
      split; simpl; [reflexivity|]. intros i. destruct i; discriminate.
    + unfold deleteTrip. destruct (List.length (trips s) =? 1)%nat; [exact H|].
      assert (Hf : Forall segmentInvariant
                     (filter (fun t => negb (String.eqb (trip_id t) id))
                             (trips s))).
      { rewrite Forall_forall in *. intros x Hx. apply filter_In in Hx.
        now apply Ht. }
      destruct (String.eqb (activeTripId s) id);
        [destruct (filter _ (trips s)) eqn:Ef|];
        apply (recorded_Forall _ s); try reflexivity; auto.
    + apply (recorded_Forall _ s); try reflexivity; [|exact H]. simpl.
      rewrite Forall_forall in *. intros x Hx. apply in_map_iff in Hx.
      destruct Hx as [t [<- Hin]].
      destruct (String.eqb (trip_id t) (activeTripId s)); auto.
      exact (Ht t Hin).
Qed.

(** X9.  When every trip of the state, in the current list and on both
    history stacks, has one segment per adjacent pair of checkpoints with
    the ids of the pair, the same holds after any sequence of actions,
    undos and redos in which every save comes from an editor that still
    carries the ids it was opened on. *)
Theorem segments_consistent_along_run (es : list Event) (s : AppState) :
  Forall eventConsistent es ->
  Forall segmentInvariant (allTrips s) ->
  Forall segmentInvariant (allTrips (run es s)).
Proof.
  unfold run. revert s. induction es as [|e r IH]; intros s Hes H; [exact H|].
  inversion Hes as [|? ? He Hr]; subst. simpl. apply IH; [exact Hr|].
  destruct e; simpl.
  - now apply perform_invariant.
  - now apply undo_Forall.
  - now apply redo_Forall.
Qed.

End StateInvariant.

(* ================================================================== *)
(** ** Further properties: re-synchronisation and reordering *)

Section Resync.

Context {geo : Geodesy}.

Lemma find_first {A} (p : A -> bool) l : forall i s,
  nth_error l i = Some s -> p s = true ->
  (forall j s', (j < i)%nat -> nth_error l j = Some s' -> p s' = false) ->
  find p l = Some s.
Proof.
  induction l as [|x r IH]; intros [|i] s Hs Hp Hb; simpl in *;
    try discriminate.
  - injection Hs as ->. now rewrite Hp.
  - rewrite (Hb 0%nat x) by (lia || reflexivity).
    apply (IH i); auto. intros j s' Hj Hs'. apply (Hb (S j)); [lia|exact Hs'].
Qed.

Lemma findIndexFrom_first {A} (p : A -> bool) l : forall i x k,
  nth_error l i = Some x -> p x = true ->
  (forall j y, (j < i)%nat -> nth_error l j = Some y -> p y = false) ->
  findIndexFrom p l k = k + Z.of_nat i.
Proof.
  induction l as [|x0 r IH]; intros [|i] x k Hx Hp Hb; simpl in *;
    try discriminate.
  - injection Hx as ->. rewrite Hp. lia.
  - rewrite (Hb 0%nat x0) by (lia || reflexivity).
    rewrite (IH i x (k + 1)); auto; [lia|].
    intros j y Hj Hy. apply (Hb (S j)); [lia|exact Hy].
Qed.

Lemma ids_index cps i j a b :
  NoDup (map cp_id cps) ->
  nth_error cps i = Some a -> nth_error cps j = Some b ->
  cp_id a = cp_id b -> i = j.
Proof.
  intros Hnd Ha Hb E. apply (proj1 (NoDup_nth_error _) Hnd).
  - rewrite length_map. apply nth_error_Some. congruence.
  - rewrite !nth_error_map, Ha, Hb. simpl. congruence.
Qed.

Lemma findIndex_distinct cps i c :
  NoDup (map cp_id cps) -> nth_error cps i = Some c ->
  findIndex (hasId (cp_id c)) cps = Z.of_nat i.
Proof.
  intros Hnd Hc. unfold findIndex.
  rewrite (findIndexFrom_first _ _ i c); [lia|exact Hc| |].
  - unfold hasId. apply String.eqb_refl.
  - intros j y Hj Hy. unfold hasId. apply String.eqb_neq. intros E.
    pose proof (ids_index _ _ _ _ _ Hnd Hy Hc E). lia.
Qed.

Lemma invariant_find t i a b s :
  segmentInvariant t -> distinctIds t ->
  nth_error (checkpoints t) i = Some a ->
  nth_error (checkpoints t) (S i) = Some b ->
  nth_error (segments t) i = Some s ->
  find (connects a b) (segments t) = Some s.
Proof.
  intros [Hlen Hnth] Hnd Ha Hb Hs. apply (find_first _ _ i); [exact Hs| |].
  - destruct (Hnth _ _ _ _ Ha Hb Hs) as [H1 H2]. unfold connects.
    now rewrite H1, H2, !String.eqb_refl.
  - intros j s' Hj Hs'.
    destruct (nth_error (checkpoints t) j) as [x|] eqn:Hx.
    2:{ apply nth_error_None in Hx.
        assert (i < List.length (checkpoints t))%nat
          by (apply nth_error_Some; congruence). lia. }
    destruct (nth_error (checkpoints t) (S j)) as [y|] eqn:Hy.
    2:{ apply nth_error_None in Hy.
        assert (i < List.length (checkpoints t))%nat
          by (apply nth_error_Some; congruence). lia. }
    destruct (Hnth _ _ _ _ Hx Hy Hs') as [H1 _]. unfold connects.
    apply andb_false_iff. left. apply String.eqb_neq. rewrite H1. intros E.
    pose proof (ids_index _ _ _ _ _ Hnd Hx Ha E). lia.
Qed.

Lemma resync_same t :
  segmentInvariant t -> distinctIds t ->
  syncSegments (checkpoints t) (segments t) = segments t.
Proof.
  intros Hinv Hnd. pose proof Hinv as [Hlen Hnth].
  apply nth_error_ext. intros n.
  destruct (nth_error (segments t) n) as [s|] eqn:Es.
  - assert (Hn : (n < List.length (segments t))%nat)
      by (apply nth_error_Some; congruence).
    destruct (nth_error (checkpoints t) n) as [a|] eqn:Ha.
    2:{ apply nth_error_None in Ha. lia. }
    destruct (nth_error (checkpoints t) (S n)) as [b|] eqn:Hb.
    2:{ apply nth_error_None in Hb. lia. }
    rewrite (syncSegments_nth _ _ _ _ _ Ha Hb). unfold keptOrSynth.
    now rewrite (invariant_find t n a b s).
  - apply nth_error_None. rewrite syncSegments_length.
    apply nth_error_None in Es. lia.
Qed.

(** X10.  For a trip with distinct checkpoint ids whose segments satisfy
    the segment invariant, [syncSegments] gives the stored segments back;
    so what [syncSegments] produced once is not changed by running it
    again on the same checkpoints. *)
Theorem resync_fixed_point (t : Trip) :
  distinctIds t ->
  (segmentInvariant t ->
   syncSegments (checkpoints t) (segments t) = segments t) /\
  (forall segs,
     syncSegments (checkpoints t) (syncSegments (checkpoints t) segs) =
     syncSegments (checkpoints t) segs).
Proof.
  intros Hnd. split; [intros Hinv; now apply resync_same|].
  intros segs.
  apply (resync_same (withCheckpoints t (checkpoints t)
                        (syncSegments (checkpoints t) segs))).
  - apply syncSegments_invariant.
  - exact Hnd.
Qed.

Lemma withCheckpoints_same t :
  withCheckpoints t (checkpoints t) (segments t) = t.
Proof. now destruct t. Qed.

(** X11.  On a trip with distinct ids and the segment invariant, deleting
    a checkpoint id that no checkpoint has, or a city that no checkpoint
    is in, gives the same trip back. *)
Theorem delete_absent_is_identity (t : Trip) (id cityName : string) :
  segmentInvariant t -> distinctIds t ->
  ((forall c, In c (checkpoints t) -> cp_id c <> id) ->
   deleteCheckpointUpdater id t = t) /\
  ((forall c, In c (checkpoints t) -> cp_city c <> cityName) ->
   deleteDestinationUpdater cityName t = t).
Proof.
  intros Hinv Hnd. split; intros Habs.
  - unfold deleteCheckpointUpdater. rewrite filter_true_id'.
    + rewrite resync_same by assumption. apply withCheckpoints_same.
    + intros c Hc. unfold hasId. apply negb_true_iff, String.eqb_neq. auto.
  - unfold deleteDestinationUpdater. rewrite filter_true_id'.
    + rewrite resync_same by assumption. apply withCheckpoints_same.
    + intros c Hc. unfold inCity. apply negb_true_iff, String.eqb_neq. auto.
Qed.

(** X12.  In the timeline, the transit shown after the checkpoint at
    index [i] is the stored segment at index [i], and there is none after
    the last checkpoint (segment invariant, distinct ids). *)
Theorem transit_is_stored_segment (t : Trip) (i : nat) (cp : Checkpoint) :
  segmentInvariant t -> distinctIds t ->
  nth_error (checkpoints t) i = Some cp ->
  transitToNext t cp = nth_error (segments t) i.
Proof.
  intros Hinv Hnd Hcp. pose proof Hinv as [Hlen Hnth].
  unfold transitToNext. rewrite (findIndex_distinct _ i cp Hnd Hcp).
  replace (Z.to_nat (Z.of_nat i + 1)) with (S i) by lia.
  destruct (nth_error (checkpoints t) (S i)) as [nextCp|] eqn:Hn.
  - assert (Hi : (S i < List.length (checkpoints t))%nat)
      by (apply nth_error_Some; congruence).
    destruct (nth_error (segments t) i) as [s|] eqn:Es.
    2:{ apply nth_error_None in Es. lia. }
    exact (invariant_find t i cp nextCp s Hinv Hnd Hcp Hn Es).
  - symmetry. apply nth_error_None. apply nth_error_None in Hn. lia.
Qed.

Lemma swapAt_cons {A} (x : A) l i j :
  swapAt (S i) (S j) (x :: l) = x :: swapAt i j l.
Proof.
  unfold swapAt. simpl. now destruct (nth_error l i), (nth_error l j).
Qed.

Lemma swapAt_adjacent {A} (l1 : list A) a b l3 :
  swapAt (List.length l1) (S (List.length l1)) (l1 ++ a :: b :: l3)
    = l1 ++ b :: a :: l3 /\
  swapAt (S (List.length l1)) (List.length l1) (l1 ++ a :: b :: l3)
    = l1 ++ b :: a :: l3.
Proof.
  induction l1 as [|x r [IH1 IH2]]; [split; reflexivity|].
  cbn [List.length app]. rewrite !swapAt_cons, IH1, IH2. auto.
Qed.

Lemma moveCheckpoint_at t id delta i :
  findIndex (hasId id) (checkpoints t) = Z.of_nat i ->
  0 <= Z.of_nat i + delta < Z.of_nat (List.length (checkpoints t)) ->
  moveCheckpointUpdater id delta t =
  withCheckpoints t
    (swapAt i (Z.to_nat (Z.of_nat i + delta)) (checkpoints t))
    (syncSegments (swapAt i (Z.to_nat (Z.of_nat i + delta)) (checkpoints t))
                  (segments t)).
Proof.
  intros Hi Hr. unfold moveCheckpointUpdater, moveCheckpointGuard.
  rewrite Hi, Nat2Z.id.
  replace (Z.of_nat i =? -1) with false by (symmetry; apply Z.eqb_neq; lia).
  replace (Z.of_nat i + delta <? 0) with false
    by (symmetry; apply Z.ltb_ge; lia).
  replace (Z.of_nat i + delta >=? Z.of_nat (List.length (checkpoints t)))
    with false by (symmetry; rewrite Z.geb_leb; apply Z.leb_gt; lia).
  reflexivity.
Qed.

Lemma nth_error_middle {A} (l1 : list A) a b l3 :
  nth_error (l1 ++ a :: b :: l3) (List.length l1) = Some a /\
  nth_error (l1 ++ a :: b :: l3) (S (List.length l1)) = Some b.
Proof.
  split.
  - rewrite nth_error_app2 by lia. now rewrite Nat.sub_diag.
  - rewrite nth_error_app2 by lia.
    now replace (S (List.length l1) - List.length l1)%nat with 1%nat by lia.
Qed.

Lemma move_down t l1 a b l3 :
  checkpoints t = l1 ++ a :: b :: l3 -> distinctIds t ->
  moveCheckpointUpdater (cp_id a) 1 t =
  withCheckpoints t (l1 ++ b :: a :: l3)
                  (syncSegments (l1 ++ b :: a :: l3) (segments t)).
Proof.
  intros E Hnd. destruct (nth_error_middle l1 a b l3) as [Ha _].
  rewrite <- E in Ha.
  rewrite (moveCheckpoint_at t _ 1 (List.length l1)).
  - replace (Z.to_nat (Z.of_nat (List.length l1) + 1))
      with (S (List.length l1)) by lia.
    rewrite E. now rewrite (proj1 (swapAt_adjacent l1 a b l3)).
  - now apply findIndex_distinct.
  - rewrite E, length_app. cbn [List.length]. lia.
Qed.

Lemma move_up t l1 a b l3 :
  checkpoints t = l1 ++ a :: b :: l3 -> distinctIds t ->
  moveCheckpointUpdater (cp_id b) (-1) t =
  withCheckpoints t (l1 ++ b :: a :: l3)
                  (syncSegments (l1 ++ b :: a :: l3) (segments t)).
Proof.
  intros E Hnd. destruct (nth_error_middle l1 a b l3) as [_ Hb].
  rewrite <- E in Hb.
  rewrite (moveCheckpoint_at t _ (-1) (S (List.length l1))).
  - replace (Z.to_nat (Z.of_nat (S (List.length l1)) + -1))
      with (List.length l1) by lia.
    rewrite E. now rewrite (proj2 (swapAt_adjacent l1 a b l3)).
  - now apply findIndex_distinct.
  - rewrite E, length_app. cbn [List.length]. lia.
Qed.

(** X13.  With distinct ids, moving a checkpoint down, or the one after
    it up, swaps the two neighbours and leaves every other checkpoint in
    place; the segments are rebuilt for the new order. *)
Theorem moveCheckpoint_swaps_neighbours (t : Trip) (l1 : list Checkpoint)
  (a b : Checkpoint) (l3 : list Checkpoint) :
  checkpoints t = l1 ++ a :: b :: l3 -> distinctIds t ->
  checkpoints (moveCheckpointUpdater (cp_id a) 1 t) = l1 ++ b :: a :: l3 /\
  checkpoints (moveCheckpointUpdater (cp_id b) (-1) t) = l1 ++ b :: a :: l3 /\
  segmentInvariant (moveCheckpointUpdater (cp_id a) 1 t) /\
  distinctIds (moveCheckpointUpdater (cp_id a) 1 t).
Proof.
  intros E Hnd. rewrite (move_down t l1 a b l3 E Hnd),
    (move_up t l1 a b l3 E Hnd).
  split; [reflexivity|]. split; [reflexivity|].
  split; [apply syncSegments_invariant|].
  unfold distinctIds in *. simpl. rewrite E in Hnd.
  rewrite map_app in *. simpl in *.
  eapply Permutation_NoDup; [|exact Hnd].
  apply Permutation_app_head. apply perm_swap.
Qed.

(** X14.  With distinct ids, moving a checkpoint down and up again
    restores the order of the checkpoints, but the segment between the
    checkpoint and its old neighbour is then the synthesized one, whatever
    was stored for the pair before. *)
Theorem move_down_then_up (t : Trip) (l1 : list Checkpoint)
  (a b : Checkpoint) (l3 : list Checkpoint) :
  checkpoints t = l1 ++ a :: b :: l3 -> distinctIds t ->
  let t' := moveCheckpointUpdater (cp_id a) (-1)
              (moveCheckpointUpdater (cp_id a) 1 t) in
  checkpoints t' = checkpoints t /\
  nth_error (segments t') (List.length l1) = Some (synthSegment a b).
Proof.
  intros E Hnd.
  set (t1 := moveCheckpointUpdater (cp_id a) 1 t).
  assert (E1 : checkpoints t1 = l1 ++ b :: a :: l3).
  { unfold t1. now rewrite (move_down t l1 a b l3 E Hnd). }
  assert (S1 : segments t1 = syncSegments (l1 ++ b :: a :: l3) (segments t)).
  { unfold t1. now rewrite (move_down t l1 a b l3 E Hnd). }
  assert (Hnd1 : distinctIds t1).
  { unfold distinctIds in *. rewrite E1. rewrite E in Hnd.
    rewrite map_app in *. simpl in *.
    eapply Permutation_NoDup; [|exact Hnd].
    apply Permutation_app_head. apply perm_swap. }
  intros t'. unfold t'. fold t1.
  rewrite (move_up t1 l1 b a l3 E1 Hnd1). simpl.
  split; [now rewrite E|].
  destruct (nth_error_middle l1 a b l3) as [Ha Hb].
  rewrite (syncSegments_nth _ _ _ _ _ Ha Hb). f_equal.
  unfold keptOrSynth. rewrite find_connects_none; [reflexivity|].
  intros s Hin [Hf Ht]. rewrite S1 in Hin.
  apply In_nth_error in Hin. destruct Hin as [n Hn].
  assert (Hlt : (n < List.length (syncSegments (l1 ++ b :: a :: l3)
                                               (segments t)))%nat)
    by (apply nth_error_Some; congruence).
  rewrite syncSegments_length in Hlt.
  destruct (nth_error (l1 ++ b :: a :: l3) n) as [x|] eqn:Hx.
  2:{ apply nth_error_None in Hx. lia. }
  destruct (nth_error (l1 ++ b :: a :: l3) (S n)) as [y|] eqn:Hy.
  2:{ apply nth_error_None in Hy. lia. }
  rewrite (syncSegments_nth _ _ _ _ _ Hx Hy) in Hn. injection Hn as <-.
  destruct (keptOrSynth_ends x y (segments t)) as [K1 K2].
  rewrite K1 in Hf. rewrite K2 in Ht.
  destruct (nth_error_middle l1 b a l3) as [Hb' Ha'].
  unfold distinctIds in Hnd1. rewrite E1 in Hnd1.
  pose proof (ids_index _ _ _ _ _ Hnd1 Hx Ha' Hf).
  pose proof (ids_index _ _ _ _ _ Hnd1 Hy Hb' Ht). lia.
Qed.

End Resync.

(* ================================================================== *)
(** ** Further properties: the order of the cities *)

Section CityOrder.

Context {geo : Geodesy}.

Lemma filter_flat_map_out {B} (key : B -> string) (f : string -> list B) k :
  (forall k' x, In x (f k') -> key x = k') ->
  forall ks, ~ In k ks ->
  filter (fun x => String.eqb (key x) k) (flat_map f ks) = [].
Proof.
  intros Hkey. induction ks as [|k0 r IH]; intros Hk; [reflexivity|].
  simpl. rewrite filter_app, IH by (intros H; apply Hk; now right).
  rewrite app_nil_r.
  assert (H0 : forall x, In x (f k0) -> String.eqb (key x) k = false).
  { intros x Hx. apply String.eqb_neq. rewrite (Hkey _ _ Hx).
    intros ->. apply Hk. now left. }
  clear -H0. induction (f k0) as [|x l IHl]; [reflexivity|].
  simpl. rewrite (H0 x) by now left. apply IHl. intros y Hy. apply H0. now right.
Qed.

Lemma filter_flat_map_in {B} (key : B -> string) (f : string -> list B) k :
  (forall k' x, In x (f k') -> key x = k') ->
  forall ks, NoDup ks -> In k ks ->
  filter (fun x => String.eqb (key x) k) (flat_map f ks) = f k.
Proof.
  intros Hkey. induction ks as [|k0 r IH]; intros Hnd Hk; [contradiction|].
  inversion Hnd as [|? ? Hk0 Hnd']; subst. simpl. rewrite filter_app.
  destruct (string_dec k0 k) as [->|Hne].
  - rewrite (filter_flat_map_out key f k Hkey r Hk0), app_nil_r.
    apply filter_true_id'. intros x Hx. apply String.eqb_eq. now apply Hkey.
  - rewrite IH; [|exact Hnd'|destruct Hk; [contradiction|assumption]].
    replace (filter (fun x => String.eqb (key x) k) (f k0)) with (@nil B);
      [reflexivity|].
    symmetry.
    assert (H0 : forall x, In x (f k0) -> String.eqb (key x) k = false).
    { intros x Hx. apply String.eqb_neq. now rewrite (Hkey _ _ Hx). }
    clear -H0. induction (f k0) as [|x l IHl]; [reflexivity|].
    simpl. rewrite (H0 x) by now left. apply IHl. intros y Hy. apply H0.
    now right.
Qed.

Lemma dayStartLe_not_positive x y :
  dayStartLe x y -> positive (byDayThenStart x y) = false.
Proof.
  unfold dayStartLe, byDayThenStart.
  destruct (cp_day x) as [dx|]; [|contradiction].
  destruct (cp_day y) as [dy|]; [|contradiction].
  simpl. destruct (Qeq_bool dx dy) eqn:E; simpl.
  - apply Qeq_bool_iff in E. rewrite !sor_empty.
    intros [H|[_ H]]; [lra|]. unfold String.leb in H. unfold localeCompare.
    destruct (String.compare (cp_startTime x) (cp_startTime y));
      [reflexivity|reflexivity|discriminate].
  - intros H. destruct (positive (Num (dx - dy))) eqn:Pd; [|reflexivity].
    apply positive_Num in Pd. destruct H as [H|[H _]]; [lra|].
    apply Qeq_bool_iff in H. congruence.
Qed.

Lemma sortBy_sorted_id {A} (cmp : A -> A -> number) (R : A -> A -> Prop) l :
  (forall x y, R x y -> positive (cmp x y) = false) ->
  StronglySorted R l -> sortBy cmp l = l.
Proof.
  intros HR. induction 1 as [|x l Hs IH Hall]; [reflexivity|].
  simpl. rewrite IH. destruct l as [|y r]; [reflexivity|].
  simpl. inversion Hall; subst. now rewrite HR.
Qed.

Lemma cityBlock_sorted cps k :
  daysFinite cps -> StronglySorted dayStartLe (cityBlock cps k).
Proof.
  intros Hfin. unfold cityBlock.
  apply (sortBy_sorted _ byDayThenStart dayStartLe finiteDay).
  - exact dayStartLe_trans.
  - exact byDayThenStart_after.
  - exact byDayThenStart_before.
  - unfold daysFinite in *. rewrite Forall_forall in *.
    intros x Hx. apply filter_In in Hx. now apply Hfin.
Qed.

(** X15.  Regrouping is idempotent: with day numbers that are not NaN,
    regrouping a regrouped list changes nothing. *)
Theorem regroup_idempotent (cps : list Checkpoint) :
  daysFinite cps -> regroup (regroup cps) = regroup cps.
Proof.
  intros Hfin. rewrite (regroup_blocks (regroup cps)).
  rewrite <- dedup_uniq, regroup_city_order, dedup_uniq.
  rewrite (regroup_blocks cps) at 2.
  apply flat_map_agree. intros k Hk. unfold cityBlock at 1.
  rewrite regroup_blocks.
  change (filter (inCity k)) with
    (filter (fun x : Checkpoint => String.eqb (cp_city x) k)).
  rewrite (filter_flat_map_in cp_city (cityBlock cps) k (cityBlock_city cps)
             _ (NoDup_uniq _) Hk).
  apply (sortBy_sorted_id _ dayStartLe).
  - exact dayStartLe_not_positive.
  - now apply cityBlock_sorted.
Qed.

Lemma dedup_snoc l x : dedup (l ++ [x]) = setAdd (dedup l) x.
Proof. unfold dedup. now rewrite fold_left_app. Qed.

(** X16.  Adding a checkpoint keeps the cities in their order: the city
    of the new checkpoint keeps its place when the trip has it already and
    goes last otherwise; the checkpoints are the old ones and the new one;
    the checkpoints of a city are those of the old list and the new one
    that carry its name, in the order the comparator of [addCheckpoint]
    gives them; and when no day number is NaN and every start time is
    empty or a two-digit "HH:MM" clock string, a checkpoint of a city is
    never after a later one of that city by (day, start time). *)
Theorem added_city_goes_last (newCp : Checkpoint) (t : Trip) :
  uniqueCities (Some (addCheckpointUpdater newCp t)) =
    setAdd (uniqueCities (Some t)) (cp_city newCp) /\
  Permutation (checkpoints (addCheckpointUpdater newCp t))
              (newCp :: checkpoints t) /\
  (forall c, filter (inCity c) (checkpoints (addCheckpointUpdater newCp t)) =
             cityBlock (checkpoints t ++ [newCp]) c) /\
  (daysFinite (checkpoints t ++ [newCp]) ->
   clockStarts (checkpoints t ++ [newCp]) ->
   groupSorted (checkpoints (addCheckpointUpdater newCp t))).
Proof.
  unfold uniqueCities, addCheckpointUpdater. simpl.
  split; [|split; [|split;
    [|intros Hfin _; now apply groupSorted_apart, regroup_sorted]]].
  - rewrite regroup_city_order, map_app.
    change (map cp_city [newCp]) with [cp_city newCp]. apply dedup_snoc.
  - rewrite <- regroup_perm. rewrite Permutation_app_comm. reflexivity.
  - intros c. rewrite regroup_blocks.
    set (l := checkpoints t ++ [newCp]).
    destruct (in_dec string_dec c (uniq (map cp_city l))) as [Hin|Hout].
    + exact (filter_flat_map_in cp_city (cityBlock l) c (cityBlock_city l)
               _ (NoDup_uniq _) Hin).
    + change (filter (inCity c)) with
        (filter (fun x : Checkpoint => String.eqb (cp_city x) c)).
      rewrite (filter_flat_map_out cp_city (cityBlock l) c (cityBlock_city l)
                 _ Hout).
      unfold cityBlock.
      replace (filter (inCity c) l) with (@nil Checkpoint); [reflexivity|].
      symmetry.
      assert (H0 : forall x, In x l -> inCity c x = false).
      { intros x Hx. unfold inCity. apply String.eqb_neq. intros E.
        apply Hout. apply In_uniq. rewrite <- E. now apply in_map. }
      clear -H0. induction l as [|x r IH]; [reflexivity|].
      simpl. rewrite (H0 x) by now left. apply IH. intros y Hy. apply H0.
      now right.
Qed.

Lemma setNth_perm {A} (l : list A) : forall j x y,
  nth_error l j = Some y -> Permutation (y :: setNth j x l) (x :: l).
Proof.
  induction l as [|z r IH]; intros [|j] x y H; simpl in *; try discriminate.
  - injection H as ->. apply perm_swap.
  - rewrite perm_swap. rewrite (IH j x y H). apply perm_swap.
Qed.

Lemma swapAt_perm {A} (l : list A) : forall i j, Permutation (swapAt i j l) l.
Proof.
  induction l as [|z r IH]; intros i j.
  - unfold swapAt. now destruct i, j.
  - destruct i as [|i], j as [|j].
    + reflexivity.
    + unfold swapAt. simpl. destruct (nth_error r j) as [y|] eqn:E;
        [|reflexivity]. simpl. now apply setNth_perm.
    + unfold swapAt. simpl. destruct (nth_error r i) as [y|] eqn:E;
        [|reflexivity]. simpl. now apply setNth_perm.
    + rewrite swapAt_cons. now constructor.
Qed.

Lemma setNth_map {A B} (g : A -> B) (l : list A) : forall i v,
  setNth i (g v) (map g l) = map g (setNth i v l).
Proof.
  induction l as [|z r IH]; intros [|i] v; simpl; try reflexivity.
  now rewrite IH.
Qed.

Lemma setNth_length {A} (l : list A) : forall i v,
  List.length (setNth i v l) = List.length l.
Proof.
  induction l as [|z r IH]; intros [|i] v; simpl; try reflexivity.
  now rewrite IH.
Qed.

Lemma aswap_in_range {A} (l : list A) i j :
  (i < List.length l)%nat -> (j < List.length l)%nat ->
  aswap (map Some l) (Z.of_nat i) (Z.of_nat j) = map Some (swapAt i j l).
Proof.
  intros Hi Hj.
  destruct (nth_error l i) as [x|] eqn:Ex;
    [|apply nth_error_None in Ex; lia].
  destruct (nth_error l j) as [y|] eqn:Ey;
    [|apply nth_error_None in Ey; lia].
  unfold aswap, aget, aset, swapAt. rewrite Ex, Ey.
  replace (Z.of_nat i <? 0) with false by (symmetry; apply Z.ltb_ge; lia).
  replace (Z.of_nat j <? 0) with false by (symmetry; apply Z.ltb_ge; lia).
  rewrite !Nat2Z.id, !nth_error_map, Ex, Ey. simpl.
  rewrite length_map.
  replace (Z.of_nat i <? Z.of_nat (List.length l)) with true
    by (symmetry; apply Z.ltb_lt; lia).
  rewrite setNth_length, length_map.
  replace (Z.of_nat j <? Z.of_nat (List.length l)) with true
    by (symmetry; apply Z.ltb_lt; lia).
  now rewrite !setNth_map.
Qed.

Lemma flat_map_Some cps ks :
  flat_map (cityCheckpoints cps) (map Some ks) =
  flat_map (fun k => filter (inCity k) cps) ks.
Proof.
  induction ks as [|k r IH]; [reflexivity|]. simpl. now rewrite IH.
Qed.

Lemma filter_city_key cps k x : In x (filter (inCity k) cps) -> cp_city x = k.
Proof. intros H. apply filter_In in H. now apply String.eqb_eq. Qed.

Lemma filter_blocks_perm ks : forall l,
  NoDup ks -> (forall x, In x l -> In (cp_city x) ks) ->
  Permutation (flat_map (fun k => filter (inCity k) l) ks) l.
Proof.
  induction ks as [|k ks' IH]; intros l Hnd Hin.
  - destruct l as [|x r]; [reflexivity|]. destruct (Hin x (or_introl eq_refl)).
  - inversion Hnd as [|? ? Hk Hnd']; subst. simpl.
    set (rest := filter (fun x => negb (inCity k x)) l).
    assert (E : flat_map (fun k' => filter (inCity k') l) ks' =
                flat_map (fun k' => filter (inCity k') rest) ks').
    { apply flat_map_agree. intros k' Hk'. unfold rest.
      rewrite filter_filter_absorb; [reflexivity|].
      intros y Hy. unfold inCity in *. apply String.eqb_eq in Hy.
      apply negb_true_iff, String.eqb_neq. intros E. rewrite Hy in E.
      subst. contradiction. }
    rewrite E, IH; auto.
    + apply filter_complement_perm.
    + intros x Hx. unfold rest in Hx. apply filter_In in Hx.
      destruct Hx as [Hx Hn]. destruct (Hin x Hx) as [Hkx|H]; [|exact H].
      unfold inCity in Hn. rewrite <- Hkx, String.eqb_refl in Hn.
      discriminate.
Qed.

Lemma findIndexFrom_found {A} (p : A -> bool) l : forall k i,
  0 <= k ->
  findIndexFrom p l k = k + Z.of_nat i -> (i < List.length l)%nat.
Proof.
  induction l as [|x r IH]; intros k i Hk; simpl.
  - lia.
  - destruct (p x).
    + intros H. lia.
    + intros H. destruct i as [|i].
      * destruct (findIndexFrom_range p r (k + 1)); lia.
      * assert (i < List.length r)%nat; [|lia].
        apply (IH (k + 1)); lia.
Qed.

(** X17.  Moving a city that is in the trip to a position inside the city
    list swaps it with the city at that position: the city order is the
    swapped one, every city keeps its checkpoints in their order, the
    checkpoints of a city stay next to each other, no checkpoint is lost
    or added, and the segments fit the new order. *)
Theorem moveDestination_swaps_cities (t : Trip) (cityName : string)
  (delta : Z) (i : nat) :
  let cities := dedup (map cp_city (checkpoints t)) in
  findIndex (String.eqb cityName) cities = Z.of_nat i ->
  0 <= Z.of_nat i + delta < Z.of_nat (List.length cities) ->
  let t' := moveDestinationUpdater cityName delta t in
  dedup (map cp_city (checkpoints t')) =
    swapAt i (Z.to_nat (Z.of_nat i + delta)) cities /\
  (forall c, filter (inCity c) (checkpoints t') =
             filter (inCity c) (checkpoints t)) /\
  cityContiguous (checkpoints t') /\
  Permutation (checkpoints t') (checkpoints t) /\
  segmentInvariant t'.
Proof.
  intros cities Hi Hr t'.
  set (j := Z.to_nat (Z.of_nat i + delta)).
  set (ks := swapAt i j cities).
  set (blocks := fun k => filter (inCity k) (checkpoints t)).
  assert (Hil : (i < List.length cities)%nat).
  { apply (findIndexFrom_found (String.eqb cityName) cities 0); [lia|].
    exact Hi. }
  assert (Ht' : t' = withCheckpoints t (flat_map blocks ks)
                       (syncSegments (flat_map blocks ks) (segments t))).
  { unfold t', moveDestinationUpdater, moveDestinationGuard.
    fold cities. rewrite Hi.
    replace (Z.of_nat i + delta <? 0) with false
      by (symmetry; apply Z.ltb_ge; lia).
    replace (Z.of_nat i + delta >=? Z.of_nat (List.length cities)) with false
      by (symmetry; rewrite Z.geb_leb; apply Z.leb_gt; lia).
    cbn [orb].
    replace (Z.of_nat i + delta) with (Z.of_nat j) by (unfold j; lia).
    rewrite (aswap_in_range cities i j Hil) by (unfold j; lia).
    now rewrite flat_map_Some. }
  assert (Hcities : cities = uniq (map cp_city (checkpoints t)))
    by apply dedup_uniq.
  assert (Hperm : Permutation ks cities) by apply swapAt_perm.
  assert (Hnd : NoDup ks).
  { eapply Permutation_NoDup; [symmetry; exact Hperm|].
    rewrite Hcities. apply NoDup_uniq. }
  assert (Hks : forall k, In k ks <->
                          exists x, In x (checkpoints t) /\ cp_city x = k).
  { intros k. split.
    - intros H. apply (Permutation_in _ Hperm) in H. rewrite Hcities in H.
      apply In_uniq, in_map_iff in H. destruct H as [x [E Hx]]. eauto.
    - intros [x [Hx E]]. apply (Permutation_in _ (Permutation_sym Hperm)).
      rewrite Hcities. apply In_uniq. rewrite <- E. now apply in_map. }
  assert (Hkey : forall k x, In x (blocks k) -> cp_city x = k)
    by (intros k x; apply filter_city_key).
  rewrite Ht'. cbn [checkpoints withCheckpoints].
  split; [|split; [|split; [|split]]].
  - rewrite dedup_uniq.
    apply (uniq_flat_map _ cp_city blocks Hkey ks Hnd).
    intros k Hk Hempty. apply Hks in Hk. destruct Hk as [x [Hx E]].
    assert (H : In x (blocks k)).
    { unfold blocks. apply filter_In. split; [exact Hx|].
      unfold inCity. now apply String.eqb_eq. }
    rewrite Hempty in H. destruct H.
  - intros c. change (filter (inCity c)) with
      (filter (fun x : Checkpoint => String.eqb (cp_city x) c)).
    destruct (in_dec string_dec c ks) as [Hin|Hout].
    + now rewrite (filter_flat_map_in cp_city blocks c Hkey ks Hnd Hin).
    + rewrite (filter_flat_map_out cp_city blocks c Hkey ks Hout).
      symmetry.
      assert (H0 : forall x, In x (checkpoints t) ->
                             String.eqb (cp_city x) c = false).
      { intros x Hx. apply String.eqb_neq. intros E. apply Hout.
        apply Hks. eauto. }
      clear -H0. induction (checkpoints t) as [|x r IH]; [reflexivity|].
      simpl. rewrite (H0 x) by now left. apply IH. intros y Hy. apply H0.
      now right.
  - apply cityContiguous_apart. intros l1 a l2 b l3 E Hab c Hc.
    destruct (flat_map_block _ cp_city blocks Hkey ks l1 a l2 b l3 Hnd E Hab)
      as [m1 [m3 Hm]].
    apply (Hkey (cp_city a)). rewrite Hm.
    apply in_or_app. right. right. apply in_or_app. now left.
  - apply filter_blocks_perm; [exact Hnd|].
    intros x Hx. apply Hks. eauto.
  - apply syncSegments_invariant.
Qed.

End CityOrder.

(* ================================================================== *)
(** ** Further properties: the derived views *)

Section Views.

Context {geo : Geodesy}.

Section Groups.

Variable inherited : string -> bool.

Lemma groupStep_thrown l : fold_left (groupStep inherited) l None = None.
Proof. induction l as [|x r IH]; [reflexivity|exact IH]. Qed.

Lemma ownGroup_map (f : string -> list Checkpoint) k ks :
  ownGroup k (map (fun k' => (k', f k')) ks) =
  if existsb (String.eqb k) ks then Some (f k) else None.
Proof.
  induction ks as [|k0 r IH]; [reflexivity|]. simpl.
  rewrite (String.eqb_sym k k0).
  destruct (String.eqb k0 k) eqn:E; simpl; [|exact IH].
  apply String.eqb_eq in E. now subst.
Qed.

Lemma existsb_false {A} (p : A -> bool) l :
  existsb p l = false -> forall x, In x l -> p x = false.
Proof.
  intros H x Hx. destruct (p x) eqn:E; [|reflexivity].
  assert (existsb p l = true) by (apply existsb_exists; eauto). congruence.
Qed.

Lemma filter_snoc_in l cp k :
  cp_city cp = k ->
  filter (inCity k) (l ++ [cp]) = filter (inCity k) l ++ [cp].
Proof.
  intros E. rewrite filter_app. simpl. unfold inCity at 2.
  now rewrite E, String.eqb_refl.
Qed.

Lemma filter_snoc_out l cp k :
  cp_city cp <> k ->
  filter (inCity k) (l ++ [cp]) = filter (inCity k) l.
Proof.
  intros E. rewrite filter_app. simpl. unfold inCity at 2.
  apply String.eqb_neq in E. rewrite E. apply app_nil_r.
Qed.

Lemma map_groups_out l cp ks :
  ~ In (cp_city cp) ks ->
  map (fun k => (k, filter (inCity k) (l ++ [cp]))) ks =
  map (fun k => (k, filter (inCity k) l)) ks.
Proof.
  intros H. apply map_ext_in. intros k Hk. f_equal.
  apply filter_snoc_out. intros E. apply H. now rewrite E.
Qed.

Lemma pushGroup_map l cp ks :
  NoDup ks ->
  In (cp_city cp) ks ->
  pushGroup (cp_city cp) cp (map (fun k => (k, filter (inCity k) l)) ks) =
  map (fun k => (k, filter (inCity k) (l ++ [cp]))) ks.
Proof.
  induction ks as [|k0 r IH]; intros Hnd Hin; [contradiction|].
  inversion Hnd as [|? ? Hk0 Hnd']; subst. simpl.
  destruct (String.eqb k0 (cp_city cp)) eqn:E.
  - apply String.eqb_eq in E. subst k0.
    rewrite (filter_snoc_in l cp _ eq_refl), map_groups_out by exact Hk0.
    reflexivity.
  - apply String.eqb_neq in E.
    rewrite (filter_snoc_out l cp k0) by congruence.
    rewrite IH; [reflexivity|exact Hnd'|].
    destruct Hin; [congruence|assumption].
Qed.

Lemma pushGroup_app_out k cp (gs rest : list (string * list Checkpoint)) :
  (forall g, In g gs -> fst g <> k) ->
  pushGroup k cp (gs ++ rest) = gs ++ pushGroup k cp rest.
Proof.
  induction gs as [|[k0 g0] r IH]; intros H; [reflexivity|]. simpl.
  assert (E : String.eqb k0 k = false).
  { apply String.eqb_neq. exact (H (k0, g0) (or_introl eq_refl)). }
  rewrite E, IH; [reflexivity|]. intros g Hg. apply H. now right.
Qed.

Lemma existsb_eqb_In k ks : existsb (String.eqb k) ks = true <-> In k ks.
Proof.
  rewrite existsb_exists. split.
  - intros [x [Hx E]]. apply String.eqb_eq in E. now subst.
  - intros H. exists k. split; [exact H|apply String.eqb_refl].
Qed.

Lemma filter_none l k :
  ~ In k (map cp_city l) -> filter (inCity k) l = [].
Proof.
  induction l as [|x r IH]; intros H; [reflexivity|]. simpl.
  unfold inCity at 1.
  replace (String.eqb (cp_city x) k) with false.
  - apply IH. intros Hin. apply H. now right.
  - symmetry. apply String.eqb_neq. intros E. apply H. now left.
Qed.

(** X18.  The timeline groups the checkpoints by city in order of first
    appearance, each group in trip order; when a checkpoint sits in a city
    whose name the empty object already answers to, the grouping throws
    instead. *)
Theorem timeline_groups (cps : list Checkpoint) :
  timelineGroups inherited cps =
  if existsb (fun cp => inherited (cp_city cp)) cps then None
  else Some (groupsOf cps).
Proof.
  induction cps as [|cp l IH] using rev_ind; [reflexivity|].
  unfold timelineGroups in *. rewrite fold_left_app, IH, existsb_app.
  cbn [fold_left existsb].
  destruct (existsb (fun cp => inherited (cp_city cp)) l) eqn:El;
    [reflexivity|].
  cbn [orb]. unfold groupsOf, groupStep.
  rewrite ownGroup_map, map_app.
  change (map cp_city [cp]) with [cp_city cp]. rewrite dedup_snoc.
  unfold setAdd.
  assert (Hnd : NoDup (dedup (map cp_city l)))
    by (rewrite dedup_uniq; apply NoDup_uniq).
  destruct (existsb (String.eqb (cp_city cp)) (dedup (map cp_city l))) eqn:Ex.
  - apply existsb_eqb_In in Ex.
    assert (Hinh : inherited (cp_city cp) = false).
    { rewrite dedup_uniq in Ex. apply In_uniq, in_map_iff in Ex.
      destruct Ex as [c' [E Hc']]. rewrite <- E.
      exact (existsb_false _ _ El c' Hc'). }
    rewrite Hinh. cbn [orb]. now rewrite pushGroup_map.
  - assert (Hout : ~ In (cp_city cp) (dedup (map cp_city l))).
    { intros H. apply existsb_eqb_In in H. congruence. }
    destruct (inherited (cp_city cp)); [reflexivity|]. cbn [orb].
    rewrite pushGroup_app_out.
    + rewrite map_app, map_groups_out by exact Hout. simpl.
      rewrite String.eqb_refl, (filter_snoc_in l cp _ eq_refl).
      rewrite filter_none; [reflexivity|].
      intros H. apply Hout. rewrite dedup_uniq. now apply In_uniq.
    + intros g Hg. apply in_map_iff in Hg. destruct Hg as [k [<- Hk]].
      simpl. intros ->. contradiction.
Qed.

End Groups.

Lemma nearerOrEqual_trans x y z :
  nearerOrEqual x y -> nearerOrEqual y z -> nearerOrEqual x z.
Proof.
  unfold nearerOrEqual.
  destruct (rec_distance x), (rec_distance y), (rec_distance z);
    try contradiction. lra.
Qed.

Lemma nearerOrEqual_after x y :
  positive (nsub (rec_distance x) (rec_distance y)) = true ->
  nearerOrEqual y x.
Proof.
  unfold nearerOrEqual.
  destruct (rec_distance x) as [dx|], (rec_distance y) as [dy|];
    simpl; try discriminate.
  intros H. apply positive_Num in H. lra.
Qed.

Lemma nearerOrEqual_before x y :
  (exists d, rec_distance x = Num d) -> (exists d, rec_distance y = Num d) ->
  positive (nsub (rec_distance x) (rec_distance y)) = false ->
  nearerOrEqual x y.
Proof.
  intros [dx Hx] [dy Hy]. unfold nearerOrEqual. rewrite Hx, Hy. simpl.
  intros H. apply Qnot_lt_le. intros Hlt.
  assert (P : positive (Num (dx - dy)) = true) by (apply positive_Num; lra).
  congruence.
Qed.

(** X20.  The recommended hubs are the cities of the trip, each once; when
    the distance from the pending place to every checkpoint is a number,
    they come nearest first. *)
Theorem recommended_nearest_first (pa : PendingAdd) (t : Trip) :
  Permutation (map rec_name (recommendedCities (Some pa) (Some t)))
              (uniqueCities (Some t)) /\
  ((forall c, In c (checkpoints t) ->
      exists d, distanceTo (pa_lat pa) (pa_lng pa) (cp_lat c) (cp_lng c)
                = Num d) ->
   StronglySorted nearerOrEqual (recommendedCities (Some pa) (Some t))).
Proof.
  unfold recommendedCities. split.
  - rewrite sortBy_perm, map_map. simpl. now rewrite map_id.
  - intros Hfin.
    apply (sortBy_sorted _ _ nearerOrEqual
             (fun r => exists d, rec_distance r = Num d)).
    + exact nearerOrEqual_trans.
    + exact nearerOrEqual_after.
    + exact nearerOrEqual_before.
    + apply Forall_forall. intros r Hr. apply in_map_iff in Hr.
      destruct Hr as [k [<- Hk]]. simpl.
      unfold uniqueCities in Hk. rewrite dedup_uniq in Hk.
      apply In_uniq, in_map_iff in Hk. destruct Hk as [c [E Hc]].
      destruct (filter (inCity k) (checkpoints t)) as [|c0 rest] eqn:Ef.
      * assert (H : In c (filter (inCity k) (checkpoints t))).
        { apply filter_In. split; [exact Hc|]. unfold inCity.
          now apply String.eqb_eq. }
        rewrite Ef in H. destruct H.
      * assert (H0 : In c0 (checkpoints t)).
        { assert (H : In c0 (filter (inCity k) (checkpoints t)))
            by (rewrite Ef; now left).
          apply filter_In in H. tauto. }
        destruct (Hfin c0 H0) as [d ->]. simpl. eauto.
Qed.




End Views.

(* ================================================================== *)
(** ** Further properties: city totals and the grand total *)

Section Totals.

















End Totals.

(* ================================================================== *)
(** ** Further properties: what a step leaves alone *)

Section Frames.

Context {geo : Geodesy}.

Lemma identity_update_recorded u s :
  (forall t, In t (trips s) -> trip_id t = activeTripId s -> u t = t) ->
  recordedUnchanged (updateActiveTrip u s) s.
Proof.
  intros H. split; [|split; reflexivity]. simpl.
  rewrite <- (map_id (trips s)) at 2. apply map_ext_in. intros t Ht.
  destruct (String.eqb (trip_id t) (activeTripId s)) eqn:E; [|reflexivity].
  apply String.eqb_eq in E. now apply H.
Qed.

(** X23.  A move that its guard turns away (first checkpoint up, last one
    down, an unknown id, a city moved past either end) leaves every trip as
    it is, but the step is recorded all the same: the undo stack grows and
    the redo stack is emptied. *)
Theorem blocked_move_still_recorded (id cityName : string) (delta : Z)
  (s : AppState) :
  ((forall t, In t (trips s) -> trip_id t = activeTripId s ->
              moveCheckpointGuard id delta t = true) ->
   recordedUnchanged (perform (MoveCheckpoint id delta) s) s) /\
  ((forall t, In t (trips s) -> trip_id t = activeTripId s ->
              moveDestinationGuard cityName delta t = true) ->
   recordedUnchanged (perform (MoveDestination cityName delta) s) s).
Proof.
  split; intros H; apply identity_update_recorded; intros t Ht Hid.
  - unfold moveCheckpointUpdater. now rewrite (H t Ht Hid).
  - unfold moveDestinationUpdater. now rewrite (H t Ht Hid).
Qed.

Lemma mapiFrom_Forall2 {A} (R : A -> A -> Prop) (F : A -> Z -> A) l :
  (forall x i, R (F x i) x) -> forall k, Forall2 R (mapiFrom F l k) l.
Proof.
  intros H. induction l as [|x r IH]; intros k; simpl; constructor; auto.
Qed.

Lemma sameButSchedule_refl c : sameButSchedule c c.
Proof. repeat split. Qed.

Lemma Forall2_refl {A} (R : A -> A -> Prop) l :
  (forall x, R x x) -> Forall2 R l l.
Proof. intros H. induction l; constructor; auto. Qed.

Lemma nth_error_map_if {A} (p : A -> bool) (v : A) l i s :
  nth_error l i = Some s -> p s = false ->
  nth_error (map (fun x => if p x then v else x) l) i = Some s.
Proof. intros H Hp. rewrite nth_error_map, H. simpl. now rewrite Hp. Qed.

(** X24.  Saving a transit keeps every checkpoint in its place and touches
    nothing but the schedule: ids, names, coordinates, costs and cities
    stay, the checkpoints before the destination of the transit stay as
    they are, the checkpoints other than the destination keep their start
    and end times, and every segment other than the saved one stays. *)
Theorem segment_save_frame (from to : string) (f : SegForm) (t : Trip) :
  let t' := handleSaveUpdater (SEGMENT from to f) t in
  let toIdx := findIndex (hasId to) (checkpoints t) in
  Forall2 sameButSchedule (checkpoints t') (checkpoints t) /\
  (forall i cp, nth_error (checkpoints t) i = Some cp ->
                Z.of_nat i < toIdx ->
                nth_error (checkpoints t') i = Some cp) /\
  (forall i cp cp', nth_error (checkpoints t) i = Some cp ->
                    nth_error (checkpoints t') i = Some cp' ->
                    Z.of_nat i <> toIdx ->
                    cp_startTime cp' = cp_startTime cp /\
                    cp_endTime cp' = cp_endTime cp) /\
  List.length (segments t') = List.length (segments t) /\
  (forall i s, nth_error (segments t) i = Some s ->
               isSegment from to s = false ->
               nth_error (segments t') i = Some s).
Proof.
  intros t' toIdx. unfold t', handleSaveUpdater. fold toIdx.
  assert (Hsame : Forall2 sameButSchedule (checkpoints t) (checkpoints t))
    by (apply Forall2_refl, sameButSchedule_refl).
  destruct (nth_error (checkpoints t)
              (Z.to_nat (findIndex (hasId from) (checkpoints t))))
    as [fromCp|];
    [destruct (nth_error (checkpoints t) (Z.to_nat toIdx)) as [toCp|];
     [destruct (negb (findIndex (hasId from) (checkpoints t) =? -1) &&
                negb (toIdx =? -1))%bool|]|];
    cbn [checkpoints segments withCheckpoints withSegments];
    try (repeat match goal with |- _ /\ _ => split end;
         [ exact Hsame
         | intros i cp Hi _; exact Hi
         | intros i cp cp' Hi Hi' _; rewrite Hi in Hi'; now injection Hi' as <-
         | apply length_map
         | intros i s Hs Hn; now apply nth_error_map_if ]).
  repeat match goal with |- _ /\ _ => split end.
  - unfold mapi. apply mapiFrom_Forall2. intros x i.
    destruct (i =? toIdx); [repeat split|].
    destruct (i >? toIdx); repeat split.
  - intros i cp Hi Hlt. unfold mapi. rewrite nth_error_mapiFrom, Hi. simpl.
    replace (Z.of_nat i =? toIdx) with false
      by (symmetry; apply Z.eqb_neq; lia).
    replace (Z.of_nat i >? toIdx) with false
      by (symmetry; rewrite Z.gtb_ltb; apply Z.ltb_ge; lia).
    reflexivity.
  - intros i cp cp' Hi Hi' Hne. unfold mapi in Hi'.
    rewrite nth_error_mapiFrom, Hi in Hi'. simpl in Hi'.
    replace (Z.of_nat i =? toIdx) with false in Hi'
      by (symmetry; apply Z.eqb_neq; lia).
    injection Hi' as <-. destruct (Z.of_nat i >? toIdx); auto.
  - apply length_map.
  - intros i s Hs Hn. now apply nth_error_map_if.
Qed.

End Frames.

(* ================================================================== *)
(** ** Worked examples for the further properties *)

Section MoreSamples.

Lemma goldenTriangle_distinct : distinctIds goldenTriangle.
Proof.
  unfold distinctIds. simpl. repeat constructor; simpl; intuition discriminate.
Qed.

Lemma freshSession_invariant :
  Forall segmentInvariant (allTrips freshSession).
Proof.
  unfold allTrips. simpl. constructor; [exact goldenTriangle_invariant|constructor].
Qed.

Lemma clock_round_trip_witness :
  minutesToTime (timeToMinutes (clock 9 5)) = clock 9 5.
Proof. apply clock_round_trip; lia. Defined.

Lemma duration_between_clocks_witness :
  numEq (calculateDuration (clockOf 540) (clockOf 690)) (Num (25 # 10)).
Proof.
  destruct (duration_between_clocks 540 690) as [H _]; [lia|lia|]. exact H.
Defined.

Lemma undo_redo_inverse_witness :
  let s := @perform gridDistance (RenameActiveTrip "Rajasthan") freshSession in
  redo (undo s) = s.
Proof.
  intros s. apply (proj1 (undo_redo_inverse s)). discriminate.
Defined.

Lemma history_bounded_along_run_witness :
  let s := @run gridDistance
             [Do (RenameActiveTrip "Rajasthan"); Undo; Redo; Undo] freshSession in
  historyBounded s /\ (List.length (past s) <= 25)%nat /\
  (List.length (future s) <= 25)%nat.
Proof.
  intros s. apply (@history_bounded_along_run gridDistance).
  unfold historyBounded. simpl. lia.
Defined.

Lemma edits_touch_only_active_trip_witness :
  let s := @perform gridDistance (HandleDeleteCheckpoint "b") twoTrips in
  map trip_id (trips s) = map trip_id (trips twoTrips) /\
  activeTripId s = activeTripId twoTrips /\
  forall i t, nth_error (trips twoTrips) i = Some t ->
              trip_id t <> activeTripId twoTrips ->
              nth_error (trips s) i = Some t.
Proof.
  intros s. apply (@edits_touch_only_active_trip gridDistance). reflexivity.
Defined.

Lemma undone_creation_blocks_edits_witness :
  let s' := undo (createNewTrip "trip-2" freshSession) in
  trips s' = trips freshSession /\
  activeTripId s' = "trip-2" /\
  activeTrip s' = hd_error (trips freshSession) /\
  trips (@perform gridDistance (HandleDeleteCheckpoint "a") s')
    = trips freshSession.
Proof.
  apply (@undone_creation_blocks_edits gridDistance "trip-2"
           (HandleDeleteCheckpoint "a") freshSession).
  - intros t [<-|[]]. discriminate.
  - reflexivity.
Defined.

Lemma create_then_delete_witness :
  let s := deleteTrip "trip-2" (createNewTrip "trip-2" freshSession) in
  trips s = trips freshSession /\ activeTripId s = trip_id goldenTriangle /\
  activeTrip s = Some goldenTriangle.
Proof.
  apply (create_then_delete "trip-2" freshSession goldenTriangle []).
  - reflexivity.
  - intros t [<-|[]]. discriminate.
Defined.

Lemma deleteTrip_keeps_a_trip_witness :
  trips (deleteTrip "trip-1" twoTrips) <> [] /\
  exists t0, hd_error (trips (deleteTrip "trip-1" twoTrips)) = Some t0 /\
             activeTripId (deleteTrip "trip-1" twoTrips) = trip_id t0 /\
             trip_id t0 <> "trip-1".
Proof.
  destruct (deleteTrip_keeps_a_trip "trip-1" twoTrips) as [H1 H2].
  - simpl. repeat constructor; simpl; intuition discriminate.
  - discriminate.
  - split; [exact H1|]. apply H2; [reflexivity|discriminate].
Defined.

Lemma segments_consistent_along_run_witness :
  Forall segmentInvariant
    (allTrips (@run gridDistance
                 [Do (HandleDeleteCheckpoint "b"); Undo;
                  Do (MoveCheckpoint "a" 1);
                  Do (HandleSave (Some (openSegmentEditor trainLeg)))]
                 freshSession)).
Proof.
  apply (@segments_consistent_along_run gridDistance).
  - repeat constructor.
  - exact freshSession_invariant.
Defined.

Lemma resync_fixed_point_witness :
  @syncSegments gridDistance (checkpoints goldenTriangle)
                (segments goldenTriangle) = [rickshawLeg; trainLeg] /\
  (forall segs,
     @syncSegments gridDistance (checkpoints goldenTriangle)
       (@syncSegments gridDistance (checkpoints goldenTriangle) segs) =
     @syncSegments gridDistance (checkpoints goldenTriangle) segs).
Proof.
  destruct (@resync_fixed_point gridDistance goldenTriangle
              goldenTriangle_distinct) as [H1 H2].
  split; [exact (H1 goldenTriangle_invariant)|exact H2].
Defined.

Lemma delete_absent_is_identity_witness :
  @deleteCheckpointUpdater gridDistance "z" goldenTriangle = goldenTriangle /\
  @deleteDestinationUpdater gridDistance "Pune" goldenTriangle = goldenTriangle.
Proof.
  destruct (@delete_absent_is_identity gridDistance goldenTriangle "z" "Pune"
              goldenTriangle_invariant goldenTriangle_distinct) as [H1 H2].
  split; [apply H1|apply H2];
    intros c [<-|[<-|[<-|[]]]]; discriminate.
Defined.

Lemma transit_is_stored_segment_witness :
  transitToNext goldenTriangle tajMahal = Some trainLeg /\
  transitToNext goldenTriangle amberFort = None.
Proof.
  split.
  - exact (transit_is_stored_segment goldenTriangle 1 tajMahal
             goldenTriangle_invariant goldenTriangle_distinct eq_refl).
  - exact (transit_is_stored_segment goldenTriangle 2 amberFort
             goldenTriangle_invariant goldenTriangle_distinct eq_refl).
Defined.

Lemma moveCheckpoint_swaps_neighbours_witness :
  checkpoints (@moveCheckpointUpdater gridDistance "b" 1 goldenTriangle)
    = [agraFort; amberFort; tajMahal] /\
  checkpoints (@moveCheckpointUpdater gridDistance "c" (-1) goldenTriangle)
    = [agraFort; amberFort; tajMahal] /\
  segmentInvariant (@moveCheckpointUpdater gridDistance "b" 1 goldenTriangle) /\
  distinctIds (@moveCheckpointUpdater gridDistance "b" 1 goldenTriangle).
Proof.
  exact (@moveCheckpoint_swaps_neighbours gridDistance goldenTriangle
           [agraFort] tajMahal amberFort [] eq_refl goldenTriangle_distinct).
Defined.

Lemma move_down_then_up_witness :
  let t' := @moveCheckpointUpdater gridDistance "a" (-1)
              (@moveCheckpointUpdater gridDistance "a" 1 goldenTriangle) in
  checkpoints t' = checkpoints goldenTriangle /\
  nth_error (segments t') 0 = Some (@synthSegment gridDistance agraFort tajMahal).
Proof.
  exact (@move_down_then_up gridDistance goldenTriangle
           [] agraFort tajMahal [amberFort] eq_refl goldenTriangle_distinct).
Defined.

Lemma regroup_idempotent_witness :
  regroup (regroup (checkpoints goldenTriangle))
  = regroup (checkpoints goldenTriangle).
Proof. apply regroup_idempotent. exact goldenTriangle_finite. Defined.

Lemma moveDestination_swaps_cities_witness :
  let t' := @moveDestinationUpdater gridDistance "Agra" 1 goldenTriangle in
  dedup (map cp_city (checkpoints t')) = ["Jaipur"; "Agra"] /\
  (forall c, filter (inCity c) (checkpoints t') =
             filter (inCity c) (checkpoints goldenTriangle)) /\
  cityContiguous (checkpoints t') /\
  Permutation (checkpoints t') (checkpoints goldenTriangle) /\
  segmentInvariant t'.
Proof.
  apply (@moveDestination_swaps_cities gridDistance goldenTriangle "Agra" 1 0).
  - reflexivity.
  - vm_compute. split; [discriminate|reflexivity].
Defined.

Lemma recommended_nearest_first_witness :
  StronglySorted nearerOrEqual
    (@recommendedCities gridDistance (Some mehtabBagh) (Some goldenTriangle)).
Proof.
  apply (proj2 (@recommended_nearest_first gridDistance mehtabBagh
                  goldenTriangle)).
  intros c [<-|[<-|[<-|[]]]]; eexists; reflexivity.
Defined.


Lemma added_city_goes_last_witness :
  let newCp := stop "d" "Mehtab Bagh" (271800 # 10000) (780420 # 10000)
                    "Agra" in
  groupSorted
    (checkpoints (@addCheckpointUpdater gridDistance newCp goldenTriangle)).
Proof.
  intros newCp.
  destruct (@added_city_goes_last gridDistance newCp goldenTriangle)
    as [_ [_ [_ H]]].
  apply H.
  - repeat constructor; eexists; reflexivity.
  - unfold clockStarts. simpl.
    apply Forall_cons; [right; exists 960; split; [lia|reflexivity]|].
    apply Forall_cons; [right; exists 1140; split; [lia|reflexivity]|].
    apply Forall_cons; [right; exists 540; split; [lia|reflexivity]|].
    apply Forall_cons; [right; exists 540; split; [lia|reflexivity]|].
    apply Forall_nil.
Defined.


Lemma blocked_move_still_recorded_witness :
  recordedUnchanged
    (@perform gridDistance (MoveCheckpoint "a" (-1)) freshSession) freshSession /\
  recordedUnchanged
    (@perform gridDistance (MoveDestination "Agra" (-1)) freshSession)
    freshSession.
Proof.
  destruct (@blocked_move_still_recorded gridDistance "a" "Agra" (-1)
              freshSession) as [H1 H2].
  split; [apply H1|apply H2]; intros t [<-|[]] _; reflexivity.
Defined.

End MoreSamples.
